(** * Lyric-video authoring tool: embedding and verified properties

    The development follows the TypeScript sources:
    - [utils.ts]: [parseSrtTime], [parseSrt] (module [Srt]);
    - [services/geminiService]: [generateImagesForLyrics] (module [Gemini]);
    - [components/VideoPlayer]: the preview/export component (module
      [VideoPlayer]);
    - [App]: the form screen and its handlers (module [App]).

    JavaScript strings are sequences of UTF-16 code units; a Number is
    the rational it denotes ([Q]); array indices that may be [-1] are
    integers ([Z]).  The arithmetic of the time stamps ([parseSrtTime],
    [formatSrtTime]) is rounded to binary64 as JavaScript rounds it
    ([Js.fl]); comparisons, [Math.floor], [%] and [toFixed] are exact on
    the numbers they receive.  The other arithmetic of the player (the
    background schedule, the progress of an export, the positions on the
    canvas) is that of the rationals. *)

From Stdlib Require Import Ascii QArith Qround Qabs Qpower Lqa.
From stdpp Require Import base numbers list strings.

Local Open Scope Z_scope.

(** ** Part I. The embedding *)

(** *** JavaScript values used by the program *)

Module Js.

(** A string is a list of UTF-16 code units. *)
Definition char := N.
Definition str := list N.

(** An ASCII literal of the source, as code units. *)
Definition lit (s : string) : str :=
  (λ a, N_of_ascii a) <$> String.list_ascii_of_string s.

(** **** Numbers *)

(** [2^e], for an integer [e] of either sign. *)
Definition pow2 (e : Z) : Q := (2 ^ e)%Q.

(** The binary exponent of a positive number: the [e] with
    [2^e <= x < 2^(e+1)]. *)
Definition exponent (x : Q) : Z :=
  let e := Z.log2 (Qnum x) - Z.log2 (Zpos (Qden x)) in
  if Qle_bool (pow2 e) x then e else e - 1.

(** The integer nearest to [q], the even one of two equally near. *)
Definition roundEven (q : Q) : Z :=
  let f := Qfloor q in
  match (q - inject_Z f ?= 1 # 2)%Q with
  | Lt => f
  | Gt => f + 1
  | Eq => if Z.even f then f else f + 1
  end.

(** The binary64 number nearest to a positive [x]: a multiple of
    [2^(e-52)], where [e] is the exponent of [x], and not below [-1022]
    (the subnormal numbers). *)
Definition flPos (x : Q) : Q :=
  let ulp := pow2 (Z.max (exponent x) (-1022) - 52) in
  (inject_Z (roundEven (x / ulp)) * ulp)%Q.

(** The result of an arithmetic operation on Numbers: the exact result
    [x] rounded to the nearest binary64 number, ties to even.  (Results
    of [2^1024] and more are [Infinity] in JavaScript; the program's
    numbers stay far below.) *)
Definition fl (x : Q) : Q :=
  match (x ?= 0)%Q with
  | Eq => 0%Q
  | Gt => flPos x
  | Lt => (- flPos (- x))%Q
  end.

(** The Number of an integer, and the arithmetic operators on Numbers:
    the exact result, rounded (the divisors of the program are constants
    that are not zero). *)
Definition number (z : Z) : Q := fl (inject_Z z).
Definition add (x y : Q) : Q := fl (x + y).
Definition mul (x y : Q) : Q := fl (x * y).
Definition div (x y : Q) : Q := fl (x / y).

(** Numeric comparisons [x >= y] and [x < y]. *)
Definition ge (x y : Q) : bool := Qle_bool y x.
Definition lt (x y : Q) : bool := negb (Qle_bool y x).

(** [Array.prototype.findIndex]: index of the first element satisfying
    the predicate, [-1] when there is none. *)
Fixpoint findIndex_from {A} (p : A → bool) (l : list A) (i : Z) : Z :=
  match l with
  | [] => -1
  | x :: l' => if p x then i else findIndex_from p l' (i + 1)
  end.
Definition findIndex {A} (p : A → bool) (l : list A) : Z :=
  findIndex_from p l 0.

(** [a[i]] for an integer index: [undefined] ([None]) out of range. *)
Definition at_ {A} (l : list A) (i : Z) : option A :=
  if decide (0 ≤ i) then l !! Z.to_nat i else None.

(** Code units of the characters the program names. *)
Definition LF : N := 10.
Definition CR : N := 13.
Definition colon : N := 58.
Definition comma : N := 44.
Definition zero : N := 48.
Definition minus : N := 45.
Definition plus : N := 43.
Definition dot : N := 46.

(** The code units matched by [\s] and stripped by [trim]: the WhiteSpace
    and LineTerminator productions (TAB, LF, VT, FF, CR, SP, NBSP, the
    Unicode space separators, LS, PS, BOM). *)
Definition isWhiteSpace (c : N) : bool :=
  bool_decide (c ∈ [9; 10; 11; 12; 13; 32; 160; 5760; 8232; 8233; 8239;
                    8287; 12288; 65279]%N)
  || ((8192 <=? c) && (c <=? 8202))%N.

(** [\d]. *)
Definition isDigit (c : N) : bool := ((48 <=? c) && (c <=? 57))%N.

Fixpoint takeWhile (p : N → bool) (s : str) : str :=
  match s with
  | c :: s' => if p c then c :: takeWhile p s' else []
  | [] => []
  end.

Fixpoint dropWhile (p : N → bool) (s : str) : str :=
  match s with
  | c :: s' => if p c then dropWhile p s' else s
  | [] => []
  end.

Definition trimStart (s : str) : str := dropWhile isWhiteSpace s.

Fixpoint trimEnd (s : str) : str :=
  match s with
  | [] => []
  | c :: s' =>
      match trimEnd s' with
      | [] => if isWhiteSpace c then [] else [c]
      | t => c :: t
      end
  end.

(** [String.prototype.trim]. *)
Definition trim (s : str) : str := trimEnd (trimStart s).

(** [s.startsWith(pat)], and [s.includes(pat)]. *)
Fixpoint startsWith (pat s : str) : bool :=
  match pat, s with
  | [], _ => true
  | p :: pat', c :: s' => (p =? c)%N && startsWith pat' s'
  | _ :: _, [] => false
  end.

Fixpoint includes (pat s : str) : bool :=
  startsWith pat s ||
  match s with
  | [] => false
  | _ :: s' => includes pat s'
  end.

(** [s.split(c)] for a one-character separator: never empty. *)
Fixpoint splitOn (sep : N) (s : str) : list str :=
  match s with
  | [] => [[]]
  | c :: s' =>
      if (c =? sep)%N then [] :: splitOn sep s'
      else match splitOn sep s' with
           | l :: ls => (c :: l) :: ls
           | [] => [[c]]
           end
  end.

(** [lines.join(c)]. *)
Fixpoint join (sep : N) (ls : list str) : str :=
  match ls with
  | [] => []
  | [l] => l
  | l :: ls' => l ++ sep :: join sep ls'
  end.

(** [s.replace(/\r\n/g, '\n')]: the CR of every CR LF pair is dropped. *)
Fixpoint replaceCrLf (s : str) : str :=
  match s with
  | [] => []
  | c :: s' =>
      if (c =? CR)%N && startsWith [LF] s' then replaceCrLf s'
      else c :: replaceCrLf s'
  end.

(** Index of the last LF of a string. *)
Fixpoint lastLF (s : str) : option nat :=
  match s with
  | [] => None
  | c :: s' =>
      match lastLF s' with
      | Some j => Some (S j)
      | None => if (c =? LF)%N then Some 0%nat else None
      end
  end.

(** The match of [/\n\s*\n/] at the start of [s], as its length: after
    the first LF the greedy [\s*] takes the whole run of white space and
    gives characters back until the next one is LF, so the match ends
    with the last LF of that run. *)
Definition sepMatch (s : str) : option nat :=
  match s with
  | c :: rest =>
      if (c =? LF)%N then
        match lastLF (takeWhile isWhiteSpace rest) with
        | Some j => Some (S (S j))
        | None => None
        end
      else None
  | [] => None
  end.

(** [s.split(/\n\s*\n/)].  The string is scanned from the left; [cur]
    is the piece being collected and [skip] counts the characters of the
    current match still to be passed.  A match is never empty, and the
    empty string yields one empty piece. *)
Fixpoint splitSepFrom (skip : nat) (cur : str) (s : str) : list str :=
  match s with
  | [] => [cur]
  | c :: s' =>
      match skip with
      | S k => splitSepFrom k cur s'
      | O =>
          match sepMatch s with
          | Some n => cur :: splitSepFrom (n - 1) [] s'
          | None => splitSepFrom 0 (cur ++ [c]) s'
          end
      end
  end.
Definition splitSep (s : str) : list str := splitSepFrom 0 [] s.

(** The value of a string of decimal digits. *)
Definition digitsValue (ds : str) : Z :=
  fold_left (λ acc c, acc * 10 + (Z.of_N c - 48)) ds 0.

(** [parseInt(s, 10)]: leading white space, an optional sign, then the
    longest run of digits; [None] stands for [NaN]. *)
Definition parseInt (s : str) : option Z :=
  let s1 := trimStart s in
  let '(sign, s2) :=
    match s1 with
    | c :: r => if (c =? minus)%N then (-1, r)
                else if (c =? plus)%N then (1, r) else (1, s1)
    | [] => (1, s1)
    end in
  match takeWhile isDigit s2 with
  | [] => None
  | ds => Some (sign * digitsValue ds)
  end.

(** Decimal digits of a natural number, most significant first. *)
Fixpoint digitsOf (fuel : nat) (n : N) : str :=
  match fuel with
  | O => []
  | S f =>
      if (n <? 10)%N then [(zero + n)%N]
      else digitsOf f (n / 10)%N ++ [(zero + n mod 10)%N]
  end.
Definition natToString (n : N) : str := digitsOf (S (N.to_nat (N.log2 n))) n.

(** [Number.prototype.toString] on an integer (below [10^21], where
    the decimal notation is used). *)
Definition intToString (z : Z) : str :=
  if z <? 0 then minus :: natToString (Z.to_N (- z))
  else natToString (Z.to_N z).

(** [s.padStart(2, '0')]. *)
Definition padStart2 (s : str) : str :=
  replicate (2 - length s) zero ++ s.

(** The remainder operator [x % m]: the result has the sign of [x].  It
    is exact: the remainder of two Numbers is a Number. *)
Definition rem (x m : Q) : Q :=
  let q := (x / m)%Q in
  let truncated := if Qle_bool 0 q then Qfloor q else Qceiling q in
  (x - m * inject_Z truncated)%Q.

(** [x.toFixed(3)] (for [|x| < 10^21]): the nearest multiple of [1/1000],
    the larger one on a tie, written with three decimals. *)
Definition toFixed3 (x : Q) : str :=
  let neg := negb (Qle_bool 0 x) in
  let x' := if neg then (- x)%Q else x in
  let n := Qfloor (x' * 1000 + (1 # 2))%Q in
  let m := natToString (Z.to_N n) in
  let m' := replicate (4 - length m) zero ++ m in
  let k := length m' in
  (if neg then [minus] else [])
  ++ take (k - 3) m' ++ dot :: drop (k - 3) m'.

End Js.

(** *** types.ts: the timed lyric line *)

Record TimedLyric := mkLyric {
  text : Js.str;
  startTime : Q;
  endTime : Q
}.

(** *** utils.ts: the SRT parser *)

Module Srt.

(** A piece of a pattern: [\d] or a literal character. *)
Inductive atom := Digit | Lit (c : N).

Definition atomMatches (a : atom) (c : N) : bool :=
  match a with
  | Digit => Js.isDigit c
  | Lit c' => (c =? c')%N
  end.

(** Match a sequence of atoms at the start of [s]: the matched text and
    the rest. *)
Fixpoint matchAtoms (p : list atom) (s : Js.str) : option (Js.str * Js.str) :=
  match p with
  | [] => Some ([], s)
  | a :: p' =>
      match s with
      | c :: s' =>
          if atomMatches a c then
            '(m, r) ← matchAtoms p' s'; Some (c :: m, r)
          else None
      | [] => None
      end
  end.

(** [\d{2}:\d{2}:\d{2},\d{3}]. *)
Definition stamp : list atom :=
  [Digit; Digit; Lit Js.colon; Digit; Digit; Lit Js.colon;
   Digit; Digit; Lit Js.comma; Digit; Digit; Digit].

Definition stripPrefix (pat s : Js.str) : option Js.str :=
  if Js.startsWith pat s then Some (drop (length pat) s) else None.

(** The pattern
    [/(\d{2}:\d{2}:\d{2},\d{3})\s*-->\s*(\d{2}:\d{2}:\d{2},\d{3})/]
    tried at the start of [s]; the two groups.  What follows each [\s*]
    is not white space, so the greedy run is the only way to match. *)
Definition timeMatchAt (s : Js.str) : option (Js.str * Js.str) :=
  '(g1, r1) ← matchAtoms stamp s;
  r2 ← stripPrefix (Js.lit "-->") (Js.dropWhile Js.isWhiteSpace r1);
  '(g2, _) ← matchAtoms stamp (Js.dropWhile Js.isWhiteSpace r2);
  Some (g1, g2).

(** [timeLine.match(...)]: the leftmost position where the pattern
    matches. *)
Fixpoint timeMatch (s : Js.str) : option (Js.str * Js.str) :=
  match timeMatchAt s with
  | Some m => Some m
  | None =>
      match s with
      | [] => None
      | _ :: s' => timeMatch s'
      end
  end.

(** [parseInt(a[i], 10)]; [NaN] when the element is missing. *)
Definition parseIntAt (a : list Js.str) (i : nat) : option Z :=
  a !! i ≫= Js.parseInt.

(** [parseSrtTime]: HH:MM:SS,ms to seconds.  [None] covers the results
    that are not a number ([NaN], or the exception of [parts[2].split]
    on a missing part); they do not arise on a string matched by
    [stamp]. *)
Definition parseSrtTime (time : Js.str) : option Q :=
  let parts := Js.splitOn Js.colon time in
  part2 ← parts !! 2%nat;
  let secondsAndMs := Js.splitOn Js.comma part2 in
  hours ← parseIntAt parts 0;
  minutes ← parseIntAt parts 1;
  seconds ← parseIntAt secondsAndMs 0;
  milliseconds ← parseIntAt secondsAndMs 1;
  Some (Js.add
          (Js.add (Js.add (Js.mul (Js.number hours) 3600)
                          (Js.mul (Js.number minutes) 60))
                  (Js.number seconds))
          (Js.div (Js.number milliseconds) 1000)).

(** The body of the loop of [parseSrt]: what one block pushes. *)
Definition parseBlock (block : Js.str) : option TimedLyric :=
  let lines := Js.splitOn Js.LF block in
  if bool_decide (2 ≤ length lines)%nat then
    let timeLineIndex := Js.findIndex (Js.includes (Js.lit "-->")) lines in
    if negb (timeLineIndex =? -1) then
      timeLine ← Js.at_ lines timeLineIndex;
      '(g1, g2) ← timeMatch timeLine;
      startTime ← parseSrtTime g1;
      endTime ← parseSrtTime g2;
      let text := Js.trim (Js.join Js.LF (drop (Z.to_nat (timeLineIndex + 1)) lines)) in
      if bool_decide (text ≠ []) then Some (mkLyric text startTime endTime)
      else None
    else None
  else None.

(** [srtContent.replace(/\r\n/g, '\n').trim().split(/\n\s*\n/)]. *)
Definition blocks (srtContent : Js.str) : list Js.str :=
  Js.splitSep (Js.trim (Js.replaceCrLf srtContent)).

(** [parseSrt]. *)
Definition parseSrt (srtContent : Js.str) : list TimedLyric :=
  omap parseBlock (blocks srtContent).

End Srt.

(** *** components/VideoPlayer: the preview/export component

    The audio element is taken to be mounted ([audioRef.current] is not
    null).  The font family, which only names the font of the drawn text,
    is left out. *)

Module VideoPlayer.

(** [lyricsToRender]: the lyric list padded with two dummy lines on each
    side; empty when there are no lyrics. *)
Definition lyricsToRender (timedLyrics : list TimedLyric) : list TimedLyric :=
  match timedLyrics with
  | [] => []
  | first :: _ =>
      let firstStartTime := startTime first in
      [ mkLyric [] (-2) (-1); mkLyric [] (-1) firstStartTime ]
      ++ timedLyrics
      ++ [ mkLyric [] 99999 999999; mkLyric [] 999999 9999999 ]
  end.

(** The predicate passed to [findIndex], both in [currentIndex] and in
    [drawFrame]. *)
Definition isActive (t : Q) (lyric : TimedLyric) : bool :=
  Js.ge t (startTime lyric) && Js.lt t (endTime lyric).

(** The [for] loop of [currentIndex]: the last index of the maximal
    prefix of lyrics whose end time has passed. *)
Fixpoint lastPassedLoop (t : Q) (l : list TimedLyric) (i acc : Z) : Z :=
  match l with
  | [] => acc
  | lyric :: l' =>
      if Js.ge t (endTime lyric) then lastPassedLoop t l' (i + 1) i else acc
  end.

(** [timedLyrics.length > 0 && t >= timedLyrics[length - 1].endTime]. *)
Definition afterLast (t : Q) (timedLyrics : list TimedLyric) : bool :=
  match last timedLyrics with
  | Some lyric => Js.ge t (endTime lyric)
  | None => false
  end.

(** [currentIndex], the memoised index of the live preview. *)
Definition currentIndex (currentTime : Q) (isPlaying : bool)
    (timedLyrics : list TimedLyric) : Z :=
  if Qeq_bool currentTime 0 && negb isPlaying then 1
  else
    let index := Js.findIndex (isActive currentTime) timedLyrics in
    if negb (index =? -1) then index + 2
    else if afterLast currentTime timedLyrics
    then Z.of_nat (length timedLyrics) + 2
    else
      let lastPassedIndex := lastPassedLoop currentTime timedLyrics 0 (-1) in
      if negb (lastPassedIndex =? -1) then lastPassedIndex + 2 + 1
      else 1.

(** [canvasCurrentIndex], computed for every frame inside [drawFrame]. *)
Definition canvasCurrentIndex (currentPlaybackTime : Q)
    (timedLyrics : list TimedLyric) : Z :=
  let lyricIdx := Js.findIndex (isActive currentPlaybackTime) timedLyrics in
  if negb (lyricIdx =? -1) then lyricIdx + 2
  else if afterLast currentPlaybackTime timedLyrics
  then Z.of_nat (length timedLyrics) + 2
  else 1.

(** [audioRef.current?.duration || 1]: [None] stands for a missing
    element or a [NaN] duration. *)
Definition durationValue (duration : option Q) : Q :=
  match duration with
  | Some d => if Qeq_bool d 0 then 1 else d
  | None => 1
  end.

(** [durationValue / (imageUrls.length || 1)]. *)
Definition imageSwitchInterval (duration : option Q) (n : nat) : Q :=
  durationValue duration / inject_Z (if (n =? 0)%nat then 1 else Z.of_nat n).

(** [Math.min(Math.floor(t / imageSwitchInterval), n - 1)]: the
    expression of the background effect ([newIndex]) and of [drawFrame]
    ([currentBgIndex], with [loadedImages.length = imageUrls.length]). *)
Definition bgIndexAt (t : Q) (duration : option Q) (n : nat) : Z :=
  Z.min (Qfloor (t / imageSwitchInterval duration n)) (Z.of_nat n - 1).

Definition newIndex (currentTime : Q) (duration : option Q) (n : nat) : Z :=
  bgIndexAt currentTime duration n.
Definition currentBgIndex (currentPlaybackTime : Q) (duration : option Q)
    (n : nat) : Z :=
  bgIndexAt currentPlaybackTime duration n.

(** The background effect of the preview: [bgIndex] is replaced by
    [newIndex] when there are several images and the audio plays. *)
Definition bgEffect (currentTime : Q) (isPlaying : bool)
    (duration : option Q) (n : nat) (bgIndex : Z) : Z :=
  if (1 <? n)%nat && isPlaying then
    let newIndex := newIndex currentTime duration n in
    if negb (newIndex =? bgIndex) then newIndex else bgIndex
  else bgIndex.

(** [formatSrtTime]. *)
Definition formatSrtTime (seconds : Q) : Js.str :=
  let h := Js.padStart2 (Js.intToString (Qfloor (Js.div seconds 3600))) in
  let m := Js.padStart2
             (Js.intToString (Qfloor (Js.div (Js.rem seconds 3600) 60))) in
  let s := Js.padStart2 (Js.intToString (Qfloor (Js.rem seconds 60))) in
  let ms := drop 2 (Js.toFixed3 (Js.rem seconds 1)) in
  h ++ Js.colon :: m ++ Js.colon :: s ++ Js.comma :: ms.

(** One step of the [forEach] of [generateSrtContent]:
    [`${index + 1}\n${startTime} --> ${endTime}\n${lyric.text}\n\n`]. *)
Definition srtEntry (index : nat) (lyric : TimedLyric) : Js.str :=
  Js.natToString (N.of_nat (index + 1)) ++ Js.LF ::
  formatSrtTime (startTime lyric) ++ Js.lit " --> " ++
  formatSrtTime (endTime lyric) ++ Js.LF ::
  text lyric ++ [Js.LF; Js.LF].

Fixpoint generateFrom (index : nat) (l : list TimedLyric) : Js.str :=
  match l with
  | [] => []
  | lyric :: l' => srtEntry index lyric ++ generateFrom (S index) l'
  end.

(** [generateSrtContent]. *)
Definition generateSrtContent (timedLyrics : list TimedLyric) : Js.str :=
  generateFrom 0 timedLyrics.

(** **** The component as a state machine *)

(** The props the component receives. *)
Record Props := mkProps {
  timedLyrics : list TimedLyric;
  imageUrls : list Js.str;
  songTitle : Js.str;
  artistName : Js.str
}.

(** The audio element: [currentTime], [paused], and [duration] ([None]
    while it is [NaN]). *)
Record Audio := mkAudio {
  audioTime : Q;
  paused : bool;
  duration : option Q
}.

Inductive AspectRatio := R16_9 | R9_16 | R1_1.
Inductive Resolution := P720 | P1080.
Inductive RecorderState := Recording | Inactive.

(** The stages shown by [setExportProgress]. *)
Inductive stage := Initializing | LoadingResources | ResourcesLoaded | RecordingVideo.

(** What one call of [drawFrame] draws. *)
Record Frame := mkFrame {
  frameBg : Z;
  frameIndex : Z;
  frameTranslateY : Q;
  frameLines : list Js.str
}.

(** The variables of one run of [handleExportVideo] that its callbacks
    share: [tracksLive] has one entry per track of [combinedStream]
    (the video track and the audio track). *)
Record Session := mkSession {
  wasPlaying : bool;
  canvasWidth : Q;
  canvasHeight : Q;
  mp4 : bool;
  recorder : RecorderState;
  stopEventPending : bool;
  recordedChunks : list Js.str;
  tracksLive : list bool;
  audioContextClosed : bool;
  currentCanvasTranslateY : Q;
  frameRequested : bool;
  frames : list Frame
}.

(** A file offered for download. *)
Inductive file :=
| SrtFile (name content : Js.str)
| VideoFile (name : Js.str) (chunks : list Js.str).

Inductive alert := CanvasUnavailable | ExportFailed.

Record Player := mkPlayer {
  props : Props;
  isPlaying : bool;
  currentTime : Q;
  exportProgress : option (stage * option Q);
  bgIndex : Z;
  fontSize : Q;
  aspectRatio : AspectRatio;
  resolution : Resolution;
  isExportCancelled : bool;
  audio : Audio;
  session : option Session;
  downloads : list file;
  alerts : list alert
}.

Definition set_isPlaying (v : bool) (p : Player) : Player :=
  mkPlayer (props p) v (currentTime p) (exportProgress p) (bgIndex p)
    (fontSize p) (aspectRatio p) (resolution p) (isExportCancelled p)
    (audio p) (session p) (downloads p) (alerts p).
Definition set_currentTime (v : Q) (p : Player) : Player :=
  mkPlayer (props p) (isPlaying p) v (exportProgress p) (bgIndex p)
    (fontSize p) (aspectRatio p) (resolution p) (isExportCancelled p)
    (audio p) (session p) (downloads p) (alerts p).
Definition set_exportProgress (v : option (stage * option Q)) (p : Player) : Player :=
  mkPlayer (props p) (isPlaying p) (currentTime p) v (bgIndex p) (fontSize
    p) (aspectRatio p) (resolution p) (isExportCancelled p) (audio p)
    (session p) (downloads p) (alerts p).
Definition set_bgIndex (v : Z) (p : Player) : Player :=
  mkPlayer (props p) (isPlaying p) (currentTime p) (exportProgress p) v
    (fontSize p) (aspectRatio p) (resolution p) (isExportCancelled p)
    (audio p) (session p) (downloads p) (alerts p).
Definition set_fontSize (v : Q) (p : Player) : Player :=
  mkPlayer (props p) (isPlaying p) (currentTime p) (exportProgress p)
    (bgIndex p) v (aspectRatio p) (resolution p) (isExportCancelled p)
    (audio p) (session p) (downloads p) (alerts p).
Definition set_aspectRatio (v : AspectRatio) (p : Player) : Player :=
  mkPlayer (props p) (isPlaying p) (currentTime p) (exportProgress p)
    (bgIndex p) (fontSize p) v (resolution p) (isExportCancelled p) (audio
    p) (session p) (downloads p) (alerts p).
Definition set_resolution (v : Resolution) (p : Player) : Player :=
  mkPlayer (props p) (isPlaying p) (currentTime p) (exportProgress p)
    (bgIndex p) (fontSize p) (aspectRatio p) v (isExportCancelled p)
    (audio p) (session p) (downloads p) (alerts p).
Definition set_isExportCancelled (v : bool) (p : Player) : Player :=
  mkPlayer (props p) (isPlaying p) (currentTime p) (exportProgress p)
    (bgIndex p) (fontSize p) (aspectRatio p) (resolution p) v (audio p)
    (session p) (downloads p) (alerts p).
Definition set_audio (v : Audio) (p : Player) : Player :=
  mkPlayer (props p) (isPlaying p) (currentTime p) (exportProgress p)
    (bgIndex p) (fontSize p) (aspectRatio p) (resolution p)
    (isExportCancelled p) v (session p) (downloads p) (alerts p).
Definition set_session (v : option Session) (p : Player) : Player :=
  mkPlayer (props p) (isPlaying p) (currentTime p) (exportProgress p)
    (bgIndex p) (fontSize p) (aspectRatio p) (resolution p)
    (isExportCancelled p) (audio p) v (downloads p) (alerts p).
Definition set_downloads (v : list file) (p : Player) : Player :=
  mkPlayer (props p) (isPlaying p) (currentTime p) (exportProgress p)
    (bgIndex p) (fontSize p) (aspectRatio p) (resolution p)
    (isExportCancelled p) (audio p) (session p) v (alerts p).
Definition set_alerts (v : list alert) (p : Player) : Player :=
  mkPlayer (props p) (isPlaying p) (currentTime p) (exportProgress p)
    (bgIndex p) (fontSize p) (aspectRatio p) (resolution p)
    (isExportCancelled p) (audio p) (session p) (downloads p) v.
Definition set_recorder (v : RecorderState) (x : Session) : Session :=
  mkSession (wasPlaying x) (canvasWidth x) (canvasHeight x) (mp4 x) v
    (stopEventPending x) (recordedChunks x) (tracksLive x)
    (audioContextClosed x) (currentCanvasTranslateY x) (frameRequested x)
    (frames x).
Definition set_stopEventPending (v : bool) (x : Session) : Session :=
  mkSession (wasPlaying x) (canvasWidth x) (canvasHeight x) (mp4 x)
    (recorder x) v (recordedChunks x) (tracksLive x) (audioContextClosed x)
    (currentCanvasTranslateY x) (frameRequested x) (frames x).
Definition set_recordedChunks (v : list Js.str) (x : Session) : Session :=
  mkSession (wasPlaying x) (canvasWidth x) (canvasHeight x) (mp4 x)
    (recorder x) (stopEventPending x) v (tracksLive x) (audioContextClosed x)
    (currentCanvasTranslateY x) (frameRequested x) (frames x).
Definition set_tracksLive (v : list bool) (x : Session) : Session :=
  mkSession (wasPlaying x) (canvasWidth x) (canvasHeight x) (mp4 x)
    (recorder x) (stopEventPending x) (recordedChunks x) v
    (audioContextClosed x) (currentCanvasTranslateY x) (frameRequested x)
    (frames x).
Definition set_audioContextClosed (v : bool) (x : Session) : Session :=
  mkSession (wasPlaying x) (canvasWidth x) (canvasHeight x) (mp4 x)
    (recorder x) (stopEventPending x) (recordedChunks x) (tracksLive x) v
    (currentCanvasTranslateY x) (frameRequested x) (frames x).
Definition set_frameRequested (v : bool) (x : Session) : Session :=
  mkSession (wasPlaying x) (canvasWidth x) (canvasHeight x) (mp4 x)
    (recorder x) (stopEventPending x) (recordedChunks x) (tracksLive x)
    (audioContextClosed x) (currentCanvasTranslateY x) v (frames x).
(** A frame was drawn with the new [currentCanvasTranslateY]. *)
Definition add_frame (y : Q) (f : Frame) (x : Session) : Session :=
  mkSession (wasPlaying x) (canvasWidth x) (canvasHeight x) (mp4 x)
    (recorder x) (stopEventPending x) (recordedChunks x) (tracksLive x)
    (audioContextClosed x) y (frameRequested x) (frames x ++ [f]).

Definition set_audioTime (v : Q) (a : Audio) : Audio :=
  mkAudio v (paused a) (duration a).
Definition set_paused (v : bool) (a : Audio) : Audio :=
  mkAudio (audioTime a) v (duration a).

(** [handlePlayPause]. *)
Definition handlePlayPause (p : Player) : Player :=
  let p1 := if isPlaying p then set_audio (set_paused true (audio p)) p
            else set_audio (set_paused false (audio p)) p in
  set_isPlaying (negb (isPlaying p)) p1.

(** [handleTimelineChange]: seeking. *)
Definition handleTimelineChange (time : Q) (p : Player) : Player :=
  set_currentTime time (set_audio (set_audioTime time (audio p)) p).

(** The listeners on the audio element. *)
Definition timeUpdateHandler (p : Player) : Player :=
  set_currentTime (audioTime (audio p)) p.
Definition endedHandler (p : Player) : Player := set_isPlaying false p.
Definition onLoadedMetadata (p : Player) : Player := set_currentTime 0 p.

(** The background effect, on the state. *)
Definition backgroundEffect (p : Player) : Player :=
  set_bgIndex
    (bgEffect (currentTime p) (isPlaying p) (duration (audio p))
       (length (imageUrls (props p))) (bgIndex p)) p.

(** [`${songTitle} - ${artistName}.${extension}`]. *)
Definition fileName (p : Player) (extension : Js.str) : Js.str :=
  songTitle (props p) ++ Js.lit " - " ++ artistName (props p)
  ++ Js.dot :: extension.

(** [handleExportSrt]. *)
Definition handleExportSrt (p : Player) : Player :=
  let srtContent := generateSrtContent (timedLyrics (props p)) in
  set_downloads (downloads p ++ [SrtFile (fileName p (Js.lit "srt")) srtContent]) p.

(** [handleCancelExport]. *)
Definition handleCancelExport (p : Player) : Player :=
  set_isExportCancelled true p.

(** [getCanvasDimensions]. *)
Definition getCanvasDimensions (p : Player) : Q * Q :=
  let baseWidth := (match resolution p with P1080 => 1920 | P720 => 1280 end)%Q in
  let baseHeight := (match resolution p with P1080 => 1080 | P720 => 720 end)%Q in
  match aspectRatio p with
  | R16_9 => (baseWidth, baseHeight)
  | R9_16 => (baseHeight, baseWidth)
  | R1_1 => (baseHeight, baseHeight)
  end.

(** [lyricLineHeight = fontSize * (canvas.height / 720) * 1.5]. *)
Definition lyricLineHeight (p : Player) (x : Session) : Q :=
  fontSize p * (canvasHeight x / 720) * (3 # 2).

(** What the browser makes of the calls of [handleExportVideo] that set
    the recording up, all inside its [try]: [SetupThrows] when one of the
    calls from [new AudioContext()] to [new MediaRecorder(...)] throws,
    [StartThrows] when [recorder.start()] does, [Started] when none
    does. *)
Inductive recorderSetup := Started | SetupThrows | StartThrows.

(** The [catch] of [handleExportVideo]. *)
Definition exportFailed (p : Player) : Player :=
  set_exportProgress None (set_alerts (alerts p ++ [ExportFailed]) p).

(** [handleExportVideo].  [haveContext] tells whether the canvas gives a
    2D context, [imagesLoad] whether every image loads, [mp4Supported]
    what [MediaRecorder.isTypeSupported('video/mp4')] answers, [setup]
    whether the recorder can be set up and started. *)
Definition handleExportVideo (haveContext imagesLoad mp4Supported : bool)
    (setup : recorderSetup) (p : Player) : Player :=
  if bool_decide (imageUrls (props p) = []) then p
  else
    let p := set_isExportCancelled false p in
    let p := set_exportProgress (Some (Initializing, Some 0%Q)) p in
    let '(width, height) := getCanvasDimensions p in
    if negb haveContext then
      set_exportProgress None (set_alerts (alerts p ++ [CanvasUnavailable]) p)
    else
      let p := set_exportProgress (Some (LoadingResources, Some 5%Q)) p in
      if negb imagesLoad then exportFailed p
      else
        let p := set_exportProgress (Some (ResourcesLoaded, Some 10%Q)) p in
        let wasPlaying := isPlaying p in
        let p := if wasPlaying then handlePlayPause p else p in
        match setup with
        | SetupThrows => exportFailed p
        | StartThrows =>
            exportFailed
              (set_audio (set_paused false (set_audioTime 0 (audio p))) p)
        | Started =>
            let p := set_audio (set_paused false (set_audioTime 0 (audio p))) p in
            let lineHeight := (fontSize p * (height / 720) * (3 # 2))%Q in
            let initialTranslateY :=
              (height / 2 - 2 * lineHeight - lineHeight / 2)%Q in
            set_session
              (Some (mkSession wasPlaying width height mp4Supported Recording
                       false [] [true; true] false initialTranslateY true []))
              p
        end.

(** [recorder.ondataavailable]. *)
Definition ondataavailable (data : Js.str) (p : Player) : Player :=
  match session p with
  | Some x =>
      if bool_decide (data ≠ []) then
        set_session (Some (set_recordedChunks (recordedChunks x ++ [data]) x)) p
      else p
  | None => p
  end.

(** [recorder.onstop]. *)
Definition onstop (p : Player) : Player :=
  match session p with
  | Some x =>
      let p1 :=
        if negb (isExportCancelled p) then
          let extension := if mp4 x then Js.lit "mp4" else Js.lit "webm" in
          set_downloads
            (downloads p ++ [VideoFile (fileName p extension) (recordedChunks x)]) p
        else p in
      let x1 := set_tracksLive ((λ _, false) <$> tracksLive x) x in
      let x2 := set_audioContextClosed true x1 in
      let p2 := set_session (Some (set_stopEventPending false x2)) p1 in
      let p3 := set_exportProgress None p2 in
      if wasPlaying x then set_audio (set_paused false (audio p3)) p3 else p3
  | None => p
  end.

(** [recorder.state === 'recording']. *)
Definition isRecording (x : Session) : bool :=
  match recorder x with
  | Recording => true
  | Inactive => false
  end.

(** [t >= duration], false while the duration is [NaN]. *)
Definition reached (t : Q) (d : option Q) : bool :=
  match d with
  | Some d => Js.ge t d
  | None => false
  end.

(** [drawFrame], when the frame callback it requested runs.  The font
    size, the aspect ratio and the duration behind [imageSwitchInterval]
    are read from the state at the time of the frame. *)
Definition drawFrame (p : Player) : Player :=
  match session p with
  | Some x =>
      if frameRequested x then
        let currentPlaybackTime := audioTime (audio p) in
        let duration := duration (audio p) in
        if reached currentPlaybackTime duration
           || negb (isRecording x)
           || isExportCancelled p
        then
          let x1 :=
            if isRecording x
            then set_stopEventPending true (set_recorder Inactive x)
            else x in
          let p1 := set_audio (set_audioTime 0 (set_paused true (audio p))) p in
          set_session (Some (set_frameRequested false x1)) p1
        else
          let progress :=
            match duration with
            | Some d => Some (currentPlaybackTime / d * 100)%Q
            | None => None
            end in
          let p1 := set_exportProgress (Some (RecordingVideo, progress)) p in
          let n := length (imageUrls (props p)) in
          let bg := currentBgIndex currentPlaybackTime duration n in
          let idx := canvasCurrentIndex currentPlaybackTime (timedLyrics (props p)) in
          let lineHeight := lyricLineHeight p x in
          let center :=
            match aspectRatio p with
            | R16_9 => (canvasHeight x / 2)%Q
            | _ => (canvasHeight x * (1 # 2) + canvasHeight x * (1 # 2) / 2)%Q
            end in
          let targetTranslateY :=
            (center - inject_Z idx * lineHeight - lineHeight / 2)%Q in
          let y := (currentCanvasTranslateY x
                    + (targetTranslateY - currentCanvasTranslateY x) * (1 # 10))%Q in
          let drawn := mkFrame bg idx y
                         (text <$> lyricsToRender (timedLyrics (props p))) in
          set_session (Some (add_frame y drawn x)) p1
      else p
  | None => p
  end.

(** The events the component reacts to. *)
Inductive event :=
| PlayPause
| TimelineChange (time : Q)
| AudioAdvances (time : Q)
| TimeUpdate
| Ended
| LoadedMetadata
| BackgroundEffect
| SetFontSize (v : Q)
| SetAspectRatio (v : AspectRatio)
| SetResolution (v : Resolution)
| ExportSrt
| ExportVideo (haveContext imagesLoad mp4Supported : bool)
    (setup : recorderSetup)
| CancelExport
| AnimationFrame
| DataAvailable (data : Js.str)
| RecorderStopped.

Definition handle (e : event) (p : Player) : Player :=
  match e with
  | PlayPause => handlePlayPause p
  | TimelineChange time => handleTimelineChange time p
  | AudioAdvances time =>
      if paused (audio p) then p
      else set_audio (set_audioTime time (audio p)) p
  | TimeUpdate => timeUpdateHandler p
  | Ended => endedHandler p
  | LoadedMetadata => onLoadedMetadata p
  | BackgroundEffect => backgroundEffect p
  | SetFontSize v => set_fontSize v p
  | SetAspectRatio v => set_aspectRatio v p
  | SetResolution v => set_resolution v p
  | ExportSrt => handleExportSrt p
  | ExportVideo haveContext imagesLoad mp4Supported setup =>
      handleExportVideo haveContext imagesLoad mp4Supported setup p
  | CancelExport => handleCancelExport p
  | AnimationFrame => drawFrame p
  | DataAvailable data => ondataavailable data p
  | RecorderStopped =>
      match session p with
      | Some x => if stopEventPending x then onstop p else p
      | None => p
      end
  end.

(** A session of the component: the events in the order they occur. *)
Definition run (es : list event) (p : Player) : Player :=
  fold_left (λ p e, handle e p) es p.

(** **** The styles of the lyric lines and the clock *)



(** [formatTime].  [None] stands for [NaN], the duration of an audio
    element that has no metadata yet. *)
Definition formatTime (seconds : option Q) : Js.str :=
  match seconds with
  | None => Js.lit "0:00"
  | Some seconds =>
      let minutes := Qfloor (seconds / 60)%Q in
      let secs := Qfloor (Js.rem seconds 60) in
      Js.intToString minutes
      ++ Js.colon :: Js.padStart2 (Js.intToString secs)
  end.

End VideoPlayer.

(** *** services/geminiService: [generateImagesForLyrics] *)

Module Gemini.

(** What a rejected promise or a thrown exception carries. *)
Inductive error :=
| VendorError (msg : Js.str)       (* the vendor call rejected, or [JSON.parse] threw *)
| NoPrompts                        (* "AI did not return valid image prompts." *)
| NoImage (prompt : Js.str).       (* "Failed to generate image for prompt: ..." *)

Definition result (A : Type) : Type := error + A.

(** The vendor client [ai.models.generateContent], an opaque external
    service: the text request (with [JSON.parse] applied to the answer,
    [None] for a [null] value) and the image request (the [inlineData] of
    the first part, as MIME type and base64 data, when there is one). *)
Record Vendor := {
  askPrompts : Js.str → Js.str → Js.str → nat → result (option (list Js.str));
  askImage : Js.str → result (option (Js.str * Js.str))
}.

(** The body of [prompts.map(async (prompt) => ...)]. *)
Definition imagePromise (ai : Vendor) (prompt : Js.str) : result Js.str :=
  match askImage ai prompt with
  | inl e => inl e
  | inr (Some (mimeType, base64ImageBytes)) =>
      inr (Js.lit "data:" ++ mimeType ++ Js.lit ";base64," ++ base64ImageBytes)
  | inr None => inl (NoImage prompt)
  end.

(** [Promise.all]: every result when all succeed, a rejection when one
    rejects (here the first in list order). *)
Fixpoint promiseAll {A} (ps : list (result A)) : result (list A) :=
  match ps with
  | [] => inr []
  | inl e :: _ => inl e
  | inr a :: ps' =>
      match promiseAll ps' with
      | inl e => inl e
      | inr l => inr (a :: l)
      end
  end.

(** [generateImagesForLyrics]; the [catch] logs and rethrows, so the
    result is that of the [try] block. *)
Definition generateImagesForLyrics (ai : Vendor)
    (lyrics songTitle artistName : Js.str) (imageCount : nat)
    : result (list Js.str) :=
  match askPrompts ai lyrics songTitle artistName imageCount with
  | inl e => inl e
  | inr None => inl NoPrompts
  | inr (Some []) => inl NoPrompts
  | inr (Some prompts) => promiseAll (imagePromise ai <$> prompts)
  end.

End Gemini.

(** *** App: the form screen *)

Module App.

Inductive AppState := WELCOME | FORM | TIMING | PREVIEW.

(** An uploaded file, known by its name. *)
Definition File := Js.str.

(** An element of [backgroundImages : (File|string)[]]. *)
Inductive image :=
| ImgFile (f : File)
| ImgUrl (url : Js.str).

(** The state of the component: the fields the modelled handlers read
    or write (the video URL and the API-key flag of the second revision
    belong to other handlers). *)
Record state := mkState {
  appState : AppState;
  lyricsText : Js.str;
  songTitle : Js.str;
  artistName : Js.str;
  audioFile : option File;
  backgroundImages : list image;
  timedLyrics : list TimedLyric;
  timedLyricsFromSrt : option (list TimedLyric);
  isLoading : bool * Js.str;
  isAiUnlocked : bool
}.

(** The messages shown with [alert]. *)
Inductive message :=
| FillAllFields        (* handleStart: a required field is missing *)
| FillFieldsForAi      (* runAiImageGeneration: title, artist or lyrics missing *)
| AiImagesFailed       (* runAiImageGeneration: the generation failed *)
| PasswordCorrect      (* the AI feature is now unlocked *)
| PasswordWrong.       (* wrong password *)

(** What a handler does besides updating the state, as a call tree:
    [Invoke sub] is the call of the guarded action, with what it did. *)
#[local] Unset Elimination Schemes.
Inductive effect :=
| Alert (m : message)
| PromptPassword
| ConsoleError
| CallGenerateImages (lyrics songTitle artistName : Js.str)
| Invoke (sub : list effect).
#[local] Set Elimination Schemes.

(** Handlers are state transformers that log their effects in order. *)
Definition M (A : Type) : Type := state → A * state * list effect.

#[export] Instance M_ret : MRet M := λ A a s, (a, s, []).
#[export] Instance M_bind : MBind M := λ A B k m s,
  let '(a, s1, e1) := m s in
  let '(b, s2, e2) := k a s1 in (b, s2, e1 ++ e2).
Definition get : M state := λ s, (s, s, []).
Definition modify (f : state → state) : M unit := λ s, (tt, f s, []).
Definition emit (e : effect) : M unit := λ s, (tt, s, [e]).
Definition call (action : M unit) : M unit :=
  λ s, let '(_, s', sub) := action s in (tt, s', [Invoke sub]).

Definition setAppState (v : AppState) : M unit :=
  modify (λ s, mkState v (lyricsText s) (songTitle s) (artistName s)
    (audioFile s) (backgroundImages s) (timedLyrics s) (timedLyricsFromSrt s)
    (isLoading s) (isAiUnlocked s)).
Definition setTimedLyrics (v : list TimedLyric) : M unit :=
  modify (λ s, mkState (appState s) (lyricsText s) (songTitle s) (artistName s)
    (audioFile s) (backgroundImages s) v (timedLyricsFromSrt s)
    (isLoading s) (isAiUnlocked s)).
(** [setBackgroundImages(prev => f(prev))]. *)
Definition setBackgroundImages (f : list image → list image) : M unit :=
  modify (λ s, mkState (appState s) (lyricsText s) (songTitle s) (artistName s)
    (audioFile s) (f (backgroundImages s)) (timedLyrics s)
    (timedLyricsFromSrt s) (isLoading s) (isAiUnlocked s)).
Definition setIsLoading (v : bool * Js.str) : M unit :=
  modify (λ s, mkState (appState s) (lyricsText s) (songTitle s) (artistName s)
    (audioFile s) (backgroundImages s) (timedLyrics s) (timedLyricsFromSrt s)
    v (isAiUnlocked s)).
Definition setIsAiUnlocked (v : bool) : M unit :=
  modify (λ s, mkState (appState s) (lyricsText s) (songTitle s) (artistName s)
    (audioFile s) (backgroundImages s) (timedLyrics s) (timedLyricsFromSrt s)
    (isLoading s) v).

(** [!x] for a string: true on the empty string only. *)
Definition falsy (x : Js.str) : bool := bool_decide (x = []).

(** [handleStart] (both revisions of App have this body). *)
Definition handleStart : M unit :=
  s ← get;
  if falsy (lyricsText s) || bool_decide (audioFile s = None)
     || falsy (songTitle s) || falsy (artistName s)
  then emit (Alert FillAllFields)
  else
    match timedLyricsFromSrt s with
    | Some fromSrt => setTimedLyrics fromSrt;; setAppState PREVIEW
    | None => setAppState TIMING
    end.

(** [runAiImageGeneration] (named [runAiGeneration] in the first
    revision, with the same body).  The loading message is kept abstract. *)
Definition runAiImageGeneration (ai : Gemini.Vendor) (loadingMessage : Js.str)
    : M unit :=
  s ← get;
  if falsy (lyricsText s) || falsy (songTitle s) || falsy (artistName s)
  then emit (Alert FillFieldsForAi)
  else
    setIsLoading (true, loadingMessage);;
    emit (CallGenerateImages (lyricsText s) (songTitle s) (artistName s));;
    match Gemini.generateImagesForLyrics ai (lyricsText s) (songTitle s)
            (artistName s) 4 with
    | inr images => setBackgroundImages (λ prev, prev ++ (ImgUrl <$> images))
    | inl error => emit ConsoleError;; emit (Alert AiImagesFailed)
    end;;
    setIsLoading (false, []).

Definition runAiGeneration := runAiImageGeneration.

(** The password constants of the two revisions. *)
Definition AI_PASSWORD_first : Js.str := Js.lit "8520".
Definition AI_PASSWORD : Js.str := Js.lit "8888".

(** [handleAiRequest(action)]; [answer] is what [prompt] returns when it
    is shown ([None] for [null], the dialog was cancelled). *)
Definition handleAiRequest (action : M unit) (answer : option Js.str) : M unit :=
  s ← get;
  if isAiUnlocked s then call action
  else
    emit PromptPassword;;
    if bool_decide (answer = Some AI_PASSWORD) then
      emit (Alert PasswordCorrect);;
      setIsAiUnlocked true;;
      call action
    else if bool_decide (answer ≠ None) then emit (Alert PasswordWrong)
    else mret tt.

(** [handleAiGenerate] of the first revision: the same gate around
    [runAiGeneration], with that revision's password. *)
Definition handleAiGenerate (ai : Gemini.Vendor) (loadingMessage : Js.str)
    (answer : option Js.str) : M unit :=
  s ← get;
  if isAiUnlocked s then call (runAiGeneration ai loadingMessage)
  else
    emit PromptPassword;;
    if bool_decide (answer = Some AI_PASSWORD_first) then
      emit (Alert PasswordCorrect);;
      setIsAiUnlocked true;;
      call (runAiGeneration ai loadingMessage)
    else if bool_decide (answer ≠ None) then emit (Alert PasswordWrong)
    else mret tt.

(** Observations on the outcome of a handler. *)
Definition finalState {A} (r : A * state * list effect) : state := r.1.2.
Definition effects {A} (r : A * state * list effect) : list effect := r.2.

(** The action was invoked by the handler itself. *)
Definition invoked (es : list effect) : Prop := ∃ sub, Invoke sub ∈ es.

(** An alert was shown by the handler itself. *)
Definition alerted (es : list effect) : Prop := ∃ m, Alert m ∈ es.

(** **** The other handlers of the form, and its events *)

(** The remaining setters of the form. *)
Definition setTimedLyricsFromSrt (v : option (list TimedLyric)) : M unit :=
  modify (λ s, mkState (appState s) (lyricsText s) (songTitle s) (artistName s)
    (audioFile s) (backgroundImages s) (timedLyrics s) v
    (isLoading s) (isAiUnlocked s)).
Definition setLyricsText (v : Js.str) : M unit :=
  modify (λ s, mkState (appState s) v (songTitle s) (artistName s)
    (audioFile s) (backgroundImages s) (timedLyrics s) (timedLyricsFromSrt s)
    (isLoading s) (isAiUnlocked s)).
Definition setSongTitle (v : Js.str) : M unit :=
  modify (λ s, mkState (appState s) (lyricsText s) v (artistName s)
    (audioFile s) (backgroundImages s) (timedLyrics s) (timedLyricsFromSrt s)
    (isLoading s) (isAiUnlocked s)).
Definition setArtistName (v : Js.str) : M unit :=
  modify (λ s, mkState (appState s) (lyricsText s) (songTitle s) v
    (audioFile s) (backgroundImages s) (timedLyrics s) (timedLyricsFromSrt s)
    (isLoading s) (isAiUnlocked s)).
Definition setAudioFile (v : option File) : M unit :=
  modify (λ s, mkState (appState s) (lyricsText s) (songTitle s) (artistName s)
    v (backgroundImages s) (timedLyrics s) (timedLyricsFromSrt s)
    (isLoading s) (isAiUnlocked s)).

(** [handleTimingComplete], [handleBackToForm], [handleBackToTiming]. *)
Definition handleTimingComplete (lyrics : list TimedLyric) : M unit :=
  setTimedLyrics lyrics;; setAppState PREVIEW.
Definition handleBackToForm : M unit := setAppState FORM.
Definition handleBackToTiming : M unit := setAppState TIMING.

(** The [onBack] the preview receives:
    [timedLyricsFromSrt ? handleBackToForm : handleBackToTiming]. *)
Definition previewOnBack : M unit :=
  s ← get;
  match timedLyricsFromSrt s with
  | Some _ => handleBackToForm
  | None => handleBackToTiming
  end.

(** [handleImageUpload]; [files] is [e.target.files], [None] for [null].
    The second revision also clears the video URL, which is not a field
    of [state]. *)
Definition handleImageUpload (files : option (list File)) : M unit :=
  match files with
  | Some files => setBackgroundImages (λ prev, prev ++ (ImgFile <$> files))
  | None => mret tt
  end.

(** [prev.filter((_, i) => i !== index)], from the position [i] on. *)
Fixpoint filterIndex {A} (index : nat) (i : nat) (prev : list A) : list A :=
  match prev with
  | [] => []
  | x :: prev' =>
      if negb (i =? index)%nat then x :: filterIndex index (S i) prev'
      else filterIndex index (S i) prev'
  end.

(** [removeImage]. *)
Definition removeImage (index : nat) : M unit :=
  setBackgroundImages (filterIndex index 0).

Definition DEFAULT_BG_IMAGE : Js.str :=
  Js.lit "https://storage.googleapis.com/aistudio-hosting/workspace-template-assets/lyric-video-maker/default_bg.jpg".

(** [backgroundUrls]; [createObjectURL] is the URL the browser makes for
    a file. *)
Definition backgroundUrls (createObjectURL : File → Js.str)
    (backgroundImages : list image) : list Js.str :=
  if (length backgroundImages =? 0)%nat then [DEFAULT_BG_IMAGE]
  else (λ img, match img with
               | ImgUrl url => url
               | ImgFile f => createObjectURL f
               end) <$> backgroundImages.

(** What the SRT handlers show or log: the alerts, [console.error], the
    reset of the file input and the call of the timing service. *)
Inductive notice :=
| SrtUnparsable          (* the SRT file has no lyric *)
| SrtUnreadable          (* the SRT file could not be read *)
| TimingFieldsMissing    (* runAiLyricTiming: a field or the audio is missing *)
| TimingDone             (* the AI timing is complete *)
| TimingFailed           (* the AI timing failed *)
| LogError
| ResetFileInput
| CallGenerateSrt (lyrics songTitle artistName : Js.str) (audioDuration : Q).

(** The file of an upload event: none chosen, one whose [text()]
    rejects, or one with its content. *)
Inductive upload :=
| NoFile
| Unreadable
| Content (content : Js.str).

(** [handleSrtUpload]. *)
Definition handleSrtUpload (file : upload) (s : state) : state * list notice :=
  match file with
  | NoFile => (s, [])
  | Unreadable => (s, [LogError; SrtUnreadable])
  | Content content =>
      let parsed := Srt.parseSrt content in
      if (0 <? length parsed)%nat then
        (finalState ((setTimedLyricsFromSrt (Some parsed);;
                      setLyricsText
                        (Js.join Js.LF (text <$> parsed))) s),
         [])
      else (s, [SrtUnparsable; ResetFileInput])
  end.

(** [runAiLyricTiming] of the second revision.  [generateSrtFromLyrics]
    is the timing service, [audioDuration] the value of
    [audioDurationRef.current]. *)
Definition runAiLyricTiming
    (generateSrtFromLyrics : Js.str → Js.str → Js.str → Q → Gemini.result Js.str)
    (audioDuration : Q) (loadingMessage : Js.str) (s : state)
    : state * list notice :=
  if falsy (lyricsText s) || falsy (songTitle s) || falsy (artistName s)
     || bool_decide (audioFile s = None) || Qeq_bool audioDuration 0
  then (s, [TimingFieldsMissing])
  else
    let s1 := finalState (setIsLoading (true, loadingMessage) s) in
    let called := CallGenerateSrt (lyricsText s) (songTitle s) (artistName s)
                    audioDuration in
    let '(s2, notices) :=
      match generateSrtFromLyrics (lyricsText s) (songTitle s) (artistName s)
              audioDuration with
      | inr srtContent =>
          let parsed := Srt.parseSrt srtContent in
          if (0 <? length parsed)%nat then
            (finalState (setTimedLyricsFromSrt (Some parsed) s1), [TimingDone])
          else (s1, [LogError; TimingFailed])
      | inl error => (s1, [LogError; TimingFailed])
      end in
    (finalState (setIsLoading (false, []) s2), called :: notices).

(** What the user and the child components do: the inputs and buttons
    of the form, and the callbacks of the timing screen and of the
    preview.  The image editor and the video generation of the second
    revision, which work on the video URL and the API key, are left
    out. *)
Inductive event :=
| TypeLyrics (v : Js.str)
| TypeSongTitle (v : Js.str)
| TypeArtistName (v : Js.str)
| ChooseAudio (f : option File)
| SrtUpload (file : upload)
| ImageUpload (files : option (list File))
| RemoveImage (index : nat)
| AiImages (ai : Gemini.Vendor) (loadingMessage : Js.str)
    (answer : option Js.str)
| AiLyricTiming
    (generateSrtFromLyrics : Js.str → Js.str → Js.str → Q → Gemini.result Js.str)
    (audioDuration : Q) (loadingMessage : Js.str)
| Start
| TimingComplete (lyrics : list TimedLyric)
| TimingBack
| PreviewBack.

Definition handle (e : event) (s : state) : state :=
  match e with
  | TypeLyrics v => finalState (setLyricsText v s)
  | TypeSongTitle v => finalState (setSongTitle v s)
  | TypeArtistName v => finalState (setArtistName v s)
  | ChooseAudio f => finalState (setAudioFile f s)
  | SrtUpload file => (handleSrtUpload file s).1
  | ImageUpload files => finalState (handleImageUpload files s)
  | RemoveImage index => finalState (removeImage index s)
  | AiImages ai loadingMessage answer =>
      finalState
        (handleAiRequest (runAiImageGeneration ai loadingMessage) answer s)
  | AiLyricTiming generateSrtFromLyrics audioDuration loadingMessage =>
      (runAiLyricTiming generateSrtFromLyrics audioDuration loadingMessage s).1
  | Start => finalState (handleStart s)
  | TimingComplete lyrics => finalState (handleTimingComplete lyrics s)
  | TimingBack => finalState (handleBackToForm s)
  | PreviewBack => finalState (previewOnBack s)
  end.

Definition run (es : list event) (s : state) : state :=
  fold_left (λ s e, handle e s) es s.

End App.

(** *** Notions used in the statements *)

(** Membership of a playback time in a lyric's interval, end exclusive. *)
Definition activeAt (t : Q) (lyric : TimedLyric) : Prop :=
  (startTime lyric <= t)%Q ∧ (t < endTime lyric)%Q.

(** [i] is the first index of [tl] whose lyric is active at [t]. *)
Definition firstActive (t : Q) (tl : list TimedLyric) (i : nat)
    (x : TimedLyric) : Prop :=
  tl !! i = Some x ∧ activeAt t x ∧
  ∀ j y, (j < i)%nat → tl !! j = Some y → ¬ activeAt t y.

Section player_session_notions.
Import VideoPlayer.

(** Every frame drawn so far shows the padded list of the lyrics the
    component received. *)
Definition framesShowLyrics (p : Player) : Prop :=
  ∀ x, session p = Some x →
    Forall (λ f, frameLines f = text <$> lyricsToRender (timedLyrics (props p)))
      (frames x).

(** The events that start a video export (and reset the cancel flag). *)
Definition startsExport (e : event) : bool :=
  match e with
  | ExportVideo _ _ _ _ => true
  | _ => false
  end.

End player_session_notions.

Section app_handlers_notions.
Import App.

(** A required field of the form is missing. *)
Definition formIncomplete (s : state) : Prop :=
  lyricsText s = [] ∨ audioFile s = None ∨ songTitle s = [] ∨ artistName s = [].

(** The fields the generation needs are filled in. *)
Definition aiFieldsFilled (s : state) : Prop :=
  lyricsText s ≠ [] ∧ songTitle s ≠ [] ∧ artistName s ≠ [].

(** The state with the loading indicator cleared. *)
Definition loadingCleared (s : state) : state :=
  mkState (appState s) (lyricsText s) (songTitle s) (artistName s)
    (audioFile s) (backgroundImages s) (timedLyrics s) (timedLyricsFromSrt s)
    (false, []) (isAiUnlocked s).

(** A vendor whose text request rejects, and one that answers every
    request. *)
Definition vendorDown : Gemini.Vendor :=
  {| Gemini.askPrompts := λ _ _ _ _, inl (Gemini.VendorError (Js.lit "offline"));
     Gemini.askImage := λ _, inl (Gemini.VendorError (Js.lit "offline")) |}.
Definition vendorUp : Gemini.Vendor :=
  {| Gemini.askPrompts := λ _ _ _ _, inr (Some [Js.lit "rain"; Js.lit "sun"]);
     Gemini.askImage := λ p, inr (Some (Js.lit "image/png", p)) |}.

(** What it means for [handler], which receives the answer of the
    password dialog, to gate [action] behind the password [pw]. *)
Definition gates (pw : Js.str) (action : M unit)
    (handler : option Js.str → M unit) : Prop :=
  ∀ (answer : option Js.str) (s : state),
    let r := handler answer s in
    (* the action runs exactly when unlocked or the password is right *)
    (invoked (effects r) ↔ isAiUnlocked s = true ∨ answer = Some pw) ∧
    (* unlocked: the action runs at once, nothing is asked *)
    (isAiUnlocked s = true →
       finalState r = finalState (action s) ∧
       effects r = [Invoke (effects (action s))]) ∧
    (* right password: confirmation, the flag is set, then the action *)
    (isAiUnlocked s = false → answer = Some pw →
       ∃ s1, finalState (setIsAiUnlocked true s) = s1 ∧
             isAiUnlocked s1 = true ∧
             finalState r = finalState (action s1) ∧
             effects r = [PromptPassword; Alert PasswordCorrect;
                          Invoke (effects (action s1))]) ∧
    (* wrong password: an error alert, nothing else *)
    (isAiUnlocked s = false → answer ≠ Some pw → answer ≠ None →
       finalState r = s ∧ effects r = [PromptPassword; Alert PasswordWrong]) ∧
    (* cancelled dialog: nothing changes, no alert *)
    (isAiUnlocked s = false → answer = None →
       finalState r = s ∧ effects r = [PromptPassword] ∧
       ¬ alerted (effects r)).

End app_handlers_notions.

Section srt_parser_notions.
Import Js Srt.

(** The line is made of white space only (it may be empty). *)
Definition blank (line : str) : Prop := Forall (λ c, isWhiteSpace c = true) line.

End srt_parser_notions.

Section srt_roundtrip_notions.
Import Js Srt VideoPlayer.

(** Two and three digit numbers. *)
Definition digit (z : Z) : N := (zero + Z.to_N z)%N.
Definition two (z : Z) : str := [digit (z / 10); digit (z mod 10)].
Definition three (z : Z) : str :=
  [digit (z / 100); digit (z / 10 mod 10); digit (z mod 10)].

(** The time stamp of [k] milliseconds. *)
Definition stampOf (k : Z) : str :=
  two (k / 3600000) ++ colon :: two (k mod 3600000 / 60000) ++ colon ::
  two (k mod 60000 / 1000) ++ comma :: three (k mod 1000).

(** A time stamp with the given digits. *)
Definition stampChars (a b c d e f g h i : N) : str :=
  [a; b; colon; c; d; colon; e; f; comma; g; h; i].

(** The numbers a time stamp denotes. *)
Definition pair10 (a b : N) : Z := (Z.of_N a - 48) * 10 + (Z.of_N b - 48).
Definition triple10 (a b c : N) : Z :=
  ((Z.of_N a - 48) * 10 + (Z.of_N b - 48)) * 10 + (Z.of_N c - 48).

(** After every LF of the string come white space without LF and then a
    character that is not white space: [/\n\s*\n/] matches nowhere, also
    when more text follows the string. *)
Definition clean (s : str) : Prop :=
  ∀ pre t, s = pre ++ LF :: t →
    ∃ w c t', t = w ++ c :: t' ∧
      Forall (λ x, isWhiteSpace x = true ∧ x ≠ LF) w ∧ isWhiteSpace c = false.

(** Blocks joined by one empty line. *)
Fixpoint joinBlocks (bs : list str) : str :=
  match bs with
  | [] => []
  | [b] => b
  | b :: bs' => b ++ LF :: LF :: joinBlocks bs'
  end.

(** A block as [splitSep] must find it: free of separators and starting
    with a character that is not white space. *)
Definition solid (b : str) : Prop :=
  clean b ∧ ∃ c b', b = c :: b' ∧ isWhiteSpace c = false.

(** [t] is a whole number of milliseconds, from 0 and below 100 hours:
    the Number of [k / 1000], as a program writes [1.118]. *)
Definition wholeMillis (t : Q) : Prop :=
  ∃ k : Z, 0 ≤ k < 360000000 ∧ t == fl (k # 1000).

(** [t] denotes the millisecond [k]: it is [k / 1000] up to [2^-33]
    seconds, and exactly so on a whole second. *)
Definition nearMillis (t : Q) (k : Z) : Prop :=
  (Qabs (t - (k # 1000)) <= pow2 (-33))%Q ∧ (k mod 1000 = 0 → t == k # 1000).

(** A lyric that survives the export to SRT. *)
Definition exportable (x : TimedLyric) : Prop :=
  text x ≠ [] ∧ trim (text x) = text x ∧
  includes [CR; LF] (text x) = false ∧
  Forall (λ line, ¬ blank line) (splitOn LF (text x)) ∧
  wholeMillis (startTime x) ∧ wholeMillis (endTime x).

(** Equality of lyrics, the times compared as numbers. *)
Definition sameLyric (a b : TimedLyric) : Prop :=
  text a = text b ∧ startTime a == startTime b ∧ endTime a == endTime b.

(** Two times agree: they differ by [2^-33] seconds at most and are
    written as the same time stamp. *)
Definition timesAgree (t t' : Q) : Prop :=
  (Qabs (t - t') <= pow2 (-33))%Q ∧ formatSrtTime t = formatSrtTime t'.

(** Two lyrics agree: the same text, and times that agree. *)
Definition lyricsAgree (a b : TimedLyric) : Prop :=
  text a = text b ∧ timesAgree (startTime a) (startTime b) ∧
  timesAgree (endTime a) (endTime b).

(** The block of a lyric: its entry without the final empty line. *)
Definition srtBlock (index : nat) (lyric : TimedLyric) : str :=
  natToString (N.of_nat (index + 1)) ++ LF ::
  (formatSrtTime (startTime lyric) ++ lit " --> " ++ formatSrtTime (endTime lyric))
  ++ LF :: text lyric.

(** The blocks of a list of lyrics, numbered from [index]. *)
Fixpoint srtBlocks (index : nat) (l : list TimedLyric) : list str :=
  match l with
  | [] => []
  | x :: l' => srtBlock index x :: srtBlocks (S index) l'
  end.

(** The characters of an index line and of a time line are neither LF
    nor CR. *)
Definition plain (c : N) : Prop := c ≠ LF ∧ c ≠ CR.

(** The time line of a block. *)
Definition timeLine (k1 k2 : Z) : str := stampOf k1 ++ lit " --> " ++ stampOf k2.

(** The conditions under which the round trip is stated: the text is
    not empty, has no white space at either end, no CR LF pair, no blank
    line and no line containing [-->]; both times are the Numbers of
    whole milliseconds below 100 hours. *)
Definition roundTrips (x : TimedLyric) : Prop :=
  exportable x ∧
  Forall (λ line, includes (lit "-->") line = false) (splitOn LF (text x)).

(** The same without the two conditions on white space at the ends and
    on CR LF pairs. *)
Definition roundTripsAsStated (x : TimedLyric) : Prop :=
  text x ≠ [] ∧
  Forall (λ line, ¬ blank line) (splitOn LF (text x)) ∧
  Forall (λ line, includes (lit "-->") line = false) (splitOn LF (text x)) ∧
  wholeMillis (startTime x) ∧ wholeMillis (endTime x).

End srt_roundtrip_notions.

(** The lyrics follow one another in time: no lyric ends before it starts,
    and a lyric starts only when the ones before it have ended. *)
Definition wellTimed (tl : list TimedLyric) : Prop :=
  (∀ i x, tl !! i = Some x → (startTime x <= endTime x)%Q) ∧
  (∀ i j x y, (i < j)%nat → tl !! i = Some x → tl !! j = Some y →
     (endTime x <= startTime y)%Q).

Section export_notions.
Import VideoPlayer.

(** The offset [drawFrame] moves the lyric list towards when the line
    [idx] is the current one. *)
Definition targetTranslateY (p : Player) (x : Session) (idx : Z) : Q :=
  let lineHeight := lyricLineHeight p x in
  let center :=
    match aspectRatio p with
    | R16_9 => (canvasHeight x / 2)%Q
    | _ => (canvasHeight x * (1 # 2) + canvasHeight x * (1 # 2) / 2)%Q
    end in
  (center - inject_Z idx * lineHeight - lineHeight / 2)%Q.

(** An export is under way: the session [x] records the playing audio,
    of duration [d], its frame callback is requested and the export is
    not cancelled. *)
Definition recording (p : Player) (x : Session) (d : Q) : Prop :=
  session p = Some x ∧ frameRequested x = true ∧ isRecording x = true ∧
  isExportCancelled p = false ∧ duration (audio p) = Some d ∧
  paused (audio p) = false.

(** The audio plays on to the time [t], and a frame is drawn. *)
Definition frameAt (t : Q) : list event := [AudioAdvances t; AnimationFrame].

(** What holds of a frame drawn for the player [p]: its background image
    is one of the images, and its current line, not the first, is one of
    the lines drawn when there are lyrics. *)
Definition frameInRange (p : Player) (f : Frame) : Prop :=
  0 ≤ frameBg f < Z.of_nat (length (imageUrls (props p))) ∧
  1 ≤ frameIndex f ≤ Z.of_nat (length (timedLyrics (props p))) + 2 ∧
  (timedLyrics (props p) ≠ [] →
   is_Some (frameLines f !! Z.to_nat (frameIndex f))).

(** The export is at a stage named [RecordingVideo], with a percentage
    from [0] to below [100]. *)
Definition progressInRange (p : Player) : Prop :=
  ∃ pr, exportProgress p = Some (RecordingVideo, Some pr) ∧
        (0 <= pr)%Q ∧ (pr < 100)%Q.

(** The file extension of the recording. *)
Definition videoExtension (x : Session) : Js.str :=
  if mp4 x then Js.lit "mp4" else Js.lit "webm".
End export_notions.

Section srt_more_notions.
Import Js.

(** The text with Windows line ends: CR LF for every LF. *)
Definition toCrlf (s : str) : str :=
  s ≫= λ c, if (c =? LF)%N then [CR; LF] else [c].

(** The value of a time stamp: a whole number of milliseconds from [0]
    to [99:99:99,999], up to [2^-33] seconds. *)
Definition stampValue (q : Q) : Prop :=
  ∃ k : Z, 0 ≤ k ≤ 362439999 ∧ (Qabs (q - (k # 1000)) <= pow2 (-33))%Q.
End srt_more_notions.

Section app_flow_notions.
Import App.

(** A lyric as [parseSrt] returns them: a trimmed text that is not
    empty. *)
Definition parsedLyric (x : TimedLyric) : Prop :=
  text x ≠ [] ∧ Js.trim (text x) = text x.

(** The lyrics kept from an SRT file or from the timing service, when
    there are some, are at least one parsed lyric. *)
Definition fromSrtParsed (s : state) : Prop :=
  ∀ l, timedLyricsFromSrt s = Some l → l ≠ [] ∧ Forall parsedLyric l.

(** The fields [handleStart] needs besides the lyrics. *)
Definition songChosen (s : state) : Prop :=
  audioFile s ≠ None ∧ songTitle s ≠ [] ∧ artistName s ≠ [].
End app_flow_notions.

Section gemini_notions.
Import Gemini.

(** [image] is the data URL made from the vendor's answer to [prompt]. *)
Definition imageOf (ai : Vendor) (prompt image : Js.str) : Prop :=
  ∃ mimeType base64ImageBytes,
    askImage ai prompt = inr (Some (mimeType, base64ImageBytes)) ∧
    image = Js.lit "data:" ++ mimeType ++ Js.lit ";base64," ++ base64ImageBytes.
End gemini_notions.

(** ** Part II. Properties *)

(** *** The lyric index of the preview and of the export loop *)

(** Comparisons of concrete rationals. *)
Ltac q_cmp := unfold Qle, Qlt, Qeq; simpl; lia.

Lemma ge_spec x y : Js.ge x y = true ↔ (y <= x)%Q.
Proof. apply Qle_bool_iff. Qed.

Lemma lt_spec x y : Js.lt x y = true ↔ (x < y)%Q.
Proof.
  unfold Js.lt. rewrite negb_true_iff, <- not_true_iff_false, Qle_bool_iff.
  split; [apply Qnot_le_lt | apply Qlt_not_le].
Qed.

Lemma isActive_spec t x : VideoPlayer.isActive t x = true ↔ activeAt t x.
Proof.
  unfold VideoPlayer.isActive, activeAt.
  by rewrite andb_true_iff, ge_spec, lt_spec.
Qed.

Lemma isActive_false t x : VideoPlayer.isActive t x = false ↔ ¬ activeAt t x.
Proof. by rewrite <- isActive_spec, not_true_iff_false. Qed.

Lemma findIndex_from_first {A} (p : A → bool) l k (i : nat) x :
  l !! i = Some x → p x = true →
  (∀ j y, (j < i)%nat → l !! j = Some y → p y = false) →
  Js.findIndex_from p l k = k + Z.of_nat i.
Proof.
  revert k i. induction l as [|a l IH]; intros k i Hi Hp Hfirst; [done|].
  destruct i as [|i]; simpl in *.
  - simplify_eq. rewrite Hp. lia.
  - rewrite (Hfirst 0%nat a) by (done || lia).
    rewrite (IH (k + 1) i); [lia | done | done |].
    intros j y Hj Hy. apply (Hfirst (S j) y); [lia | done].
Qed.

Lemma findIndex_from_range {A} (p : A → bool) l k :
  0 ≤ k →
  (Js.findIndex_from p l k = -1 ∧ Forall (λ x, p x = false) l) ∨
  (∃ (i : nat) x, Js.findIndex_from p l k = k + Z.of_nat i ∧
      l !! i = Some x ∧ p x = true).
Proof.
  revert k. induction l as [|a l IH]; intros k Hk; simpl.
  - left. by split.
  - destruct (p a) eqn:Hpa.
    + right. exists 0%nat, a. repeat split; [lia | done].
    + destruct (IH (k + 1)) as [[-> Hall] | (i & x & -> & Hi & Hx)]; [lia | |].
      * left. split; [done | by constructor].
      * right. exists (S i), x. repeat split; [lia | done | done].
Qed.

(** The loop result is [-1] or the index of a lyric that has ended, all
    lyrics before it have ended too, and the next one, if any, has not. *)
Lemma lastPassedLoop_spec t l i acc :
  VideoPlayer.lastPassedLoop t l i acc = acc ∧
    (∀ y, head l = Some y → Js.ge t (endTime y) = false)
  ∨ ∃ (k : nat), (k < length l)%nat ∧
      VideoPlayer.lastPassedLoop t l i acc = i + Z.of_nat k ∧
      (∀ y, l !! S k = Some y → Js.ge t (endTime y) = false).
Proof.
  revert i acc. induction l as [|a l IH]; intros i acc; simpl.
  - left. split; [done | by intros y [=]].
  - destruct (Js.ge t (endTime a)) eqn:Ha.
    + right. destruct (IH (i + 1) i) as [[-> Hhd] | (k & Hk & -> & Hnext)].
      * exists 0%nat. repeat split; [lia | lia |].
        intros y Hy. apply Hhd. by destruct l.
      * exists (S k). repeat split; [lia | lia | done].
    + left. split; [done | by intros y [= <-]].
Qed.

Lemma lyricsToRender_lookup tl (i : nat) x :
  tl !! i = Some x → VideoPlayer.lyricsToRender tl !! (i + 2)%nat = Some x.
Proof.
  intros Hi. destruct tl as [|a tl]; [done|].
  unfold VideoPlayer.lyricsToRender.
  replace (i + 2)%nat with (S (S i)) by lia. simpl.
  destruct i as [|i]; simpl in *; [done|].
  by rewrite lookup_app_l by (by eapply lookup_lt_Some).
Qed.

(** C1, as amended: once playback has started (the time is not [0], or
    the audio is playing), if [i] is the first index whose interval
    [startTime <= t < endTime] contains the playback time, the preview's
    current index is [i + 2] and the padded render list holds
    [timedLyrics[i]] at that position; a time equal to a lyric's end time
    never makes that lyric the current one; before playback starts the
    index is [1]. *)
Theorem currentIndex_first_active (tl : list TimedLyric) (t : Q)
    (playing : bool) :
  (∀ (i : nat) x, ¬ (t == 0 ∧ playing = false) → firstActive t tl i x →
     VideoPlayer.currentIndex t playing tl = Z.of_nat i + 2 ∧
     VideoPlayer.lyricsToRender tl !! (i + 2)%nat = Some x) ∧
  (∀ (j : nat) y, tl !! j = Some y → t == endTime y →
     VideoPlayer.currentIndex t playing tl ≠ Z.of_nat j + 2) ∧
  (t == 0 → playing = false → VideoPlayer.currentIndex t playing tl = 1).
Proof.
  split; [|split].
  - intros i x Hstart (Hi & Hact & Hfirst). split.
    + unfold VideoPlayer.currentIndex.
      destruct (Qeq_bool t 0 && negb playing) eqn:Hguard.
      { apply andb_true_iff in Hguard as [Ht Hp].
        apply Qeq_bool_iff in Ht. apply negb_true_iff in Hp. tauto. }
      unfold Js.findIndex.
      rewrite (findIndex_from_first _ tl 0 i x); [| done | by apply isActive_spec |].
      * destruct (Z.eqb_spec (0 + Z.of_nat i) (-1)); [lia | simpl; lia].
      * intros j y Hj Hy. apply isActive_false. eauto.
    + by apply lyricsToRender_lookup.
  - intros j y Hj Hend. unfold VideoPlayer.currentIndex.
    destruct (Qeq_bool t 0 && negb playing); [lia|].
    unfold Js.findIndex.
    destruct (findIndex_from_range (VideoPlayer.isActive t) tl 0)
      as [[-> Hnone] | (i & x & -> & Hi & Hx)]; [lia | |]; simpl.
    + unfold VideoPlayer.afterLast.
      pose proof (lookup_lt_Some _ _ _ Hj) as Hlen.
      destruct (last tl) as [z|] eqn:Hlast.
      * destruct (Js.ge t (endTime z)); [lia|].
        destruct (lastPassedLoop_spec t tl 0 (-1))
          as [[-> _] | (k & Hk & -> & Hnext)]; simpl; [lia|].
        destruct (Z.eqb_spec (0 + Z.of_nat k) (-1)); simpl; [lia|].
        intros Heq. assert (j = S k) as -> by lia.
        specialize (Hnext y Hj).
        apply not_true_iff_false in Hnext. apply Hnext, ge_spec.
        rewrite Hend. apply Qle_refl.
      * apply last_None in Hlast. by subst.
    + destruct (Z.eqb_spec (0 + Z.of_nat i) (-1)); simpl; [lia|].
      intros Heq. assert (i = j) as -> by lia. simplify_eq.
      apply isActive_spec in Hx as [_ Hlt].
      rewrite Hend in Hlt. by apply Qlt_irrefl in Hlt.
  - intros Ht ->. unfold VideoPlayer.currentIndex.
    apply Qeq_bool_iff in Ht. by rewrite Ht.
Qed.

(** Before playback starts the first active lyric is not selected:
    paused at time [0] with a lyric that starts at [0], index [0] is the
    first active one, yet the current index is [1]. *)
Lemma currentIndex_paused_at_zero :
  let a := mkLyric (Js.lit "a") 0 5 in
  firstActive 0 [a] 0 a ∧
  VideoPlayer.currentIndex 0 false [a] = 1 ∧
  VideoPlayer.currentIndex 0 false [a] ≠ Z.of_nat 0 + 2.
Proof.
  split; [|split]; [| reflexivity | intros H; discriminate H].
  split; [reflexivity|]. split; [split; q_cmp|].
  intros j y Hj. lia.
Qed.

Lemma currentIndex_first_active_witness :
  let a := mkLyric (Js.lit "a") 0 5 in
  let b := mkLyric (Js.lit "b") 5 8 in
  (VideoPlayer.currentIndex 6 true [a; b] = 3 ∧
   VideoPlayer.lyricsToRender [a; b] !! 3%nat = Some b) ∧
  VideoPlayer.currentIndex 5 true [a; b] ≠ 2 ∧
  VideoPlayer.currentIndex 0 false [a; b] = 1.
Proof.
  intros a b.
  destruct (currentIndex_first_active [a; b] 6 true) as (H1 & _ & _).
  destruct (currentIndex_first_active [a; b] 5 true) as (_ & H2 & _).
  destruct (currentIndex_first_active [a; b] 0 false) as (_ & _ & H3).
  split; [|split].
  - apply (H1 1%nat b).
    + intros [H _]. discriminate H.
    + split; [reflexivity|]. split; [split; q_cmp|].
      intros j y Hj Hy. assert (j = 0%nat) as -> by lia.
      injection Hy as <-. intros [_ H]. revert H. q_cmp.
  - apply (H2 0%nat a); [reflexivity | q_cmp].
  - apply H3; [q_cmp | reflexivity].
Defined.

(** Outside the gaps between lyrics the export loop computes the index of
    the preview. *)
Lemma canvasCurrentIndex_outside_gaps tl t playing :
  ¬ (t == 0 ∧ playing = false) →
  VideoPlayer.lastPassedLoop t tl 0 (-1) = -1 →
  VideoPlayer.canvasCurrentIndex t tl = VideoPlayer.currentIndex t playing tl.
Proof.
  intros Hstart Hgap. unfold VideoPlayer.canvasCurrentIndex, VideoPlayer.currentIndex.
  destruct (Qeq_bool t 0 && negb playing) eqn:Hguard.
  { apply andb_true_iff in Hguard as [Ht Hp].
    apply Qeq_bool_iff in Ht. apply negb_true_iff in Hp. tauto. }
  by rewrite Hgap.
Qed.

(** In a gap (no lyric is active, the last one has not ended, and at
    least the first one has) the preview points at the lyric after the
    last one that ended, and the export loop at the first dummy line. *)
Lemma canvasCurrentIndex_in_gaps tl t playing :
  ¬ (t == 0 ∧ playing = false) →
  Js.findIndex (VideoPlayer.isActive t) tl = -1 →
  VideoPlayer.afterLast t tl = false →
  VideoPlayer.lastPassedLoop t tl 0 (-1) ≠ -1 →
  VideoPlayer.canvasCurrentIndex t tl = 1 ∧
  VideoPlayer.currentIndex t playing tl
    = VideoPlayer.lastPassedLoop t tl 0 (-1) + 3 ∧
  VideoPlayer.currentIndex t playing tl ≠ VideoPlayer.canvasCurrentIndex t tl.
Proof.
  intros Hstart Hnone Hlast Hgap.
  unfold VideoPlayer.canvasCurrentIndex, VideoPlayer.currentIndex.
  destruct (Qeq_bool t 0 && negb playing) eqn:Hguard.
  { apply andb_true_iff in Hguard as [Ht Hp].
    apply Qeq_bool_iff in Ht. apply negb_true_iff in Hp. tauto. }
  rewrite Hnone, Hlast. simpl.
  destruct (Z.eqb_spec (VideoPlayer.lastPassedLoop t tl 0 (-1)) (-1)); [done|].
  simpl. split; [done|]. split; [lia|].
  destruct (lastPassedLoop_spec t tl 0 (-1)) as [[-> _] | (k & _ & -> & _)]; lia.
Qed.

(** C2: in a gap between two lyrics the index computed by [drawFrame]
    differs from the one of the preview.  With lyrics on [0, 1) and
    [2, 3) and the audio playing at time [3/2], the preview's
    [currentIndex] is [3] (the gap branch, [lastPassedIndex + 3]) while
    [canvasCurrentIndex] falls through to [1]. *)
Theorem canvasCurrentIndex_differs_in_gap :
  let tl := [mkLyric (Js.lit "a") 0 1; mkLyric (Js.lit "b") 2 3] in
  (0 < 3 # 2)%Q ∧
  VideoPlayer.currentIndex (3 # 2) true tl = 3 ∧
  VideoPlayer.canvasCurrentIndex (3 # 2) tl = 1.
Proof. repeat split. Qed.

(** *** The background-image index *)

Lemma imageSwitchInterval_pos d (n : nat) :
  (0 < d)%Q → (0 < VideoPlayer.imageSwitchInterval (Some d) n)%Q.
Proof.
  intros Hd. unfold VideoPlayer.imageSwitchInterval, VideoPlayer.durationValue.
  apply Qlt_shift_div_l.
  - destruct (n =? 0)%nat eqn:E; [q_cmp|].
    apply Nat.eqb_neq in E. unfold Qlt. simpl. lia.
  - rewrite Qmult_0_l. destruct (Qeq_bool d 0); [q_cmp | done].
Qed.

Lemma bgIndexAt_bounds t d (n : nat) :
  (0 < n)%nat → (0 <= t)%Q → (0 < d)%Q →
  0 ≤ VideoPlayer.bgIndexAt t (Some d) n ≤ Z.of_nat n - 1.
Proof.
  intros Hn Ht Hd. unfold VideoPlayer.bgIndexAt.
  assert (0 ≤ Qfloor (t / VideoPlayer.imageSwitchInterval (Some d) n)).
  { change 0 with (Qfloor 0). apply Qfloor_resp_le.
    apply Qle_shift_div_l; [by apply imageSwitchInterval_pos|].
    by rewrite Qmult_0_l. }
  lia.
Qed.

(** C10: with at least one image, a non-negative playback time and a
    positive audio duration, the background index of the preview
    ([newIndex], and the [bgIndex] state the effect leaves) and the
    per-frame index of the export loop ([currentBgIndex]) lie between [0]
    and [n - 1], so [imageUrls[index]] and [loadedImages[index]] exist. *)
Theorem bgIndex_in_bounds (imageUrls : list Js.str) (t d : Q)
    (playing : bool) (bgIndex : Z) :
  imageUrls ≠ [] → (0 <= t)%Q → (0 < d)%Q →
  let n := length imageUrls in
  (0 ≤ VideoPlayer.newIndex t (Some d) n ≤ Z.of_nat n - 1 ∧
   is_Some (Js.at_ imageUrls (VideoPlayer.newIndex t (Some d) n))) ∧
  (0 ≤ VideoPlayer.currentBgIndex t (Some d) n ≤ Z.of_nat n - 1 ∧
   is_Some (Js.at_ imageUrls (VideoPlayer.currentBgIndex t (Some d) n))) ∧
  (0 ≤ bgIndex ≤ Z.of_nat n - 1 →
   0 ≤ VideoPlayer.bgEffect t playing (Some d) n bgIndex ≤ Z.of_nat n - 1).
Proof.
  intros Hne Ht Hd n.
  assert (0 < n)%nat as Hn by (subst n; destruct imageUrls; [done | simpl; lia]).
  pose proof (bgIndexAt_bounds t d n Hn Ht Hd) as Hb.
  assert (is_Some (Js.at_ imageUrls (VideoPlayer.bgIndexAt t (Some d) n))) as Hs.
  { unfold Js.at_. rewrite decide_True by lia.
    apply lookup_lt_is_Some. subst n. lia. }
  repeat split; try (apply Hb); try done.
  - unfold VideoPlayer.bgEffect.
    destruct ((1 <? n)%nat && playing); [|lia].
    destruct (negb _); [apply Hb | lia].
  - unfold VideoPlayer.bgEffect.
    destruct ((1 <? n)%nat && playing); [|lia].
    destruct (negb _); [apply Hb | lia].
Qed.

Lemma bgIndex_in_bounds_witness :
  let imgs := [Js.lit "a.png"; Js.lit "b.png"; Js.lit "c.png"] in
  (0 ≤ VideoPlayer.newIndex 7 (Some 9%Q) 3 ≤ 2 ∧
   is_Some (Js.at_ imgs (VideoPlayer.newIndex 7 (Some 9%Q) 3))) ∧
  (0 ≤ VideoPlayer.currentBgIndex 7 (Some 9%Q) 3 ≤ 2 ∧
   is_Some (Js.at_ imgs (VideoPlayer.currentBgIndex 7 (Some 9%Q) 3))) ∧
  (0 ≤ 0 ≤ 2 → 0 ≤ VideoPlayer.bgEffect 7 true (Some 9%Q) 3 0 ≤ 2).
Proof.
  intros imgs.
  apply (bgIndex_in_bounds imgs 7 9 true 0); [discriminate | q_cmp | q_cmp].
Defined.

(** *** The preview/export session *)

Section player_session.
Import VideoPlayer.

(** Unfolding the handlers down to the record they build. *)
Ltac unfold_handlers :=
  unfold handle, handlePlayPause, handleTimelineChange, timeUpdateHandler,
    endedHandler, onLoadedMetadata, backgroundEffect, handleExportSrt,
    handleCancelExport, handleExportVideo, exportFailed, ondataavailable, onstop,
    drawFrame,
    getCanvasDimensions in *.

Lemma handle_props (e : event) (p : Player) : props (handle e p) = props p.
Proof.
  destruct e; unfold_handlers; repeat (simpl; case_match); reflexivity.
Qed.

Lemma run_props (es : list event) (p : Player) : props (run es p) = props p.
Proof.
  revert p. induction es as [|e es IH]; intros p; [done|].
  simpl. unfold run in IH. by rewrite IH, handle_props.
Qed.

Lemma run_app (es1 es2 : list event) (p : Player) :
  run (es1 ++ es2) p = run es2 (run es1 p).
Proof. apply fold_left_app. Qed.

Lemma handle_framesShowLyrics (e : event) (p : Player) :
  framesShowLyrics p → framesShowLyrics (handle e p).
Proof.
  intros Hok x' Hx'. rewrite handle_props.
  destruct e; unfold_handlers;
    repeat (simpl in *; case_match); simpl in *; simplify_eq; simpl;
    try (by apply Hok); try (by constructor);
    (apply Forall_app; split; [by apply Hok | by repeat constructor]).
Qed.

Lemma run_framesShowLyrics (es : list event) (p : Player) :
  framesShowLyrics p → framesShowLyrics (run es p).
Proof.
  revert p. induction es as [|e es IH]; intros p Hp; [done|].
  simpl. apply IH. by apply handle_framesShowLyrics.
Qed.

(** C8: whatever the events of a session are (play/pause, seeking, time
    updates, background switches, settings, SRT export, video export with
    its frames, cancellation), the timed lyrics the component holds after
    them are the ones it received; an SRT export at any point writes the
    content generated from the original sequence, and the frames of a
    video export show the padded original sequence. *)
Theorem timedLyrics_unchanged (es : list event) (p : Player) :
  timedLyrics (props (run es p)) = timedLyrics (props p) ∧
  last (downloads (run (es ++ [ExportSrt]) p))
    = Some (SrtFile (fileName p (Js.lit "srt"))
              (generateSrtContent (timedLyrics (props p)))) ∧
  (framesShowLyrics p → framesShowLyrics (run es p)).
Proof.
  split; [|split].
  - by rewrite run_props.
  - rewrite run_app. simpl. unfold handleExportSrt, fileName. simpl.
    rewrite last_snoc, run_props. done.
  - apply run_framesShowLyrics.
Qed.

Lemma timedLyrics_unchanged_witness :
  let lyrics := [mkLyric (Js.lit "la") 0 1] in
  let p := mkPlayer (mkProps lyrics [Js.lit "a.png"] (Js.lit "S") (Js.lit "A"))
             false 0 None 0 48 R16_9 P720 false (mkAudio 0 true (Some 9%Q))
             None [] [] in
  framesShowLyrics (run [ExportVideo true true true Started; AnimationFrame] p).
Proof.
  intros lyrics p.
  apply (timedLyrics_unchanged [ExportVideo true true true Started; AnimationFrame] p).
  intros x Hx. discriminate Hx.
Defined.

Lemma handle_keeps_cancelled (e : event) (p : Player) :
  startsExport e = false → isExportCancelled p = true →
  isExportCancelled (handle e p) = true.
Proof.
  intros He Hp. destruct e; try discriminate He;
    unfold_handlers; repeat (simpl; case_match); done.
Qed.

Lemma run_keeps_cancelled (es : list event) (p : Player) :
  Forall (λ e, startsExport e = false) es → isExportCancelled p = true →
  isExportCancelled (run es p) = true.
Proof.
  revert p. induction es as [|e es IH]; intros p Hes Hp; [done|].
  apply Forall_cons in Hes as [He Hes]. simpl.
  apply IH; [done|]. by apply handle_keeps_cancelled.
Qed.

(** A frame callback that finds the cancel flag set draws nothing, stops
    the recorder if it records, and requests no further frame. *)
Lemma drawFrame_cancelled (p : Player) (x : Session) :
  session p = Some x → frameRequested x = true → isRecording x = true →
  isExportCancelled p = true →
  ∃ x', session (drawFrame p) = Some x' ∧
        recorder x' = Inactive ∧ stopEventPending x' = true ∧
        frameRequested x' = false ∧ frames x' = frames x.
Proof.
  intros Hx Hreq Hrec Hc. unfold drawFrame. rewrite Hx, Hreq, Hrec, Hc.
  rewrite orb_true_r. simpl. eexists. by repeat split.
Qed.

(** C4: once the cancel flag is set, and as long as no new export is
    started, the stop handler of the recorder produces no file (the
    downloads are those before it ran), stops every track of the combined
    stream, closes the audio context and clears the export progress. *)
Theorem cancelled_export_is_discarded (p : Player) (es : list event)
    (x : Session) :
  isExportCancelled p = true →
  Forall (λ e, startsExport e = false) es →
  session (run es p) = Some x →
  stopEventPending x = true →
  let q := run es p in
  let q' := handle RecorderStopped q in
  q' = onstop q ∧
  downloads q' = downloads q ∧
  (∃ x', session q' = Some x' ∧
         length (tracksLive x') = length (tracksLive x) ∧
         Forall (λ live, live = false) (tracksLive x') ∧
         audioContextClosed x' = true) ∧
  exportProgress q' = None.
Proof.
  intros Hc Hes Hx Hpending q q'.
  pose proof (run_keeps_cancelled es p Hes Hc) as Hq. fold q in Hx, Hq.
  subst q'. simpl. rewrite Hx, Hpending.
  split; [done|]. unfold onstop. rewrite Hx, Hq. simpl.
  split; [|split].
  - by destruct (wasPlaying x).
  - eexists. split; [by destruct (wasPlaying x)|]. simpl.
    split; [by rewrite length_fmap|]. split; [|done].
    apply Forall_fmap. by apply Forall_true.
  - by destruct (wasPlaying x).
Qed.

Lemma cancelled_export_is_discarded_witness :
  let lyrics := [mkLyric (Js.lit "la") 0 1] in
  let p0 := mkPlayer (mkProps lyrics [Js.lit "a.png"] (Js.lit "S") (Js.lit "A"))
              false 0 None 0 48 R16_9 P720 false (mkAudio 0 true (Some 9%Q))
              None [] [] in
  let p := run [ExportVideo true true true Started; AnimationFrame;
                DataAvailable (Js.lit "chunk"); CancelExport] p0 in
  let q := run [AnimationFrame] p in
  downloads (handle RecorderStopped q) = [] ∧
  exportProgress (handle RecorderStopped q) = None.
Proof.
  intros lyrics p0 p q.
  assert (∃ x, session q = Some x ∧ stopEventPending x = true)
    as (x & Hx & Hpending).
  { eexists. split; vm_compute; reflexivity. }
  destruct (cancelled_export_is_discarded p [AnimationFrame] x)
    as (_ & Hd & _ & Hp).
  - vm_compute. reflexivity.
  - repeat constructor.
  - exact Hx.
  - exact Hpending.
  - split; [exact Hd | exact Hp].
Defined.

End player_session.

(** *** The form screen *)

Section app_handlers.
Import App.

(** Running the first step of a handler. *)
Ltac run_get := cbv beta iota zeta delta [mbind M_bind get].
Ltac run_all :=
  cbv beta iota zeta delta
    [mbind M_bind mret M_ret get modify emit call setAppState setTimedLyrics
     setBackgroundImages setIsLoading setIsAiUnlocked]; simpl.

(** Membership in an explicit list of effects. *)
Ltac mem_solve := repeat (apply elem_of_cons; ((by left) || right)).
Ltac mem_absurd H :=
  repeat (apply elem_of_cons in H as [H|H]; [discriminate H|]);
  by apply elem_of_nil in H.

Lemma falsy_spec x : falsy x = true ↔ x = [].
Proof. unfold falsy. apply bool_decide_eq_true. Qed.

Lemma formIncomplete_spec s :
  falsy (lyricsText s) || bool_decide (audioFile s = None)
    || falsy (songTitle s) || falsy (artistName s) = true
  ↔ formIncomplete s.
Proof.
  unfold formIncomplete.
  rewrite !orb_true_iff, !falsy_spec, bool_decide_eq_true. tauto.
Qed.

(** C7: a submission with a missing field shows an alert and leaves the
    state as it is; a complete one moves to PREVIEW with the timed lyrics
    taken from the SRT list when that list is present, and to TIMING with
    the timed lyrics unchanged when it is absent. *)
Theorem handleStart_transition (s : state) :
  let r := handleStart s in
  (formIncomplete s →
     finalState r = s ∧ effects r = [Alert FillAllFields]) ∧
  (¬ formIncomplete s → ∀ fromSrt, timedLyricsFromSrt s = Some fromSrt →
     appState (finalState r) = PREVIEW ∧
     timedLyrics (finalState r) = fromSrt ∧ effects r = []) ∧
  (¬ formIncomplete s → timedLyricsFromSrt s = None →
     appState (finalState r) = TIMING ∧
     timedLyrics (finalState r) = timedLyrics s ∧ effects r = []).
Proof.
  intros r. subst r. unfold handleStart, finalState, effects.
  run_get.
  destruct (falsy (lyricsText s) || bool_decide (audioFile s = None)
            || falsy (songTitle s) || falsy (artistName s)) eqn:E.
  - apply formIncomplete_spec in E.
    split; [by intros _ | split; intros HE; tauto].
  - apply not_true_iff_false in E. rewrite formIncomplete_spec in E.
    split; [tauto|]. split.
    + intros _ fromSrt ->. by run_all.
    + intros _ ->. by run_all.
Qed.

Lemma handleStart_transition_witness :
  let tl := [mkLyric (Js.lit "la") 0 1] in
  let form fromSrt := mkState FORM (Js.lit "la") (Js.lit "Song") (Js.lit "Artist")
                        (Some (Js.lit "song.mp3")) [] [] fromSrt (false, []) false in
  let blank := mkState FORM [] [] [] None [] [] None (false, []) false in
  (finalState (handleStart blank) = blank ∧
   effects (handleStart blank) = [Alert FillAllFields]) ∧
  (appState (finalState (handleStart (form (Some tl)))) = PREVIEW ∧
   timedLyrics (finalState (handleStart (form (Some tl)))) = tl ∧
   effects (handleStart (form (Some tl))) = []) ∧
  (appState (finalState (handleStart (form None))) = TIMING ∧
   timedLyrics (finalState (handleStart (form None))) = [] ∧
   effects (handleStart (form None)) = []).
Proof.
  intros tl form blank.
  assert (¬ formIncomplete (form (Some tl))) as H1.
  { intros [H|[H|[H|H]]]; discriminate H. }
  assert (¬ formIncomplete (form None)) as H2.
  { intros [H|[H|[H|H]]]; discriminate H. }
  split; [|split].
  - apply (handleStart_transition blank). left. reflexivity.
  - apply (handleStart_transition (form (Some tl))); [exact H1 | reflexivity].
  - apply (handleStart_transition (form None)); [exact H2 | reflexivity].
Defined.

(** [Promise.all] keeps nothing of a batch in which one promise rejects,
    and returns one value per promise otherwise. *)
Lemma promiseAll_inl {A} (ps : list (Gemini.result A)) e :
  inl e ∈ ps → ∃ e', Gemini.promiseAll ps = inl e'.
Proof.
  induction ps as [|[e0|a] ps IH]; intros Hin.
  - by apply elem_of_nil in Hin.
  - by exists e0.
  - apply elem_of_cons in Hin as [?|Hin]; [done|].
    destruct (IH Hin) as [e' He']. exists e'. simpl. by rewrite He'.
Qed.

Lemma promiseAll_inr {A} (ps : list (Gemini.result A)) l :
  Gemini.promiseAll ps = inr l → ps = inr <$> l.
Proof.
  revert l. induction ps as [|[e0|a] ps IH]; intros l; simpl.
  - by intros [= <-].
  - done.
  - destruct (Gemini.promiseAll ps) as [e|l']; [done|].
    intros [= <-]. simpl. by rewrite (IH l').
Qed.

Lemma aiFieldsFilled_spec s :
  aiFieldsFilled s →
  falsy (lyricsText s) || falsy (songTitle s) || falsy (artistName s) = false.
Proof.
  intros (H1 & H2 & H3). apply not_true_iff_false.
  rewrite !orb_true_iff, !falsy_spec. tauto.
Qed.

Lemma aiFieldsFilled_dec s :
  falsy (lyricsText s) || falsy (songTitle s) || falsy (artistName s) = true
  ↔ ¬ aiFieldsFilled s.
Proof.
  unfold aiFieldsFilled. rewrite !orb_true_iff, !falsy_spec.
  destruct (decide (lyricsText s = [])), (decide (songTitle s = [])),
    (decide (artistName s = [])); tauto.
Qed.

(** C5: a run of the image generation that reaches the API calls it once.
    When the call rejects, the error is caught and logged, an alert is
    shown, and the state is the initial one with the loading indicator
    cleared: the image list is unchanged.  When it resolves, the images are
    appended after the existing ones, the indicator is cleared and no
    alert is shown.  (A run stopped by the field check makes no call.) *)
Theorem runAiImageGeneration_outcome (ai : Gemini.Vendor) (msg : Js.str)
    (s : state) :
  let outcome := Gemini.generateImagesForLyrics ai (lyricsText s)
                   (songTitle s) (artistName s) 4 in
  let called := CallGenerateImages (lyricsText s) (songTitle s) (artistName s) in
  let r := runAiImageGeneration ai msg s in
  (∀ e, aiFieldsFilled s → outcome = inl e →
     effects r = [called; ConsoleError; Alert AiImagesFailed] ∧
     finalState r = loadingCleared s ∧
     backgroundImages (finalState r) = backgroundImages s) ∧
  (∀ images, aiFieldsFilled s → outcome = inr images →
     effects r = [called] ∧
     backgroundImages (finalState r)
       = backgroundImages s ++ (ImgUrl <$> images) ∧
     isLoading (finalState r) = (false, [])) ∧
  (¬ aiFieldsFilled s →
     effects r = [Alert FillFieldsForAi] ∧ finalState r = s).
Proof.
  intros outcome called r. subst r outcome.
  unfold runAiImageGeneration, finalState, effects. run_get.
  destruct (falsy (lyricsText s) || falsy (songTitle s) || falsy (artistName s))
    eqn:E.
  - apply aiFieldsFilled_dec in E. repeat split; intros; tauto.
  - apply not_true_iff_false in E. rewrite aiFieldsFilled_dec in E.
    split; [|split].
    + intros e _ He. run_all. by rewrite He.
    + intros images _ He. run_all. by rewrite He.
    + tauto.
Qed.

Lemma runAiImageGeneration_outcome_witness :
  let s := mkState FORM (Js.lit "la") (Js.lit "Song") (Js.lit "Artist") None
             [ImgFile (Js.lit "a.png")] [] None (false, []) true in
  backgroundImages (finalState (runAiImageGeneration vendorDown [] s))
    = [ImgFile (Js.lit "a.png")] ∧
  backgroundImages (finalState (runAiImageGeneration vendorUp [] s))
    = [ImgFile (Js.lit "a.png");
       ImgUrl (Js.lit "data:image/png;base64,rain");
       ImgUrl (Js.lit "data:image/png;base64,sun")].
Proof.
  intros s.
  assert (aiFieldsFilled s) as Hs by (repeat split; discriminate).
  split.
  - destruct (runAiImageGeneration_outcome vendorDown [] s) as (Hfail & _ & _).
    destruct (Hfail _ Hs eq_refl) as (_ & _ & H). exact H.
  - destruct (runAiImageGeneration_outcome vendorUp [] s) as (_ & Hok & _).
    destruct (Hok _ Hs eq_refl) as (_ & H & _). exact H.
Defined.

Lemma invoked_singleton sub : invoked [Invoke sub].
Proof. exists sub. by apply list_elem_of_singleton. Qed.

Lemma not_invoked_prompt es :
  (∀ sub, Invoke sub ∉ es) → ¬ invoked es.
Proof. intros H [sub Hsub]. by apply (H sub). Qed.

(** C6: the gate of the AI feature.  [handleAiRequest] runs the guarded
    action if and only if the feature is already unlocked or the entered
    password is the stored constant; a correct entry sets the unlocked
    flag before the action runs, and an unlocked state runs the action
    without asking; a wrong entry shows the error alert, runs nothing and
    leaves the state as it is; a cancelled dialog changes nothing and
    shows no alert.  [handleAiGenerate] of the first revision gates
    [runAiGeneration] in the same way. *)
Theorem handleAiRequest_gates :
  (∀ action, gates AI_PASSWORD action (handleAiRequest action)) ∧
  (∀ ai msg, gates AI_PASSWORD_first (runAiGeneration ai msg)
               (handleAiGenerate ai msg)).
Proof.
  assert (∀ pw action (handler : option Js.str → M unit),
    (∀ answer, handler answer =
       (s ← get;
        if isAiUnlocked s then call action
        else
          emit PromptPassword;;
          if bool_decide (answer = Some pw) then
            emit (Alert PasswordCorrect);; setIsAiUnlocked true;; call action
          else if bool_decide (answer ≠ None) then emit (Alert PasswordWrong)
          else mret tt)) →
    gates pw action handler) as Hgen.
  { intros pw action handler Hdef answer s r. subst r. rewrite Hdef.
    unfold finalState, effects. run_get.
    destruct (isAiUnlocked s) eqn:Hu.
    - run_all. destruct (action s) as [[[] s'] sub] eqn:Ha. simpl.
      split; [|split; [|split; [|split]]]; try (intros [=]; fail).
      + split; [by left | intros _; apply invoked_singleton].
      + done.
    - run_all. case_bool_decide as Hpw.
      + run_all. destruct (action _) as [[[] s'] sub] eqn:Ha. simpl.
        split; [|split; [|split; [|split]]]; try (intros [=]; fail).
        * split; [by right | intros _; exists sub; mem_solve].
        * intros _ _. eexists. split; [done|]. by rewrite Ha.
        * done.
        * intros _ ->. done.
      + case_bool_decide as Hnull; run_all.
        * split; [|split; [|split; [|split]]]; try (intros [=]; fail).
          -- split; [intros [sub Hsub]; mem_absurd Hsub | intros [?|?]; done].
          -- done.
          -- done.
          -- done.
        * split; [|split; [|split; [|split]]]; try (intros [=]; fail).
          -- split; [intros [sub Hsub]; mem_absurd Hsub | intros [?|?]; done].
          -- done.
          -- done.
          -- intros _ _. split; [done|]. split; [done|].
             intros [m Hm]. mem_absurd Hm. }
  split.
  - intros action. by apply Hgen.
  - intros ai msg. by apply Hgen.
Qed.

Lemma handleAiRequest_gates_witness :
  let locked := mkState FORM [] [] [] None [] [] None (false, []) false in
  let action : M unit := setIsLoading (true, []) in
  isAiUnlocked (finalState (handleAiRequest action (Some (Js.lit "8888")) locked))
    = true ∧
  effects (handleAiRequest action (Some (Js.lit "8888")) locked)
    = [PromptPassword; Alert PasswordCorrect; Invoke []] ∧
  finalState (handleAiRequest action (Some (Js.lit "1234")) locked) = locked ∧
  effects (handleAiRequest action (Some (Js.lit "1234")) locked)
    = [PromptPassword; Alert PasswordWrong] ∧
  finalState (handleAiRequest action None locked) = locked ∧
  effects (handleAiRequest action None locked) = [PromptPassword].
Proof.
  intros locked action.
  destruct handleAiRequest_gates as [Hreq _].
  destruct (Hreq action (Some (Js.lit "8888")) locked)
    as (_ & _ & Hok & _ & _).
  destruct (Hok eq_refl eq_refl) as (s1 & Hs1 & _ & Hst & Heff).
  destruct (Hreq action (Some (Js.lit "1234")) locked)
    as (_ & _ & _ & Hwrong & _).
  destruct (Hwrong eq_refl) as [Hw1 Hw2]; [discriminate | discriminate |].
  destruct (Hreq action None locked) as (_ & _ & _ & _ & Hnull).
  destruct (Hnull eq_refl eq_refl) as (Hn1 & Hn2 & _).
  subst s1. rewrite Hst, Heff.
  repeat split; assumption || reflexivity.
Defined.

End app_handlers.

(** *** Numbers: rounding to binary64 *)

Section floats.
Import Js.

Lemma pow2_pos e : (0 < pow2 e)%Q.
Proof. apply Qpower_0_lt. q_cmp. Qed.

Lemma pow2_plus a b : (pow2 (a + b) == pow2 a * pow2 b)%Q.
Proof. apply Qpower_plus. q_cmp. Qed.

Lemma pow2_le a b : a ≤ b → (pow2 a <= pow2 b)%Q.
Proof. intros H. apply Qpower_le_compat_l; [done | q_cmp]. Qed.

Lemma pow2_lt a b : a < b → (pow2 a < pow2 b)%Q.
Proof. intros H. apply Qpower_lt_compat_l; [done | q_cmp]. Qed.

Lemma pow2_lt_inv a b : (pow2 a < pow2 b)%Q → a < b.
Proof. intros H. eapply Qpower_lt_compat_l_inv; [exact H | q_cmp]. Qed.

Lemma pow2_Z n : 0 ≤ n → (pow2 n == inject_Z (2 ^ n))%Q.
Proof. intros H. unfold pow2. by rewrite Zpower_Qpower. Qed.

Lemma pow2_half e : (pow2 (e - 1) == pow2 e * (1 # 2))%Q.
Proof.
  replace (e - 1) with (e + -1) by lia. rewrite pow2_plus. done.
Qed.

Lemma Qdiv_Z_le (A B C D : Z) :
  0 < B → 0 < D → A * D ≤ C * B →
  (inject_Z A / inject_Z B <= inject_Z C / inject_Z D)%Q.
Proof.
  intros HB HD H. destruct B as [|B|B], D as [|D|D]; try lia.
  unfold Qle, Qdiv, Qmult, Qinv, inject_Z. simpl. lia.
Qed.

Lemma Qdiv_Z_lt (A B C D : Z) :
  0 < B → 0 < D → A * D < C * B →
  (inject_Z A / inject_Z B < inject_Z C / inject_Z D)%Q.
Proof.
  intros HB HD H. destruct B as [|B|B], D as [|D|D]; try lia.
  unfold Qlt, Qdiv, Qmult, Qinv, inject_Z. simpl. lia.
Qed.

Lemma pow2_minus_Z a b :
  0 ≤ a → 0 ≤ b → (pow2 (a - b) == inject_Z (2 ^ a) / inject_Z (2 ^ b))%Q.
Proof.
  intros Ha Hb. unfold pow2. rewrite Qpower_minus by q_cmp.
  fold (pow2 a) (pow2 b). by rewrite !pow2_Z.
Qed.

(** A positive number lies between two powers of two. *)
Lemma exponent_spec x :
  (0 < x)%Q → (pow2 (exponent x) <= x)%Q ∧ (x < pow2 (exponent x + 1))%Q.
Proof.
  intros Hx. destruct x as [a b].
  assert (0 < a) as Ha by (revert Hx; q_cmp).
  unfold exponent. cbn [Qnum Qden].
  pose proof (Z.log2_spec a Ha) as [Ha1 Ha2].
  pose proof (Z.log2_spec (Zpos b) ltac:(lia)) as [Hb1 Hb2].
  pose proof (Z.log2_nonneg a) as Hla.
  pose proof (Z.log2_nonneg (Zpos b)) as Hlb.
  set (la := Z.log2 a) in *. set (lb := Z.log2 (Zpos b)) in *.
  replace (Z.succ la) with (la + 1) in Ha2 by lia.
  replace (Z.succ lb) with (lb + 1) in Hb2 by lia.
  assert (a # b == inject_Z a / inject_Z (Zpos b))%Q as Hab.
  { unfold Qeq, Qdiv, Qmult, Qinv, inject_Z. simpl. lia. }
  assert (0 < 2 ^ lb) by (apply Z.pow_pos_nonneg; lia).
  assert (0 < 2 ^ la) by (apply Z.pow_pos_nonneg; lia).
  assert (pow2 (la - lb - 1) <= a # b)%Q as Hlow.
  { replace (la - lb - 1) with (la - (lb + 1)) by lia.
    rewrite pow2_minus_Z by lia. rewrite Hab.
    apply Qdiv_Z_le; [lia | lia | nia]. }
  assert (a # b < pow2 (la - lb + 1))%Q as Hhigh.
  { replace (la - lb + 1) with (la + 1 - lb) by lia.
    rewrite pow2_minus_Z by lia. rewrite Hab.
    apply Qdiv_Z_lt; [lia | lia | nia]. }
  destruct (Qle_bool (pow2 (la - lb)) (a # b)) eqn:E.
  - apply Qle_bool_iff in E. done.
  - split; [done|].
    replace (la - lb - 1 + 1) with (la - lb) by lia.
    apply Qnot_le_lt. intros H'. apply Qle_bool_iff in H'. congruence.
Qed.

Lemma exponent_unique x e :
  (pow2 e <= x)%Q → (x < pow2 (e + 1))%Q → exponent x = e.
Proof.
  intros H1 H2.
  assert (0 < x)%Q as Hx by (eapply Qlt_le_trans; [apply pow2_pos | exact H1]).
  destruct (exponent_spec x Hx) as [H3 H4].
  assert (exponent x < e + 1).
  { apply pow2_lt_inv. by eapply Qle_lt_trans. }
  assert (e < exponent x + 1).
  { apply pow2_lt_inv. by eapply Qle_lt_trans. }
  lia.
Qed.

Lemma exponent_comp x y : (0 < x)%Q → (x == y)%Q → exponent x = exponent y.
Proof.
  intros Hx Hxy. symmetry.
  destruct (exponent_spec x Hx) as [H1 H2].
  apply exponent_unique; by rewrite <- Hxy.
Qed.

Lemma exponent_lt x E : (0 < x)%Q → (x < pow2 E)%Q → exponent x < E.
Proof.
  intros Hx HE. destruct (exponent_spec x Hx) as [H1 _].
  apply pow2_lt_inv. by eapply Qle_lt_trans.
Qed.

Lemma roundEven_comp q q' : (q == q')%Q → roundEven q = roundEven q'.
Proof.
  intros H. unfold roundEven. rewrite (Qfloor_comp _ _ H).
  assert ((q - inject_Z (Qfloor q') ?= 1 # 2)%Q
          = (q' - inject_Z (Qfloor q') ?= 1 # 2)%Q) as ->; [|done].
  by rewrite H.
Qed.

Lemma roundEven_Z z : roundEven (inject_Z z) = z.
Proof.
  unfold roundEven. rewrite Qfloor_Z.
  assert ((inject_Z z - inject_Z z ?= 1 # 2)%Q = Lt) as ->; [|done].
  assert (inject_Z z - inject_Z z == 0)%Q as H0 by ring.
  by rewrite H0.
Qed.

Lemma roundEven_near q : (Qabs (inject_Z (roundEven q) - q) <= 1 # 2)%Q.
Proof.
  unfold roundEven.
  pose proof (Qfloor_le q) as Hlo. pose proof (Qlt_floor q) as Hhi.
  set (f := Qfloor q) in *.
  rewrite inject_Z_plus in Hhi. change (inject_Z 1) with 1%Q in Hhi.
  apply Qabs_Qle_condition.
  destruct (q - inject_Z f ?= 1 # 2)%Q eqn:E.
  - apply Qeq_alt in E. destruct (Z.even f).
    + lra.
    + rewrite inject_Z_plus. change (inject_Z 1) with 1%Q. lra.
  - apply Qlt_alt in E. lra.
  - apply Qgt_alt in E. rewrite inject_Z_plus. change (inject_Z 1) with 1%Q. lra.
Qed.

Lemma flPos_comp x y : (0 < x)%Q → (x == y)%Q → (flPos x == flPos y)%Q.
Proof.
  intros Hx Hxy. unfold flPos. rewrite <- (exponent_comp x y Hx Hxy).
  set (ulp := pow2 _).
  assert (roundEven (y / ulp) = roundEven (x / ulp)) as ->; [|done].
  apply roundEven_comp. by rewrite Hxy.
Qed.

Lemma fl_pos x : (0 < x)%Q → fl x = flPos x.
Proof. intros H. unfold fl. apply Qgt_alt in H. by rewrite H. Qed.

Lemma fl_0 x : (x == 0)%Q → fl x = 0%Q.
Proof. intros H. unfold fl. apply Qeq_alt in H. by rewrite H. Qed.

#[export] Instance fl_comp : Proper (Qeq ==> Qeq) fl.
Proof.
  intros x y Hxy. unfold fl.
  assert ((y ?= 0)%Q = (x ?= 0)%Q) as -> by (by rewrite Hxy).
  destruct (x ?= 0)%Q eqn:E; [done | |].
  - apply Qlt_alt in E. apply Qopp_comp. apply flPos_comp; [lra | by rewrite Hxy].
  - apply Qgt_alt in E. by apply flPos_comp.
Qed.

(** The error of a rounding: half a unit in the last place. *)
Lemma fl_error x E :
  (0 < x)%Q → (x < pow2 E)%Q → -1021 ≤ E →
  (Qabs (fl x - x) <= pow2 (E - 54))%Q.
Proof.
  intros Hx HE Hmin. rewrite fl_pos by done. unfold flPos.
  pose proof (exponent_lt x E Hx HE) as He.
  set (e := Z.max (exponent x) (-1022)). assert (e ≤ E - 1) as He' by lia.
  pose proof (pow2_pos (e - 52)) as Hu.
  pose proof (roundEven_near (x / pow2 (e - 52))) as Hn.
  set (n := inject_Z (roundEven (x / pow2 (e - 52)))) in *.
  assert (pow2 (e - 52) * (1 # 2) <= pow2 (E - 54))%Q as Hhalf.
  { rewrite <- pow2_half. apply pow2_le. lia. }
  set (u := pow2 (e - 52)) in *. clearbody u n.
  apply Qabs_Qle_condition in Hn as [Hn1 Hn2].
  assert (x / u * u == x)%Q as Hxu by (field; lra).
  assert ((n - x / u) * u <= (1 # 2) * u)%Q as H1
    by (apply Qmult_le_compat_r; lra).
  assert (- (1 # 2) * u <= (n - x / u) * u)%Q as H2
    by (apply Qmult_le_compat_r; lra).
  assert ((n - x / u) * u == n * u - x)%Q as H3.
  { rewrite <- Hxu at 2. ring. }
  apply Qabs_Qle_condition. lra.
Qed.

(** Integers below [2^53] are binary64 numbers. *)
Lemma fl_Z x z : 0 ≤ z < 2 ^ 53 → (x == inject_Z z)%Q → (fl x == inject_Z z)%Q.
Proof.
  intros Hz Hx. rewrite Hx. clear x Hx.
  destruct (decide (z = 0)) as [->|Hz0]; [done|].
  assert (0 < inject_Z z)%Q as Hpos by (rewrite <- (Zlt_Qlt 0); lia).
  rewrite fl_pos by done. unfold flPos.
  destruct (exponent_spec _ Hpos) as [H1 H2].
  set (e := exponent (inject_Z z)) in *.
  assert (0 ≤ e).
  { assert (0 < e + 1); [|lia]. apply pow2_lt_inv.
    eapply Qle_lt_trans; [|exact H2]. change (pow2 0) with 1%Q.
    rewrite <- (Zle_Qle 1). lia. }
  assert (e < 53).
  { apply pow2_lt_inv. eapply Qle_lt_trans; [exact H1|].
    rewrite pow2_Z by lia. rewrite <- Zlt_Qlt. lia. }
  rewrite Z.max_l by lia.
  assert (pow2 (e - 52) == / inject_Z (2 ^ (52 - e)))%Q as Hu.
  { replace (e - 52) with (- (52 - e)) by lia. unfold pow2.
    rewrite Qpower_opp. fold (pow2 (52 - e)). by rewrite pow2_Z by lia. }
  assert (0 < 2 ^ (52 - e)) as Hp by (apply Z.pow_pos_nonneg; lia).
  assert (0 < inject_Z (2 ^ (52 - e)))%Q as Hp' by (by rewrite <- (Zlt_Qlt 0)).
  assert (roundEven (inject_Z z / pow2 (e - 52)) = z * 2 ^ (52 - e)) as ->.
  { rewrite <- (roundEven_Z (z * 2 ^ (52 - e))). apply roundEven_comp.
    rewrite Hu, inject_Z_mult. field. lra. }
  rewrite Hu, inject_Z_mult. field. lra.
Qed.
End floats.

(** *** JavaScript strings *)

Section js_strings.
Import Js.

Lemma dropWhile_head p s c s' :
  dropWhile p s = c :: s' → p c = false.
Proof.
  induction s as [|a s IH]; simpl; [done|].
  destruct (p a) eqn:Hp; [done|]. by intros [= <- <-].
Qed.

Lemma dropWhile_id p c s : p c = false → dropWhile p (c :: s) = c :: s.
Proof. intros Hc. simpl. by rewrite Hc. Qed.

Lemma dropWhile_all p s : Forall (λ c, p c = true) s → dropWhile p s = [].
Proof. induction 1 as [|c s Hc _ IH]; simpl; [done|]. by rewrite Hc. Qed.

Lemma trimEnd_idem s : trimEnd (trimEnd s) = trimEnd s.
Proof.
  induction s as [|c s IH]; simpl; [done|].
  destruct (trimEnd s) as [|d t] eqn:Ht.
  - destruct (isWhiteSpace c) eqn:Hc; simpl; [done|]. by rewrite Hc.
  - simpl in *. by rewrite IH.
Qed.

Lemma trimEnd_head c s :
  isWhiteSpace c = false → ∃ t, trimEnd (c :: s) = c :: t.
Proof.
  intros Hc. simpl. destruct (trimEnd s) as [|d t]; rewrite ?Hc; eauto.
Qed.

Lemma trim_idem s : trim (trim s) = trim s.
Proof.
  unfold trim, trimStart.
  destruct (dropWhile isWhiteSpace s) as [|c t] eqn:Hd; [done|].
  apply dropWhile_head in Hd.
  destruct (trimEnd_head c t Hd) as [u Hu]. rewrite Hu.
  rewrite dropWhile_id by done. rewrite <- Hu. apply trimEnd_idem.
Qed.

Lemma trim_blank s : Forall (λ c, isWhiteSpace c = true) s → trim s = [].
Proof. intros H. unfold trim, trimStart. by rewrite dropWhile_all. Qed.

Lemma join_blank (ls : list str) :
  Forall (Forall (λ c, isWhiteSpace c = true)) ls →
  Forall (λ c, isWhiteSpace c = true) (join LF ls).
Proof.
  induction 1 as [|l ls Hl Hls IH]; simpl; [done|].
  destruct ls as [|l' ls']; [done|].
  apply Forall_app. split; [done|]. by constructor.
Qed.

End js_strings.

(** *** The SRT parser *)

Section srt_parser.
Import Js Srt.

Lemma parseBlock_text (block : str) (lyric : TimedLyric) :
  parseBlock block = Some lyric → text lyric ≠ [] ∧ trim (text lyric) = text lyric.
Proof.
  unfold parseBlock. intros H.
  repeat (case_match; simplify_option_eq; try done).
  split; [by eapply bool_decide_eq_true_1 | apply trim_idem].
Qed.

(** C9: every lyric returned by [parseSrt] has a text that is not empty
    and is trimmed; a block contributes what [parseBlock] returns for it,
    which is nothing when the lines after its time line are blank, when no
    line contains [-->], or when it has fewer than two lines. *)
Theorem parseSrt_no_empty_lyric :
  (∀ srtContent,
     Forall (λ lyric, text lyric ≠ [] ∧ trim (text lyric) = text lyric)
       (parseSrt srtContent)) ∧
  (∀ block (i : nat),
     findIndex (includes (lit "-->")) (splitOn LF block) = Z.of_nat i →
     Forall blank (drop (S i) (splitOn LF block)) →
     parseBlock block = None) ∧
  (∀ block,
     Forall (λ line, includes (lit "-->") line = false) (splitOn LF block) →
     parseBlock block = None) ∧
  (∀ block, (length (splitOn LF block) < 2)%nat → parseBlock block = None) ∧
  (∀ srtContent lyric,
     lyric ∈ parseSrt srtContent ↔
     ∃ block, block ∈ blocks srtContent ∧ parseBlock block = Some lyric).
Proof.
  split; [|split; [|split; [|split]]].
  - intros srtContent. apply Forall_forall. intros lyric Hin.
    apply list_elem_of_omap in Hin as (block & _ & Hb).
    by eapply parseBlock_text.
  - intros block i Hi Hblank. unfold parseBlock. rewrite Hi.
    replace (Z.to_nat (Z.of_nat i + 1)) with (S i) by lia.
    rewrite (trim_blank (join LF _)) by (by apply join_blank).
    repeat (case_match; simplify_option_eq; try done).
    destruct (at_ _ _) as [timeLine|]; simpl; [|done].
    destruct (timeMatch timeLine) as [[g1 g2]|]; simpl; [|done].
    destruct (parseSrtTime g1); simpl; [|done].
    by destruct (parseSrtTime g2).
  - intros block Hnone. unfold parseBlock.
    destruct (findIndex_from_range (includes (lit "-->")) (splitOn LF block) 0)
      as [[Hf _] | (i & x & _ & Hi & Hx)]; [lia | |].
    + unfold findIndex. rewrite Hf. simpl. by case_match.
    + rewrite Forall_forall in Hnone.
      rewrite Hnone in Hx; [done|]. by eapply list_elem_of_lookup_2.
  - intros block Hlen. unfold parseBlock.
    rewrite bool_decide_eq_false_2; [done | lia].
  - intros srtContent lyric. unfold parseSrt. apply list_elem_of_omap.
Qed.

Lemma parseSrt_no_empty_lyric_witness :
  parseBlock (lit "1" ++ LF :: lit "00:00:01,000 --> 00:00:02,000" ++ LF :: lit "  ")
    = None ∧
  parseBlock (lit "no time line" ++ LF :: lit "here") = None ∧
  parseBlock (lit "00:00:01,000 --> 00:00:02,000 text") = None.
Proof.
  destruct parseSrt_no_empty_lyric as (_ & Hblank & Harrow & Hshort & _).
  split; [|split].
  - apply (Hblank _ 1%nat); [reflexivity|]. by repeat constructor.
  - apply Harrow. by repeat constructor.
  - apply Hshort. simpl. lia.
Defined.

End srt_parser.

(** *** SRT export and parse *)

Section srt_roundtrip.
Import Js Srt VideoPlayer.

(** **** Decimal digits *)

Lemma isDigit_spec c : isDigit c = true ↔ (48 ≤ c ≤ 57)%N.
Proof. unfold isDigit. rewrite andb_true_iff, !N.leb_le. tauto. Qed.

Lemma isDigit_not_space c : isDigit c = true → isWhiteSpace c = false.
Proof.
  rewrite isDigit_spec. intros Hc. unfold isWhiteSpace.
  apply orb_false_iff. split.
  - apply bool_decide_eq_false. intros Hin.
    repeat (apply elem_of_cons in Hin as [->|Hin]; [lia|]).
    by apply elem_of_nil in Hin.
  - apply andb_false_iff. left. apply N.leb_gt. lia.
Qed.

Lemma digitsOf_digits fuel n : Forall (λ c, isDigit c = true) (digitsOf fuel n).
Proof.
  revert n. induction fuel as [|f IH]; intros n; cbn [digitsOf]; [done|].
  destruct (N.ltb_spec n 10).
  - repeat constructor. apply isDigit_spec. unfold zero. lia.
  - apply Forall_app. split; [apply IH|]. repeat constructor.
    apply isDigit_spec. unfold zero.
    assert (n mod 10 < 10)%N by (by apply N.mod_upper_bound).
    set (m := (n mod 10)%N) in *. clearbody m. lia.
Qed.

Lemma digitsOf_nonempty fuel n : digitsOf (S fuel) n ≠ [].
Proof.
  cbn [digitsOf]. destruct (n <? 10)%N; [done|].
  intros H. apply app_eq_nil in H as [_ H]. done.
Qed.

Lemma natToString_digits n : Forall (λ c, isDigit c = true) (natToString n).
Proof. apply digitsOf_digits. Qed.

Lemma natToString_nonempty n : natToString n ≠ [].
Proof. apply digitsOf_nonempty. Qed.

Lemma natToString_small n : (n < 10)%N → natToString n = [(zero + n)%N].
Proof. intros H. unfold natToString. cbn [digitsOf]. by rewrite (proj2 (N.ltb_lt _ _) H). Qed.

Lemma digitsOf_two f n :
  (10 ≤ n < 100)%N → digitsOf (S (S f)) n = [(zero + n / 10)%N; (zero + n mod 10)%N].
Proof.
  intros H. cbn [digitsOf].
  rewrite (proj2 (N.ltb_ge _ _)) by lia.
  assert (n / 10 < 10)%N by (apply N.Div0.div_lt_upper_bound; lia).
  by rewrite (proj2 (N.ltb_lt _ _)) by done.
Qed.

Lemma digitsOf_three f n :
  (100 ≤ n < 1000)%N →
  digitsOf (S (S (S f))) n
  = [(zero + n / 10 / 10)%N; (zero + (n / 10) mod 10)%N; (zero + n mod 10)%N].
Proof.
  intros H. cbn [digitsOf].
  rewrite (proj2 (N.ltb_ge _ _)) by lia.
  assert (10 ≤ n / 10 < 100)%N.
  { split; [apply N.div_le_lower_bound; lia | apply N.Div0.div_lt_upper_bound; lia]. }
  rewrite (proj2 (N.ltb_ge (n / 10) _)) by lia.
  assert (n / 10 / 10 < 10)%N by (apply N.Div0.div_lt_upper_bound; lia).
  by rewrite (proj2 (N.ltb_lt _ _)) by done.
Qed.

Lemma log2_fuel_two n : (10 ≤ n)%N → ∃ f, N.to_nat (N.log2 n) = S (S (S f)).
Proof.
  intros H. assert (3 ≤ N.log2 n)%N.
  { change 3%N with (N.log2 8). apply N.log2_le_mono. lia. }
  exists (N.to_nat (N.log2 n) - 3)%nat. lia.
Qed.

Lemma log2_fuel_three n : (100 ≤ n)%N → ∃ f, N.to_nat (N.log2 n) = S (S (S (S (S (S f))))).
Proof.
  intros H. assert (6 ≤ N.log2 n)%N.
  { change 6%N with (N.log2 64). apply N.log2_le_mono. lia. }
  exists (N.to_nat (N.log2 n) - 6)%nat. lia.
Qed.

Lemma padStart2_intToString z :
  0 ≤ z < 100 → padStart2 (intToString z) = two z.
Proof.
  intros Hz. unfold intToString, two, digit.
  rewrite (proj2 (Z.ltb_ge _ _)) by lia.
  destruct (decide (z < 10)) as [Hsmall|Hbig].
  - rewrite natToString_small by lia. unfold padStart2. simpl.
    rewrite Z.div_small, Z.mod_small by lia. done.
  - unfold natToString.
    destruct (log2_fuel_two (Z.to_N z)) as [f ->]; [lia|].
    rewrite digitsOf_two by lia. unfold padStart2. simpl.
    rewrite Z2N.inj_div, Z2N.inj_mod by lia. done.
Qed.

Ltac zdiv := Z.to_euclidean_division_equations; lia.

Lemma padStart_three z :
  0 ≤ z < 1000 →
  let m := natToString (Z.to_N z) in
  drop 1 (replicate (4 - length m) zero ++ m) = three z.
Proof.
  intros Hz m. subst m. unfold three, digit.
  destruct (decide (z < 10)) as [H1|H1]; [|destruct (decide (z < 100)) as [H2|H2]].
  - rewrite natToString_small by lia. simpl.
    replace (z / 100) with 0 by zdiv.
    replace (z / 10 mod 10) with 0 by zdiv.
    replace (z mod 10) with z by zdiv. done.
  - unfold natToString.
    destruct (log2_fuel_two (Z.to_N z)) as [f ->]; [lia|].
    rewrite digitsOf_two by lia. simpl.
    replace (z / 100) with 0 by zdiv.
    replace (z / 10 mod 10) with (z / 10) by zdiv.
    by rewrite Z2N.inj_div, Z2N.inj_mod by lia.
  - unfold natToString.
    destruct (log2_fuel_three (Z.to_N z)) as [f ->]; [lia|].
    rewrite digitsOf_three by lia. simpl.
    replace (z / 100) with (z / 10 / 10) by zdiv.
    rewrite !Z2N.inj_mod, !Z2N.inj_div by zdiv. done.
Qed.

Lemma natToString_length_le z : 0 ≤ z < 1000 → (length (natToString (Z.to_N z)) ≤ 3)%nat.
Proof.
  intros Hz.
  destruct (decide (z < 10)) as [H1|H1]; [|destruct (decide (z < 100)) as [H2|H2]].
  - rewrite natToString_small by lia. simpl. lia.
  - unfold natToString.
    destruct (log2_fuel_two (Z.to_N z)) as [f ->]; [lia|].
    rewrite digitsOf_two by lia. simpl. lia.
  - unfold natToString.
    destruct (log2_fuel_three (Z.to_N z)) as [f ->]; [lia|].
    rewrite digitsOf_three by lia. simpl. lia.
Qed.

(** Equal numbers are formatted alike. *)
Lemma rem_comp x x' m : x == x' → rem x m == rem x' m.
Proof.
  intros Hx. unfold rem.
  assert (Qle_bool 0 (x / m) = Qle_bool 0 (x' / m)) as -> by (by rewrite Hx).
  assert (Qfloor (x / m) = Qfloor (x' / m)) as -> by (by rewrite Hx).
  assert (Qceiling (x / m) = Qceiling (x' / m)) as -> by (by rewrite Hx).
  by rewrite Hx.
Qed.

Lemma toFixed3_comp x x' : x == x' → toFixed3 x = toFixed3 x'.
Proof.
  intros Hx. unfold toFixed3.
  assert (Qle_bool 0 x = Qle_bool 0 x') as -> by (by rewrite Hx).
  destruct (negb (Qle_bool 0 x')).
  - assert (Qfloor (- x * 1000 + (1 # 2)) = Qfloor (- x' * 1000 + (1 # 2))) as ->
      by (by rewrite Hx). done.
  - assert (Qfloor (x * 1000 + (1 # 2)) = Qfloor (x' * 1000 + (1 # 2))) as ->
      by (by rewrite Hx). done.
Qed.

Lemma div_comp x x' m : x == x' → div x m == div x' m.
Proof. intros Hx. unfold div. by rewrite Hx. Qed.

Lemma formatSrtTime_comp t t' :
  t == t' → VideoPlayer.formatSrtTime t = VideoPlayer.formatSrtTime t'.
Proof.
  intros Ht. unfold VideoPlayer.formatSrtTime.
  assert (Qfloor (div t 3600) = Qfloor (div t' 3600)) as ->
    by (apply Qfloor_comp; by apply div_comp).
  assert (Qfloor (div (rem t 3600) 60) = Qfloor (div (rem t' 3600) 60)) as ->
    by (apply Qfloor_comp, div_comp; by apply rem_comp).
  assert (Qfloor (rem t 60) = Qfloor (rem t' 60)) as ->
    by (by rewrite (rem_comp t t' 60 Ht)).
  by rewrite (toFixed3_comp _ _ (rem_comp t t' 1 Ht)).
Qed.

(** **** Times that denote a millisecond *)

Lemma Qfloor_unique (x : Q) (k : Z) :
  (inject_Z k <= x)%Q → (x < inject_Z k + 1)%Q → Qfloor x = k.
Proof.
  intros Hlo Hhi.
  assert (k ≤ Qfloor x).
  { rewrite <- (Qfloor_Z k). by apply Qfloor_resp_le. }
  assert (Qfloor x < k + 1); [|lia].
  rewrite Zlt_Qlt, inject_Z_plus. change (inject_Z 1) with 1%Q.
  eapply Qle_lt_trans; [apply Qfloor_le | done].
Qed.

Lemma Qmake_1000 k : (k # 1000 == inject_Z k * (1 # 1000))%Q.
Proof. unfold Qeq, Qmult, inject_Z. simpl. lia. Qed.

Lemma pow2_33 : (pow2 (-33) == 1 # 8589934592)%Q.
Proof. reflexivity. Qed.

(** The parts of a number of milliseconds, for a unit of [m] seconds. *)
Lemma millis_parts (k : Z) (m : positive) :
  0 ≤ k →
  let q := k / (1000 * Zpos m) in
  let r := k mod (1000 * Zpos m) in
  (inject_Z k == 1000 * inject_Z (q * Zpos m) + inject_Z r)%Q ∧
  0 ≤ q ∧ 0 ≤ r ∧ (inject_Z r <= 1000 * inject_Z (Zpos m) - 1)%Q ∧
  (r = 0 → k mod 1000 = 0) ∧ (r ≠ 0 → (1 <= inject_Z r)%Q) ∧
  r mod 1000 = k mod 1000.
Proof.
  intros Hk q r.
  pose proof (Z.div_mod k (1000 * Zpos m) ltac:(lia)) as Hdm.
  pose proof (Z.mod_pos_bound k (1000 * Zpos m) ltac:(lia)) as Hr.
  fold q r in Hdm, Hr.
  split; [|split; [|split; [|split; [|split; [|split]]]]].
  - rewrite <- (inject_Z_mult 1000), <- inject_Z_plus. apply inject_Z_injective.
    lia.
  - subst q. apply Z.div_pos; lia.
  - lia.
  - assert (inject_Z r <= inject_Z (1000 * Z.pos m + -1))%Q as H
      by (rewrite <- Zle_Qle; lia).
    rewrite inject_Z_plus, inject_Z_mult in H.
    change (inject_Z (-1)) with (- (1))%Q in H.
    change (inject_Z 1000) with 1000%Q in H. lra.
  - intros Hr0. subst r. zdiv.
  - intros Hr0. change 1%Q with (inject_Z 1). rewrite <- Zle_Qle. lia.
  - subst r. zdiv.
Qed.

(** The whole units of a time. *)
Lemma Qfloor_near (t : Q) (k : Z) (m : positive) :
  0 ≤ k → nearMillis t k →
  (inject_Z (k / (1000 * Zpos m)) <= t / inject_Z (Zpos m))%Q ∧
  (t / inject_Z (Zpos m) < inject_Z (k / (1000 * Zpos m)) + 1)%Q.
Proof.
  intros Hk [Hnear Hexact].
  destruct (millis_parts k m Hk) as (Hsplit & Hq & Hr & Hrm & Hr0 & Hr1 & _).
  set (q := k / (1000 * Zpos m)) in *. set (r := k mod (1000 * Zpos m)) in *.
  assert (0 < inject_Z (Zpos m))%Q as Hm by q_cmp.
  rewrite inject_Z_mult in Hsplit.
  rewrite (Qmake_1000 k), pow2_33 in Hnear. apply Qabs_Qle_condition in Hnear.
  destruct (decide (r = 0)) as [E|E].
  - rewrite (Hexact (Hr0 E)), (Qmake_1000 k). rewrite E in Hsplit.
    assert (inject_Z k * (1 # 1000) / inject_Z (Z.pos m) == inject_Z q)%Q as ->
      by (rewrite Hsplit; field; lra).
    lra.
  - specialize (Hr1 E). split.
    + apply Qle_shift_div_l; [done|]. lra.
    + apply Qlt_shift_div_r; [done|]. lra.
Qed.

Lemma Qle_bool_near (t : Q) (k : Z) : 0 ≤ k → nearMillis t k → (0 <= t)%Q.
Proof.
  intros Hk Hn. destruct (Qfloor_near t k 1 Hk Hn) as [H _].
  assert (0 ≤ k / (1000 * 1)) by (apply Z.div_pos; lia).
  assert (t / inject_Z 1 == t)%Q as Ht by (field; q_cmp).
  rewrite Ht in H. eapply Qle_trans; [|exact H].
  change 0%Q with (inject_Z 0). by rewrite <- Zle_Qle.
Qed.

(** The remainder of a time denotes the remainder of its millisecond. *)
Lemma rem_near (t : Q) (k : Z) (m : positive) :
  0 ≤ k → nearMillis t k →
  nearMillis (rem t (Zpos m # 1)) (k mod (1000 * Zpos m)).
Proof.
  intros Hk Hn. pose proof (Qfloor_near t k m Hk Hn) as [Hlo Hhi].
  destruct (millis_parts k m Hk) as (Hsplit & Hq & Hr & Hrm & Hr0 & Hr1 & Hmod).
  set (q := k / (1000 * Zpos m)) in *. set (r := k mod (1000 * Zpos m)) in *.
  assert (0 < inject_Z (Zpos m))%Q as Hm by q_cmp.
  change (Zpos m # 1) with (inject_Z (Zpos m)).
  assert (rem t (inject_Z (Zpos m)) == t - inject_Z (Zpos m) * inject_Z q)%Q as Hrem.
  { unfold rem.
    assert (Qle_bool 0 (t / inject_Z (Zpos m)) = true) as ->.
    { apply Qle_bool_iff. eapply Qle_trans; [|exact Hlo].
      change 0%Q with (inject_Z 0). by rewrite <- Zle_Qle. }
    by rewrite (Qfloor_unique _ q Hlo Hhi). }
  rewrite inject_Z_mult in Hsplit.
  destruct Hn as [Hnear Hexact]. split.
  - rewrite Hrem. rewrite (Qmake_1000 k) in Hnear. rewrite (Qmake_1000 r).
    assert (t - inject_Z (Z.pos m) * inject_Z q - inject_Z r * (1 # 1000)
            == t - inject_Z k * (1 # 1000))%Q as ->; [|done].
    rewrite Hsplit. ring.
  - rewrite Hmod. intros H0.
    rewrite Hrem, (Hexact H0), (Qmake_1000 k), (Qmake_1000 r).
    rewrite Hsplit. ring.
Qed.

(** The whole units of a time, with the rounding of the division. *)
Lemma Qfloor_div_near (t : Q) (k : Z) (m : positive) :
  0 ≤ k < 8000000 * Zpos m → (Zpos m ≤ 3600) → nearMillis t k →
  Qfloor (div t (Zpos m # 1)) = k / (1000 * Zpos m).
Proof.
  intros Hk Hm3600 [Hnear Hexact].
  destruct (millis_parts k m ltac:(lia)) as (Hsplit & Hq & Hr & Hrm & Hr0 & Hr1 & _).
  assert (k / (1000 * Zpos m) < 8000) as Hq8
    by (apply Z.div_lt_upper_bound; lia).
  set (q := k / (1000 * Zpos m)) in *. set (r := k mod (1000 * Zpos m)) in *.
  assert (0 < inject_Z (Zpos m))%Q as Hm by q_cmp.
  assert (inject_Z (Zpos m) <= 3600)%Q as Hm'.
  { change 3600%Q with (inject_Z 3600). by rewrite <- Zle_Qle. }
  assert (inject_Z q <= 7999)%Q as Hq'.
  { change 7999%Q with (inject_Z 7999). rewrite <- Zle_Qle. lia. }
  assert (0 <= inject_Z q)%Q as Hq0.
  { change 0%Q with (inject_Z 0). by rewrite <- Zle_Qle. }
  change (Zpos m # 1) with (inject_Z (Zpos m)). unfold div.
  rewrite inject_Z_mult in Hsplit.
  rewrite (Qmake_1000 k), pow2_33 in Hnear. apply Qabs_Qle_condition in Hnear.
  destruct (decide (r = 0)) as [E|E].
  - rewrite E in Hsplit.
    assert (t / inject_Z (Z.pos m) == inject_Z q)%Q as Hy.
    { rewrite (Hexact (Hr0 E)), (Qmake_1000 k), Hsplit. field. lra. }
    rewrite (Qfloor_comp _ _ (fl_Z _ q ltac:(lia) Hy)). apply Qfloor_Z.
  - specialize (Hr1 E).
    set (y := (t / inject_Z (Z.pos m))%Q).
    assert (inject_Z q + (1 # 4000000) <= y)%Q as Hlo.
    { subst y. apply Qle_shift_div_l; [done|]. lra. }
    assert (y <= inject_Z q + 1 - (1 # 4000000))%Q as Hhi.
    { subst y. apply Qle_shift_div_r; [done|]. lra. }
    pose proof (fl_error y 13 ltac:(lra)) as Herr.
    assert (pow2 13 == 8192)%Q as H13 by reflexivity.
    assert (pow2 (13 - 54) == 1 # 2199023255552)%Q as H41 by reflexivity.
    rewrite H13, H41 in Herr. specialize (Herr ltac:(lra) ltac:(lia)).
    apply Qabs_Qle_condition in Herr.
    apply Qfloor_unique; lra.
Qed.

(** The three decimals of a fraction. *)
Lemma toFixed3_near (x : Q) (r : Z) :
  0 ≤ r < 1000 → nearMillis x r → drop 2 (toFixed3 x) = three r.
Proof.
  intros Hr Hn. pose proof (Qle_bool_near x r ltac:(lia) Hn) as Hx.
  destruct Hn as [Hnear _]. rewrite (Qmake_1000 r), pow2_33 in Hnear.
  apply Qabs_Qle_condition in Hnear.
  unfold toFixed3. apply Qle_bool_iff in Hx. rewrite Hx.
  cbn [negb]. cbv iota.
  assert (Qfloor (x * 1000 + (1 # 2)) = r) as ->.
  { apply Qfloor_unique; lra. }
  rewrite app_nil_l.
  pose proof (natToString_length_le r Hr) as Hlen.
  pose proof (padStart_three r Hr) as Hthree. simpl in Hthree.
  set (m' := replicate (4 - length (natToString (Z.to_N r))) zero
               ++ natToString (Z.to_N r)) in *.
  assert (length m' = 4%nat) as Hm'.
  { subst m'. rewrite length_app, length_replicate. lia. }
  rewrite Hm'. simpl.
  destruct m' as [|a m']; [done|]. simpl in *. done.
Qed.

(** A time that denotes the millisecond [k] is written as the time stamp
    of [k]. *)
Lemma formatSrtTime_near (t : Q) (k : Z) :
  0 ≤ k < 360000000 → nearMillis t k →
  VideoPlayer.formatSrtTime t = stampOf k.
Proof.
  intros Hk Hn. unfold VideoPlayer.formatSrtTime, stampOf.
  rewrite (Qfloor_div_near t k 3600) by (done || lia).
  pose proof (rem_near t k 3600 ltac:(lia) Hn) as Hn3600.
  pose proof (rem_near t k 60 ltac:(lia) Hn) as Hn60.
  pose proof (rem_near t k 1 ltac:(lia) Hn) as Hn1.
  change (Z.pos 3600 # 1) with 3600%Q in *.
  change (Z.pos 60 # 1) with 60%Q in *.
  change (Z.pos 1 # 1) with 1%Q in *.
  change (1000 * 3600) with 3600000 in *.
  change (1000 * 60) with 60000 in *.
  change (1000 * 1) with 1000 in *.
  rewrite (Qfloor_div_near (rem t 3600) (k mod 3600000) 60) by (done || zdiv).
  change (1000 * 60) with 60000.
  assert (Qfloor (rem t 60) = k mod 60000 / 1000) as ->.
  { destruct (Qfloor_near (rem t 60) (k mod 60000) 1 ltac:(zdiv) Hn60) as [H1 H2].
    assert (rem t 60 / inject_Z 1 == rem t 60)%Q as Hd by (field; q_cmp).
    rewrite Hd in H1, H2. by apply Qfloor_unique. }
  rewrite (toFixed3_near _ (k mod 1000)) by (done || zdiv).
  rewrite !padStart2_intToString by zdiv. done.
Qed.

(** The Number of [k / 1000] denotes the millisecond [k]. *)
Lemma fl_millis_error (t : Q) (k : Z) :
  0 ≤ k < 360000000 → t == fl (k # 1000) →
  (Qabs (t - (k # 1000)) <= pow2 (-35))%Q ∧ (k mod 1000 = 0 → t == k # 1000).
Proof.
  intros Hk Ht. split.
  - rewrite Ht. destruct (decide (k = 0)) as [->|Hk0].
    { rewrite (fl_0 (0 # 1000)) by reflexivity. apply Qabs_Qle_condition.
      assert (pow2 (-35) == 1 # 34359738368)%Q as -> by reflexivity. q_cmp. }
    apply (fl_error _ 19); [| |lia].
    + unfold Qlt. simpl. lia.
    + assert (pow2 19 == 524288)%Q as -> by reflexivity.
      unfold Qlt. simpl. lia.
  - intros H0. rewrite Ht.
    assert (k # 1000 == inject_Z (k / 1000))%Q as Hint.
    { unfold Qeq, inject_Z. simpl. zdiv. }
    rewrite Hint. apply fl_Z; [zdiv | done].
Qed.

Lemma nearMillis_weaken (t : Q) (k e : Z) :
  e ≤ -33 → (Qabs (t - (k # 1000)) <= pow2 e)%Q →
  (k mod 1000 = 0 → t == k # 1000) → nearMillis t k.
Proof.
  intros He H1 H2. split; [|done].
  eapply Qle_trans; [exact H1 | by apply pow2_le].
Qed.

Lemma fl_nearMillis (t : Q) (k : Z) :
  0 ≤ k < 360000000 → t == fl (k # 1000) → nearMillis t k.
Proof.
  intros Hk Ht. destruct (fl_millis_error t k Hk Ht) as [H1 H2].
  by apply (nearMillis_weaken t k (-35)).
Qed.

(** A parsed time stamp and the time it was written from agree. *)
Lemma timesAgree_millis (q t : Q) (k : Z) :
  0 ≤ k < 360000000 → t == fl (k # 1000) →
  (Qabs (q - (k # 1000)) <= pow2 (-34))%Q → (k mod 1000 = 0 → q == k # 1000) →
  timesAgree q t ∧ VideoPlayer.formatSrtTime t = stampOf k.
Proof.
  intros Hk Ht Hq Hq0. destruct (fl_millis_error t k Hk Ht) as [H1 H2].
  pose proof (formatSrtTime_near t k Hk (fl_nearMillis t k Hk Ht)) as Ft.
  pose proof (formatSrtTime_near q k Hk (nearMillis_weaken q k (-34) ltac:(lia) Hq Hq0))
    as Fq.
  split; [|done]. split; [|by rewrite Ft, Fq].
  assert (pow2 (-33) == 1 # 8589934592)%Q as -> by reflexivity.
  assert (pow2 (-34) == 1 # 17179869184)%Q as P34 by reflexivity.
  assert (pow2 (-35) == 1 # 34359738368)%Q as P35 by reflexivity.
  rewrite P34 in Hq. rewrite P35 in H1.
  apply Qabs_Qle_condition in Hq, H1. apply Qabs_Qle_condition. lra.
Qed.


Lemma digit_isDigit z : 0 ≤ z ≤ 9 → isDigit (digit z) = true.
Proof. intros Hz. apply isDigit_spec. unfold digit, zero. lia. Qed.

Lemma digit_value z : 0 ≤ z ≤ 9 → Z.of_N (digit z) - 48 = z.
Proof. intros Hz. unfold digit, zero. lia. Qed.

Section stamp_digits.
Context (a b c d e f g h i : N).
Context (Ha : isDigit a = true) (Hb : isDigit b = true) (Hc : isDigit c = true)
  (Hd : isDigit d = true) (He : isDigit e = true) (Hf : isDigit f = true)
  (Hg : isDigit g = true) (Hh : isDigit h = true) (Hi : isDigit i = true).

Lemma matchAtoms_stamp rest :
  matchAtoms stamp (stampChars a b c d e f g h i ++ rest)
  = Some (stampChars a b c d e f g h i, rest).
Proof.
  unfold stamp, stampChars. simpl.
  rewrite Ha, Hb, Hc, Hd, He, Hf, Hg, Hh, Hi. done.
Qed.

Lemma digit_neq x sep :
  isDigit x = true → (sep < 48 ∨ 57 < sep)%N → (x =? sep)%N = false.
Proof. rewrite isDigit_spec. intros Hx Hs. apply N.eqb_neq. lia. Qed.

Lemma parseInt_digits ds :
  ds ≠ [] → Forall (λ x, isDigit x = true) ds →
  parseInt ds = Some (digitsValue ds).
Proof.
  intros Hne Hds. unfold parseInt, trimStart.
  destruct ds as [|x ds]; [done|].
  apply Forall_cons in Hds as [Hx Hds].
  rewrite dropWhile_id by (by apply isDigit_not_space).
  rewrite !(digit_neq x) by (done || (unfold minus, plus; lia)).
  assert (takeWhile isDigit (x :: ds) = x :: ds) as ->.
  { simpl. rewrite Hx. f_equal. clear Hne Hx.
    induction Hds as [|y ds Hy _ IH]; simpl; [done|]. by rewrite Hy, IH. }
  f_equal. lia.
Qed.

Lemma splitOn_colon_stamp :
  splitOn colon (stampChars a b c d e f g h i)
  = [[a; b]; [c; d]; [e; f; comma; g; h; i]].
Proof.
  unfold stampChars. simpl.
  rewrite !(digit_neq _ colon) by (done || (unfold colon; lia)). done.
Qed.

Lemma splitOn_comma_stamp :
  splitOn comma [e; f; comma; g; h; i] = [[e; f]; [g; h; i]].
Proof.
  simpl. rewrite !(digit_neq _ comma) by (done || (unfold comma; lia)). done.
Qed.

Lemma digitsValue_two x y : digitsValue [x; y] = pair10 x y.
Proof. unfold digitsValue, pair10. simpl. lia. Qed.

Lemma digitsValue_three x y z : digitsValue [x; y; z] = triple10 x y z.
Proof. unfold digitsValue, triple10. simpl. lia. Qed.

Lemma parseSrtTime_stamp :
  parseSrtTime (stampChars a b c d e f g h i)
  = Some (add (add (add (mul (number (pair10 a b)) 3600)
                        (mul (number (pair10 c d)) 60))
                   (number (pair10 e f)))
              (div (number (triple10 g h i)) 1000)).
Proof.
  unfold parseSrtTime. rewrite splitOn_colon_stamp.
  change ([[a; b]; [c; d]; [e; f; comma; g; h; i]] !! 2%nat)
    with (Some [e; f; comma; g; h; i]).
  cbn [mbind option_bind]. rewrite splitOn_comma_stamp.
  unfold parseIntAt.
  change ([[a; b]; [c; d]; [e; f; comma; g; h; i]] !! 0%nat) with (Some [a; b]).
  change ([[a; b]; [c; d]; [e; f; comma; g; h; i]] !! 1%nat) with (Some [c; d]).
  change ([[e; f]; [g; h; i]] !! 0%nat) with (Some [e; f]).
  change ([[e; f]; [g; h; i]] !! 1%nat) with (Some [g; h; i]).
  cbn [mbind option_bind].
  rewrite !parseInt_digits by (done || by repeat constructor).
  cbn [mbind option_bind].
  by rewrite !digitsValue_two, digitsValue_three.
Qed.

End stamp_digits.

Lemma stampOf_chars k :
  stampOf k =
  stampChars (digit (k / 3600000 / 10)) (digit ((k / 3600000) mod 10))
    (digit (k mod 3600000 / 60000 / 10)) (digit ((k mod 3600000 / 60000) mod 10))
    (digit (k mod 60000 / 1000 / 10)) (digit ((k mod 60000 / 1000) mod 10))
    (digit (k mod 1000 / 100)) (digit ((k mod 1000 / 10) mod 10))
    (digit ((k mod 1000) mod 10)).
Proof. reflexivity. Qed.

Lemma matchAtoms_stampOf k rest :
  0 ≤ k < 360000000 →
  matchAtoms stamp (stampOf k ++ rest) = Some (stampOf k, rest).
Proof.
  intros Hk. rewrite stampOf_chars.
  apply matchAtoms_stamp; apply digit_isDigit; zdiv.
Qed.

(** The value of a time stamp: the sum of [parseSrtTime] is exact up to
    its last addition and the division of the milliseconds. *)
Lemma stampNumber_near (hh mm ss ms : Z) :
  0 ≤ hh ≤ 99 → 0 ≤ mm ≤ 99 → 0 ≤ ss ≤ 99 → 0 ≤ ms ≤ 999 →
  let k := hh * 3600000 + mm * 60000 + ss * 1000 + ms in
  let q := add (add (add (mul (number hh) 3600) (mul (number mm) 60))
                    (number ss))
               (div (number ms) 1000) in
  (Qabs (q - (k # 1000)) <= pow2 (-34))%Q ∧ (k mod 1000 = 0 → q == k # 1000).
Proof.
  intros Hh Hm Hs Hms k q.
  assert (2 ^ 53 = 9007199254740992) as H53 by reflexivity.
  assert (number hh == inject_Z hh)%Q as Ehh by (apply fl_Z; [lia | done]).
  assert (number mm == inject_Z mm)%Q as Emm by (apply fl_Z; [lia | done]).
  assert (number ss == inject_Z ss)%Q as Ess by (apply fl_Z; [lia | done]).
  assert (number ms == inject_Z ms)%Q as Ems by (apply fl_Z; [lia | done]).
  assert (mul (number hh) 3600 == inject_Z (hh * 3600))%Q as Eh.
  { apply fl_Z; [lia|]. by rewrite Ehh, inject_Z_mult. }
  assert (mul (number mm) 60 == inject_Z (mm * 60))%Q as Em.
  { apply fl_Z; [lia|]. by rewrite Emm, inject_Z_mult. }
  assert (add (mul (number hh) 3600) (mul (number mm) 60)
          == inject_Z (hh * 3600 + mm * 60))%Q as Ehm.
  { apply fl_Z; [lia|]. by rewrite Eh, Em, inject_Z_plus. }
  set (S := hh * 3600 + mm * 60 + ss).
  assert (add (add (mul (number hh) 3600) (mul (number mm) 60)) (number ss)
          == inject_Z S)%Q as ES.
  { apply fl_Z; [lia|]. by rewrite Ehm, Ess, <- inject_Z_plus. }
  assert (k # 1000 == inject_Z S + inject_Z ms * (1 # 1000))%Q as Ek.
  { rewrite (Qmake_1000 k). subst k S.
    rewrite !inject_Z_plus, !inject_Z_mult. ring. }
  assert (0 <= inject_Z S <= 362439)%Q as HS.
  { change 0%Q with (inject_Z 0). change 362439%Q with (inject_Z 362439).
    rewrite <- !Zle_Qle. lia. }
  assert (q == fl (inject_Z S + div (number ms) 1000))%Q as Eq.
  { subst q. unfold add at 1. by rewrite ES. }
  destruct (decide (ms = 0)) as [->|Hms0].
  - assert (div (number 0) 1000 == 0)%Q as Ed by reflexivity.
    assert (q == inject_Z S)%Q as Eq'.
    { rewrite Eq. apply fl_Z; [lia|]. rewrite Ed. ring. }
    split.
    + rewrite Eq', Ek. apply Qabs_Qle_condition.
      assert (pow2 (-34) == 1 # 17179869184)%Q as -> by reflexivity.
      change (inject_Z 0) with 0%Q. lra.
    + intros _. rewrite Eq', Ek. change (inject_Z 0) with 0%Q. ring.
  - assert (1 <= inject_Z ms <= 999)%Q as Hms'.
    { change 1%Q with (inject_Z 1). change 999%Q with (inject_Z 999).
      rewrite <- !Zle_Qle. lia. }
    set (x := (inject_Z ms * (1 # 1000))%Q).
    assert (div (number ms) 1000 == fl x)%Q as Ed.
    { unfold div. rewrite Ems. subst x. apply fl_comp. field. }
    assert (pow2 0 == 1)%Q as P0 by reflexivity.
    assert (pow2 (0 - 54) == 1 # 18014398509481984)%Q as P54 by reflexivity.
    assert (pow2 19 == 524288)%Q as P19 by reflexivity.
    assert (pow2 (19 - 54) == 1 # 34359738368)%Q as P35 by reflexivity.
    assert (pow2 (-34) == 1 # 17179869184)%Q as P34 by reflexivity.
    pose proof (fl_error x 0) as Hx. rewrite P0, P54 in Hx.
    specialize (Hx ltac:(subst x; lra) ltac:(subst x; lra) ltac:(lia)).
    apply Qabs_Qle_condition in Hx.
    pose proof (fl_error (inject_Z S + fl x) 19) as Hy. rewrite P19, P35 in Hy.
    specialize (Hy ltac:(subst x; lra) ltac:(subst x; lra) ltac:(lia)).
    apply Qabs_Qle_condition in Hy.
    split.
    + rewrite Eq, Ed, Ek, P34. fold x. apply Qabs_Qle_condition. lra.
    + intros H0. exfalso. subst k. zdiv.
Qed.

Lemma parseSrtTime_stampOf k :
  0 ≤ k < 360000000 →
  ∃ q, parseSrtTime (stampOf k) = Some q ∧
       (Qabs (q - (k # 1000)) <= pow2 (-34))%Q ∧
       (k mod 1000 = 0 → q == k # 1000).
Proof.
  intros Hk. rewrite stampOf_chars. eexists. split.
  - apply parseSrtTime_stamp; apply digit_isDigit; zdiv.
  - unfold pair10, triple10. rewrite !digit_value by zdiv.
    set (hh := k / 3600000). set (mm := k mod 3600000 / 60000).
    set (ss := k mod 60000 / 1000). set (ms := k mod 1000).
    assert (k = hh * 3600000 + mm * 60000 + ss * 1000 + ms) as Hsum
      by (subst hh mm ss ms; zdiv).
    assert (hh / 10 * 10 + hh mod 10 = hh) as -> by zdiv.
    assert (mm / 10 * 10 + mm mod 10 = mm) as -> by zdiv.
    assert (ss / 10 * 10 + ss mod 10 = ss) as -> by zdiv.
    assert ((ms / 100 * 10 + ms / 10 mod 10) * 10 + ms mod 10 = ms) as -> by zdiv.
    pose proof (stampNumber_near hh mm ss ms) as H. cbv zeta in H.
    rewrite <- Hsum in H. apply H; subst hh mm ss ms; zdiv.
Qed.

(** **** What the pattern captures *)

Lemma matchAtoms_stamp_inv s g r :
  matchAtoms stamp s = Some (g, r) →
  ∃ a b c d e f g' h i,
    g = stampChars a b c d e f g' h i ∧
    Forall (λ x, isDigit x = true) [a; b; c; d; e; f; g'; h; i].
Proof.
  unfold stamp. intros H.
  repeat (destruct s as [|? s]; [done|];
          cbn [matchAtoms] in H;
          match type of H with
          | context [atomMatches ?a ?c] =>
              destruct (atomMatches a c) eqn:?; [|done]
          end).
  cbn [matchAtoms mbind option_bind] in H. injection H as <- <-.
  cbn [atomMatches] in *.
  repeat match goal with
         | H : (_ =? _)%N = true |- _ => apply N.eqb_eq in H; subst
         end.
  eexists _, _, _, _, _, _, _, _, _. split; [reflexivity|].
  by repeat constructor.
Qed.

Lemma parseSrtTime_total s g r :
  matchAtoms stamp s = Some (g, r) → is_Some (parseSrtTime g).
Proof.
  intros H. apply matchAtoms_stamp_inv in H
    as (a & b & c & d & e & f & g' & h & i & -> & Hd).
  repeat (apply Forall_cons in Hd as [? Hd]).
  rewrite parseSrtTime_stamp by done. eauto.
Qed.

(** The time stamps captured by the pattern always parse: the [None]
    branches of [parseBlock] after a match are never taken. *)
Lemma timeMatch_parses s g1 g2 :
  timeMatch s = Some (g1, g2) →
  is_Some (parseSrtTime g1) ∧ is_Some (parseSrtTime g2).
Proof.
  induction s as [|c s IH]; cbn [timeMatch].
  - destruct (timeMatchAt []) as [m|] eqn:E; [|done]. done.
  - destruct (timeMatchAt (c :: s)) as [m|] eqn:E; [|exact IH].
    intros [= ->]. unfold timeMatchAt in E.
    destruct (matchAtoms stamp (c :: s)) as [[h1 r1]|] eqn:E1; [|done].
    cbn [mbind option_bind] in E.
    destruct (stripPrefix _ _) as [r2|]; [|done].
    cbn [mbind option_bind] in E.
    destruct (matchAtoms stamp (dropWhile isWhiteSpace r2)) as [[h2 r3]|] eqn:E2;
      [|done].
    cbn [mbind option_bind] in E. injection E as <- <-.
    split; by eapply parseSrtTime_total.
Qed.

(** **** Lines *)
Lemma splitOn_nonempty sep s : splitOn sep s ≠ [].
Proof.
  destruct s as [|c s]; simpl; [done|].
  destruct (c =? sep)%N; [done|]. by destruct (splitOn sep s).
Qed.

Lemma splitOn_app_sep sep a b :
  splitOn sep (a ++ sep :: b) = splitOn sep a ++ splitOn sep b.
Proof.
  induction a as [|c a IH]; simpl.
  - by rewrite N.eqb_refl.
  - destruct (c =? sep)%N; [by rewrite IH|]. rewrite IH.
    pose proof (splitOn_nonempty sep a).
    by destruct (splitOn sep a).
Qed.

Lemma splitOn_nosep sep a : Forall (λ c, c ≠ sep) a → splitOn sep a = [a].
Proof.
  induction 1 as [|c a Hc _ IH]; simpl; [done|].
  rewrite (proj2 (N.eqb_neq _ _) Hc). by rewrite IH.
Qed.

Lemma join_splitOn sep s : join sep (splitOn sep s) = s.
Proof.
  induction s as [|c s IH]; simpl; [done|].
  pose proof (splitOn_nonempty sep s) as Hne.
  destruct (N.eqb_spec c sep) as [->|Hc].
  - destruct (splitOn sep s) as [|l ls]; [done|]. cbn [join app].
    by rewrite <- IH.
  - destruct (splitOn sep s) as [|l ls]; [done|].
    rewrite <- IH. by destruct ls.
Qed.

(** **** Substrings *)
Lemma includes_startsWith pat s : startsWith pat s = true → includes pat s = true.
Proof. intros H. destruct s; simpl in *; by rewrite H. Qed.

Lemma includes_app_r pat a s : includes pat s = true → includes pat (a ++ s) = true.
Proof.
  intros H. induction a as [|c a IH]; simpl; [done|].
  rewrite IH. apply orb_true_r.
Qed.

Lemma includes_arrow_digits s :
  Forall (λ c, isDigit c = true) s → includes (lit "-->") s = false.
Proof.
  induction 1 as [|c s Hc _ IH]; [done|].
  cbn [includes]. rewrite IH, orb_false_r.
  change (lit "-->") with [45; 45; 62]%N. cbn [startsWith].
  apply isDigit_spec in Hc.
  rewrite (proj2 (N.eqb_neq 45 c)) by lia. done.
Qed.

(** **** Trimming *)
Lemma trimEnd_app_empty a b : trimEnd b = [] → trimEnd (a ++ b) = trimEnd a.
Proof. intros Hb. induction a as [|c a IH]; simpl; [done|]. by rewrite IH. Qed.

Lemma trimEnd_app_nonempty a b : trimEnd b ≠ [] → trimEnd (a ++ b) = a ++ trimEnd b.
Proof.
  intros Hb. induction a as [|c a IH]; simpl; [done|]. rewrite IH.
  destruct (a ++ trimEnd b) eqn:E; [|done].
  apply app_eq_nil in E as [_ E]. done.
Qed.

Lemma trimEnd_blank w : Forall (λ c, isWhiteSpace c = true) w → trimEnd w = [].
Proof. induction 1 as [|c w Hc _ IH]; simpl; [done|]. by rewrite IH, Hc. Qed.

Lemma trimEnd_snoc s c : isWhiteSpace c = false → trimEnd (s ++ [c]) = s ++ [c].
Proof.
  intros Hc. rewrite trimEnd_app_nonempty; simpl; rewrite Hc; done.
Qed.

Lemma trim_fixed_head s :
  trim s = s → s ≠ [] → ∃ c s', s = c :: s' ∧ isWhiteSpace c = false.
Proof.
  unfold trim, trimStart. intros Hs Hne.
  destruct (dropWhile isWhiteSpace s) as [|c u] eqn:Hd.
  - simpl in Hs. congruence.
  - apply dropWhile_head in Hd.
    destruct (trimEnd_head c u Hd) as [t Ht]. rewrite Ht in Hs. eauto.
Qed.

Lemma trimEnd_fixed_last s :
  trimEnd s = s → s ≠ [] → ∃ s' c, s = s' ++ [c] ∧ isWhiteSpace c = false.
Proof.
  induction s as [|c s IH]; [done|]. simpl. intros Hs _.
  destruct (trimEnd s) as [|d t] eqn:Ht.
  - destruct (isWhiteSpace c) eqn:Hc; [done|].
    injection Hs as <-. by exists [], c.
  - injection Hs as Hs. destruct IH as (s' & c' & -> & Hc'); [done | by subst |].
    by exists (c :: s'), c'.
Qed.

Lemma trim_fixed_last s :
  trim s = s → s ≠ [] → ∃ s' c, s = s' ++ [c] ∧ isWhiteSpace c = false.
Proof.
  intros Hs Hne. destruct (trim_fixed_head s Hs Hne) as (c & s' & -> & Hc).
  unfold trim, trimStart in Hs. rewrite dropWhile_id in Hs by done.
  by apply trimEnd_fixed_last.
Qed.

(** **** CR LF pairs *)
Lemma replaceCrLf_id s : includes [CR; LF] s = false → replaceCrLf s = s.
Proof.
  induction s as [|c s IH]; [done|].
  cbn [includes startsWith replaceCrLf].
  intros H. apply orb_false_iff in H as [H1 H2].
  rewrite (N.eqb_sym c CR), H1. by rewrite IH.
Qed.

Lemma includes_crlf_plain a b :
  Forall (λ c, c ≠ CR) a → includes [CR; LF] (a ++ b) = includes [CR; LF] b.
Proof.
  induction 1 as [|c a Hc _ IH]; [done|].
  cbn [app includes startsWith].
  rewrite (proj2 (N.eqb_neq CR c)) by done. by rewrite IH.
Qed.

Lemma includes_crlf_app s c b :
  includes [CR; LF] (s ++ [c]) = false → c ≠ CR →
  includes [CR; LF] ((s ++ [c]) ++ b) = includes [CR; LF] b.
Proof.
  intros Hs Hc. induction s as [|x s IH].
  - cbn [app includes startsWith].
    by rewrite (proj2 (N.eqb_neq CR c)) by done.
  - revert Hs. cbn [app includes startsWith].
    intros Hs. apply orb_false_iff in Hs as [H1 H2].
    rewrite IH by done.
    destruct (CR =? x)%N; [|done]. simpl in *.
    destruct s; simpl in *; by rewrite H1.
Qed.

(** **** Blocks *)

Lemma clean_tail c s : clean (c :: s) → clean s.
Proof. intros H pre t ->. apply (H (c :: pre) t). done. Qed.

Lemma takeWhile_app_stop w c t :
  Forall (λ x, isWhiteSpace x = true ∧ x ≠ LF) w → isWhiteSpace c = false →
  takeWhile isWhiteSpace (w ++ c :: t) = w.
Proof.
  intros Hw Hc. induction Hw as [|x w [Hx _] _ IH]; simpl.
  - by rewrite Hc.
  - by rewrite Hx, IH.
Qed.

Lemma lastLF_none w :
  Forall (λ x, isWhiteSpace x = true ∧ x ≠ LF) w → lastLF w = None.
Proof.
  induction 1 as [|x w [_ Hx] _ IH]; simpl; [done|].
  rewrite IH. by rewrite (proj2 (N.eqb_neq _ _) Hx).
Qed.

Lemma sepMatch_clean s rest : clean s → s ≠ [] → sepMatch (s ++ rest) = None.
Proof.
  intros Hs Hne. destruct s as [|c s]; [done|]. simpl.
  destruct (N.eqb_spec c LF) as [->|Hc]; [|done].
  destruct (Hs [] s eq_refl) as (w & d & t' & -> & Hw & Hd).
  rewrite <- app_assoc. simpl.
  by rewrite takeWhile_app_stop, lastLF_none.
Qed.

Lemma splitSepFrom_clean cur s rest :
  clean s → splitSepFrom 0 cur (s ++ rest) = splitSepFrom 0 (cur ++ s) rest.
Proof.
  revert cur. induction s as [|c s IH]; intros cur Hs.
  - by rewrite app_nil_r.
  - change ((c :: s) ++ rest) with (c :: (s ++ rest)). cbn [splitSepFrom].
    change (c :: (s ++ rest)) with ((c :: s) ++ rest).
    rewrite sepMatch_clean by done.
    rewrite IH by (by eapply clean_tail).
    by rewrite <- app_assoc.
Qed.

Lemma isWhiteSpace_LF : isWhiteSpace LF = true.
Proof. reflexivity. Qed.

Lemma splitSepFrom_sep cur c r :
  isWhiteSpace c = false →
  splitSepFrom 0 cur (LF :: LF :: c :: r) = cur :: splitSepFrom 0 [] (c :: r).
Proof.
  intros Hc. cbn [splitSepFrom sepMatch].
  rewrite N.eqb_refl. cbn [takeWhile]. rewrite isWhiteSpace_LF, Hc.
  cbn [lastLF]. rewrite N.eqb_refl. done.
Qed.

Lemma joinBlocks_head b bs :
  solid b → ∃ c r, joinBlocks (b :: bs) = c :: r ∧ isWhiteSpace c = false.
Proof.
  intros (_ & c & b' & -> & Hc). destruct bs; simpl; eauto.
Qed.

Lemma splitSep_joinBlocks cur b bs :
  Forall solid (b :: bs) →
  splitSepFrom 0 cur (joinBlocks (b :: bs)) = (cur ++ b) :: bs.
Proof.
  revert cur b. induction bs as [|b' bs IH]; intros cur b Hall.
  - apply Forall_cons in Hall as [[Hb _] _]. simpl.
    rewrite <- (app_nil_r b) at 1. by rewrite splitSepFrom_clean.
  - apply Forall_cons in Hall as [[Hb _] Hall].
    change (joinBlocks (b :: b' :: bs)) with (b ++ LF :: LF :: joinBlocks (b' :: bs)).
    rewrite splitSepFrom_clean by done.
    destruct (joinBlocks_head b' bs) as (c & r & Hj & Hc).
    { by apply Forall_cons in Hall as [? _]. }
    rewrite Hj, splitSepFrom_sep by done. rewrite <- Hj.
    by rewrite IH.
Qed.

(** Cleanness of a string built from lines. *)
Lemma app_LF_inv a s pre t :
  Forall (λ c, c ≠ LF) a → a ++ LF :: s = pre ++ LF :: t →
  (pre = a ∧ t = s) ∨ (∃ pre', pre = a ++ LF :: pre' ∧ s = pre' ++ LF :: t).
Proof.
  intros Ha. revert pre. induction Ha as [|c a Hc _ IH]; intros pre H.
  - destruct pre as [|x pre]; simpl in *; simplify_eq; eauto.
  - destruct pre as [|x pre]; simpl in *; simplify_eq.
    destruct (IH pre) as [[-> ->] | (pre' & -> & ->)]; eauto.
Qed.

Lemma clean_line_then a c s :
  Forall (λ x, x ≠ LF) a → isWhiteSpace c = false → clean (c :: s) →
  clean (a ++ LF :: c :: s).
Proof.
  intros Ha Hc Hs pre t H.
  apply app_LF_inv in H as [[-> ->] | (pre' & -> & H)]; [|by eauto|done].
  exists [], c, s. by repeat split.
Qed.

Lemma first_line_nonblank t l ls :
  splitOn LF t = l :: ls → ¬ Forall (λ c, isWhiteSpace c = true) l →
  ∃ w c t', t = w ++ c :: t' ∧
    Forall (λ x, isWhiteSpace x = true ∧ x ≠ LF) w ∧ isWhiteSpace c = false.
Proof.
  revert l ls. induction t as [|x t IH]; intros l ls; simpl.
  - intros [= <- <-] H. by destruct H.
  - destruct (N.eqb_spec x LF) as [->|Hx].
    + intros [= <- <-] H. by destruct H.
    + pose proof (splitOn_nonempty LF t) as Hne.
      destruct (splitOn LF t) as [|l' ls'] eqn:E; [done|].
      intros [= <- <-] Hl.
      destruct (isWhiteSpace x) eqn:Hws.
      * destruct (IH l' ls' eq_refl) as (w & c & t' & -> & Hw & Hc).
        { intros Hl'. apply Hl. by constructor. }
        exists (x :: w), c, t'. repeat split; [by constructor | done].
      * exists [], x, t. by repeat split.
Qed.

Lemma clean_no_blank_line s :
  Forall (λ line, ¬ Forall (λ c, isWhiteSpace c = true) line) (splitOn LF s) →
  clean s.
Proof.
  intros Hs pre t ->. rewrite splitOn_app_sep in Hs.
  apply Forall_app in Hs as [_ Hs].
  pose proof (splitOn_nonempty LF t) as Hne.
  destruct (splitOn LF t) as [|l ls] eqn:E; [done|].
  apply Forall_cons in Hs as [Hl _]. by eapply first_line_nonblank.
Qed.

(** **** Export then parse *)

Lemma srtEntry_block i x : srtEntry i x = srtBlock i x ++ [LF; LF].
Proof.
  unfold srtEntry, srtBlock.
  repeat (rewrite <- app_assoc || rewrite <- app_comm_cons). done.
Qed.

Lemma digit_plain c : isDigit c = true → plain c.
Proof. rewrite isDigit_spec. unfold plain, LF, CR. lia. Qed.

Lemma stampOf_plain k : 0 ≤ k < 360000000 → Forall plain (stampOf k).
Proof.
  intros Hk. rewrite stampOf_chars. unfold stampChars.
  repeat (apply Forall_cons; split);
    try (apply digit_plain, digit_isDigit; zdiv);
    try (by unfold plain); apply Forall_nil.
Qed.

Lemma stampOf_head k :
  0 ≤ k < 360000000 → ∃ c r, stampOf k = c :: r ∧ isDigit c = true.
Proof.
  intros Hk. rewrite stampOf_chars. unfold stampChars.
  eexists _, _. split; [done|]. apply digit_isDigit. zdiv.
Qed.

Lemma timeLine_plain k1 k2 :
  0 ≤ k1 < 360000000 → 0 ≤ k2 < 360000000 → Forall plain (timeLine k1 k2).
Proof.
  intros H1 H2. unfold timeLine. rewrite !Forall_app.
  split; [by apply stampOf_plain|]. split; [|by apply stampOf_plain].
  by repeat constructor.
Qed.

Lemma timeMatch_at s m : timeMatchAt s = Some m → timeMatch s = Some m.
Proof. intros H. destruct s; cbn [timeMatch]; by rewrite H. Qed.

Lemma timeMatch_timeLine k1 k2 :
  0 ≤ k1 < 360000000 → 0 ≤ k2 < 360000000 →
  timeMatch (timeLine k1 k2) = Some (stampOf k1, stampOf k2).
Proof.
  intros H1 H2. apply timeMatch_at. unfold timeMatchAt, timeLine.
  rewrite matchAtoms_stampOf by done. cbn [mbind option_bind].
  change (lit " --> ") with [32; 45; 45; 62; 32]%N.
  change (lit "-->") with [45; 45; 62]%N.
  cbn [app dropWhile]. change (isWhiteSpace 32) with true.
  change (isWhiteSpace 45) with false. cbv iota.
  unfold stripPrefix. cbn [startsWith length drop]. rewrite !N.eqb_refl.
  cbn [andb mbind option_bind dropWhile]. change (isWhiteSpace 32) with true.
  cbv iota.
  destruct (stampOf_head k2 H2) as (c & r & Hk2 & Hc).
  rewrite Hk2 at 1. rewrite dropWhile_id by (by apply isDigit_not_space).
  rewrite <- Hk2. rewrite <- (app_nil_r (stampOf k2)) at 1.
  rewrite matchAtoms_stampOf by done. done.
Qed.

Lemma includes_arrow_timeLine k1 k2 : includes (lit "-->") (timeLine k1 k2) = true.
Proof.
  unfold timeLine. apply includes_app_r.
  change (lit " --> ") with ([32] ++ [45; 45; 62; 32])%N.
  rewrite <- app_assoc. apply includes_app_r. by apply includes_startsWith.
Qed.

Lemma parseBlock_srtBlock i x :
  exportable x →
  ∃ q1 q2, parseBlock (srtBlock i x) = Some (mkLyric (text x) q1 q2) ∧
           timesAgree q1 (startTime x) ∧ timesAgree q2 (endTime x).
Proof.
  intros (Hne & Htrim & _ & _ & (k1 & Hk1 & Hs) & (k2 & Hk2 & He)).
  destruct (parseSrtTime_stampOf k1 Hk1) as (q1 & Hq1 & Hv1 & Hz1).
  destruct (parseSrtTime_stampOf k2 Hk2) as (q2 & Hq2 & Hv2 & Hz2).
  destruct (timesAgree_millis q1 _ k1 Hk1 Hs Hv1 Hz1) as [Ha1 Hf1].
  destruct (timesAgree_millis q2 _ k2 Hk2 He Hv2 Hz2) as [Ha2 Hf2].
  exists q1, q2. split; [|done].
  unfold srtBlock. rewrite Hf1, Hf2.
  fold (timeLine k1 k2). unfold parseBlock.
  set (idx := natToString (N.of_nat (i + 1))).
  assert (splitOn LF (idx ++ LF :: timeLine k1 k2 ++ LF :: text x)
          = idx :: timeLine k1 k2 :: splitOn LF (text x)) as ->.
  { rewrite !splitOn_app_sep.
    rewrite (splitOn_nosep LF idx), (splitOn_nosep LF (timeLine k1 k2)); [done| |].
    - eapply Forall_impl; [by apply timeLine_plain|]. by intros c [? _].
    - eapply Forall_impl; [apply natToString_digits|].
      intros c Hc. by apply digit_plain in Hc as [? _]. }
  rewrite bool_decide_eq_true_2 by (simpl; lia).
  assert (findIndex (includes (lit "-->"))
            (idx :: timeLine k1 k2 :: splitOn LF (text x)) = 1) as ->.
  { unfold findIndex. cbn [findIndex_from].
    rewrite includes_arrow_digits by apply natToString_digits.
    by rewrite includes_arrow_timeLine. }
  cbn [negb Z.eqb]. unfold at_. rewrite decide_True by lia.
  change (Z.to_nat 1) with 1%nat. cbn [lookup list_lookup mbind option_bind].
  rewrite timeMatch_timeLine by done. cbn [mbind option_bind].
  rewrite Hq1, Hq2. cbn [mbind option_bind].
  change (Z.to_nat (1 + 1)) with 2%nat. cbn [drop].
  rewrite drop_0, join_splitOn, Htrim. by rewrite bool_decide_eq_true_2.
Qed.

Lemma isWhiteSpace_CR c : isWhiteSpace c = false → c ≠ CR.
Proof. by intros H ->. Qed.

Lemma exportable_block i x :
  exportable x →
  ∃ k1 k2 c s s' d,
    0 ≤ k1 < 360000000 ∧ 0 ≤ k2 < 360000000 ∧
    srtBlock i x = natToString (N.of_nat (i + 1)) ++ LF :: timeLine k1 k2 ++ LF :: text x ∧
    text x = c :: s ∧ isWhiteSpace c = false ∧
    text x = s' ++ [d] ∧ isWhiteSpace d = false.
Proof.
  intros (Hne & Htrim & _ & _ & (k1 & Hk1 & Hs) & (k2 & Hk2 & He)).
  destruct (trim_fixed_head _ Htrim Hne) as (c & s & Hc1 & Hc2).
  destruct (trim_fixed_last _ Htrim Hne) as (s' & d & Hd1 & Hd2).
  exists k1, k2, c, s, s', d. repeat split; try done; try lia.
  unfold srtBlock.
  by rewrite (formatSrtTime_near _ k1 Hk1 (fl_nearMillis _ k1 Hk1 Hs)),
    (formatSrtTime_near _ k2 Hk2 (fl_nearMillis _ k2 Hk2 He)).
Qed.

Lemma natToString_head n : ∃ c r, natToString n = c :: r ∧ isDigit c = true.
Proof.
  pose proof (natToString_nonempty n) as Hne.
  pose proof (natToString_digits n) as Hd.
  destruct (natToString n) as [|c r]; [done|].
  apply Forall_cons in Hd as [Hc _]. eauto.
Qed.

Lemma solid_srtBlock i x : exportable x → solid (srtBlock i x).
Proof.
  intros Hx.
  destruct (exportable_block i x Hx) as (k1 & k2 & c & s & _ & _ & Hk1 & Hk2 & -> & Hc1 & Hc2 & _).
  destruct Hx as (_ & _ & _ & Hlines & _).
  split.
  - destruct (stampOf_head k1 Hk1) as (c' & r' & Hst & Hc').
    assert (timeLine k1 k2 ++ LF :: text x = c' :: (r' ++ lit " --> " ++ stampOf k2) ++ LF :: text x) as Htl.
    { unfold timeLine. by rewrite Hst. }
    rewrite Htl. apply clean_line_then.
    + eapply Forall_impl; [apply natToString_digits|].
      intros y Hy. by apply digit_plain in Hy as [? _].
    + by apply isDigit_not_space.
    + rewrite <- Htl, Hc1. apply clean_line_then; [|done|].
      * eapply Forall_impl; [by apply timeLine_plain|]. by intros y [? _].
      * rewrite <- Hc1. by apply clean_no_blank_line.
  - destruct (natToString_head (N.of_nat (i + 1))) as (c' & r' & -> & Hc').
    eexists _, _. split; [done|]. by apply isDigit_not_space.
Qed.

Lemma srtBlock_last i x :
  exportable x → ∃ s d, srtBlock i x = s ++ [d] ∧ isWhiteSpace d = false.
Proof.
  intros Hx.
  destruct (exportable_block i x Hx) as (k1 & k2 & _ & _ & s' & d & _ & _ & -> & _ & _ & Hd1 & Hd2).
  rewrite Hd1.
  exists (natToString (N.of_nat (i + 1)) ++ LF :: timeLine k1 k2 ++ LF :: s'), d.
  split; [|done].
  repeat (rewrite <- app_assoc || rewrite <- app_comm_cons). done.
Qed.

Lemma solid_srtBlocks i l : Forall exportable l → Forall solid (srtBlocks i l).
Proof.
  intros Hl. revert i. induction Hl as [|x l Hx _ IH]; intros i; simpl; [done|].
  constructor; [by apply solid_srtBlock | apply IH].
Qed.

Lemma generateFrom_trimEnd i l :
  Forall exportable l → l ≠ [] →
  trimEnd (generateFrom i l) = joinBlocks (srtBlocks i l).
Proof.
  intros Hl. revert i. induction Hl as [|x l Hx Hl IH]; intros i Hne; [done|].
  cbn [generateFrom srtBlocks]. rewrite srtEntry_block.
  destruct (srtBlock_last i x Hx) as (s & d & Hb & Hd).
  destruct l as [|y l'].
  - cbn [generateFrom srtBlocks joinBlocks]. rewrite app_nil_r.
    rewrite trimEnd_app_empty by reflexivity.
    rewrite Hb. by apply trimEnd_snoc.
  - specialize (IH (S i) ltac:(done)).
    pose proof (solid_srtBlocks (S i) (y :: l') Hl) as Hsolid.
    cbn [srtBlocks] in *. apply Forall_cons in Hsolid as [Hy _].
    destruct (joinBlocks_head _ (srtBlocks (S (S i)) l') Hy) as (c & r & Hj & Hc).
    rewrite trimEnd_app_nonempty by (rewrite IH, Hj; done).
    rewrite IH. cbn [joinBlocks].
    repeat (rewrite <- app_assoc || rewrite <- app_comm_cons). done.
Qed.

Lemma generateFrom_no_crlf i l :
  Forall exportable l → includes [CR; LF] (generateFrom i l) = false.
Proof.
  intros Hl. revert i. induction Hl as [|x l Hx _ IH]; intros i; [done|].
  cbn [generateFrom]. rewrite srtEntry_block.
  destruct (exportable_block i x Hx) as (k1 & k2 & _ & _ & s' & d & Hk1 & Hk2 & -> & _ & _ & Hd1 & Hd2).
  destruct Hx as (_ & _ & Hcrlf & _).
  replace (((natToString (N.of_nat (i + 1)) ++ LF :: timeLine k1 k2 ++ LF :: text x)
            ++ [LF; LF]) ++ generateFrom (S i) l)
    with ((natToString (N.of_nat (i + 1)) ++ LF :: timeLine k1 k2 ++ [LF])
            ++ (text x ++ ([LF; LF] ++ generateFrom (S i) l)))
    by (repeat (rewrite <- app_assoc || rewrite <- app_comm_cons); done).
  rewrite includes_crlf_plain.
  - rewrite Hd1 in Hcrlf |- *.
    rewrite includes_crlf_app by (done || by apply isWhiteSpace_CR).
    rewrite includes_crlf_plain; [apply IH|]. by repeat constructor.
  - rewrite Forall_app. split.
    + eapply Forall_impl; [apply natToString_digits|].
      intros y Hy. by apply digit_plain in Hy as [_ ?].
    + constructor; [done|]. rewrite Forall_app. split; [|by repeat constructor].
      eapply Forall_impl; [by apply timeLine_plain|]. by intros y [_ ?].
Qed.

Lemma omap_srtBlocks i l :
  Forall exportable l → Forall2 lyricsAgree (omap parseBlock (srtBlocks i l)) l.
Proof.
  intros Hl. revert i. induction Hl as [|x l Hx _ IH]; intros i; [constructor|].
  cbn [srtBlocks omap list_omap].
  destruct (parseBlock_srtBlock i x Hx) as (q1 & q2 & -> & H1 & H2).
  constructor; [|apply IH]. split; [done|]. by split.
Qed.

Lemma parseSrt_generateSrtContent l :
  Forall exportable l →
  Forall2 lyricsAgree (parseSrt (generateSrtContent l)) l.
Proof.
  intros Hl. destruct l as [|x l]; [constructor|].
  unfold parseSrt, blocks, generateSrtContent.
  rewrite replaceCrLf_id by (by apply generateFrom_no_crlf).
  assert (trim (generateFrom 0 (x :: l)) = joinBlocks (srtBlocks 0 (x :: l))) as ->.
  { assert (trimStart (generateFrom 0 (x :: l)) = generateFrom 0 (x :: l))
      as Hstart by reflexivity.
    unfold trim. rewrite Hstart. by apply generateFrom_trimEnd. }
  pose proof (solid_srtBlocks 0 (x :: l) Hl) as Hsolid.
  unfold splitSep. cbn [srtBlocks] in *.
  rewrite splitSep_joinBlocks by done. rewrite app_nil_l.
  by apply (omap_srtBlocks 0 (x :: l)).
Qed.

(** Lyrics that agree are exported alike. *)
Lemma generateFrom_agree i l l' :
  Forall2 lyricsAgree l' l → generateFrom i l' = generateFrom i l.
Proof.
  intros H. revert i.
  induction H as [|x' x l' l (Ht & (_ & Hs) & (_ & He)) _ IH]; intros i; [done|].
  cbn [generateFrom]. unfold srtEntry. by rewrite Ht, Hs, He, IH.
Qed.

(** C3, as amended: for a non-empty list of lyrics whose texts are not
    empty, have no leading or trailing white space, no CR LF pair, no
    blank line and no line containing [-->], and whose times are the
    Numbers of whole milliseconds from 0 and below 100 hours, parsing
    the generated SRT content returns as many lyrics, with the same
    texts and with times that agree with the original ones: they differ
    by [2^-33] seconds at most and denote the same milliseconds, so that
    generating the SRT content from the result gives the same content
    again.  (The times need not be equal as Numbers: [1.118] comes back
    as [1.1179999999999999].) *)
Theorem parseSrt_generateSrtContent_roundtrip (l : list TimedLyric) :
  l ≠ [] → Forall roundTrips l →
  Forall2 lyricsAgree (parseSrt (generateSrtContent l)) l ∧
  generateSrtContent (parseSrt (generateSrtContent l)) = generateSrtContent l.
Proof.
  intros _ Hl.
  assert (Forall2 lyricsAgree (parseSrt (generateSrtContent l)) l) as H.
  { apply parseSrt_generateSrtContent.
    eapply Forall_impl; [exact Hl|]. by intros x [Hx _]. }
  split; [exact H|]. by apply generateFrom_agree.
Qed.

(** A check that no line is blank, and that a concrete time is a whole
    number of milliseconds. *)
Lemma no_blank_line_check s :
  forallb (existsb (λ c, negb (isWhiteSpace c))) (splitOn LF s) = true →
  Forall (λ line, ¬ blank line) (splitOn LF s).
Proof.
  intros H. apply Forall_forall. intros line Hin Hb.
  rewrite forallb_forall in H. apply list_elem_of_In in Hin.
  apply H, existsb_exists in Hin as (c & Hc & Hvis).
  unfold blank in Hb. rewrite Forall_forall in Hb.
  apply list_elem_of_In in Hc. rewrite (Hb c Hc) in Hvis. done.
Qed.

Ltac whole_millis k := exists k; split; [lia | vm_compute; reflexivity].

Lemma parseSrt_generateSrtContent_roundtrip_witness :
  let l := [mkLyric (lit "hello") 0 (fl (1118 # 1000));
            mkLyric (lit "two words" ++ LF :: lit "second line")
              (fl (3723456 # 1000)) 3724] in
  Forall2 lyricsAgree (parseSrt (generateSrtContent l)) l ∧
  generateSrtContent (parseSrt (generateSrtContent l)) = generateSrtContent l.
Proof.
  intros l. apply parseSrt_generateSrtContent_roundtrip; [discriminate|].
  apply Forall_cons_2; [|apply Forall_cons_2; [|apply Forall_nil_2]].
  - split; [|by repeat constructor].
    split; [discriminate|]. split; [reflexivity|]. split; [reflexivity|].
    split; [by apply no_blank_line_check|].
    split; [whole_millis 0 | whole_millis 1118].
  - split; [|by repeat constructor].
    split; [discriminate|]. split; [reflexivity|]. split; [reflexivity|].
    split; [by apply no_blank_line_check|].
    split; [whole_millis 3723456 | whole_millis 3724000].
Defined.

Lemma sameLyric_texts l l' :
  Forall2 sameLyric l l' → text <$> l = text <$> l'.
Proof.
  induction 1 as [|x y l l' (Hx & _) _ IH]; [done|].
  cbn [fmap list_fmap]. f_equal; [done | exact IH].
Qed.

Lemma sameLyric_startTimes l l' :
  Forall2 sameLyric l l' → Forall2 Qeq (startTime <$> l) (startTime <$> l').
Proof.
  induction 1 as [|x y l l' (_ & Hx & _) _ IH]; [constructor|].
  cbn [fmap list_fmap]. by constructor.
Qed.

(** The round trip does not return the original list in general.
    Without the conditions on white space at the ends and on CR LF pairs
    the text changes: [" a"] comes back as ["a"], and ["a\r\nb"] comes
    back as ["a\nb"].  And a time need not come back as the same Number:
    the start time [1.118] is written as [00:00:01,118], which is parsed
    to [1 + 118 / 1000 = 1.1179999999999999]. *)
Lemma roundtrip_changes_lyric :
  let spaced := mkLyric (lit " a") 0 1 in
  let crlf := mkLyric [97; CR; LF; 98]%N 0 1 in
  let timed := mkLyric (lit "a") (fl (1118 # 1000)) 2 in
  (roundTripsAsStated spaced ∧
   text <$> parseSrt (generateSrtContent [spaced]) = [lit "a"] ∧
   ¬ Forall2 sameLyric (parseSrt (generateSrtContent [spaced])) [spaced]) ∧
  (roundTripsAsStated crlf ∧
   text <$> parseSrt (generateSrtContent [crlf]) = [[97; LF; 98]%N] ∧
   ¬ Forall2 sameLyric (parseSrt (generateSrtContent [crlf])) [crlf]) ∧
  (roundTrips timed ∧
   generateSrtContent [timed]
   = lit "1" ++ LF :: lit "00:00:01,118 --> 00:00:02,000" ++ LF ::
     lit "a" ++ [LF; LF] ∧
   startTime <$> parseSrt (generateSrtContent [timed])
   = [add 1 (div 118 1000)] ∧
   (add 1 (div 118 1000) < fl (1118 # 1000))%Q ∧
   ¬ Forall2 sameLyric (parseSrt (generateSrtContent [timed])) [timed]).
Proof.
  intros spaced crlf timed.
  assert (text <$> parseSrt (generateSrtContent [spaced]) = [lit "a"]) as Hspaced
    by (vm_compute; reflexivity).
  assert (text <$> parseSrt (generateSrtContent [crlf]) = [[97; LF; 98]%N])
    as Hcrlf by (vm_compute; reflexivity).
  assert (startTime <$> parseSrt (generateSrtContent [timed])
          = [add 1 (div 118 1000)]) as Htimed by (vm_compute; reflexivity).
  assert (add 1 (div 118 1000) < fl (1118 # 1000))%Q as Hlt
    by (vm_compute; reflexivity).
  split; [|split].
  - split; [|split; [exact Hspaced|]].
    + split; [discriminate|]. split; [|split; [by repeat constructor|]].
      * by apply no_blank_line_check.
      * split; [whole_millis 0 | whole_millis 1000].
    + intros H. apply sameLyric_texts in H. rewrite Hspaced in H.
      discriminate H.
  - split; [|split; [exact Hcrlf|]].
    + split; [discriminate|]. split; [|split; [by repeat constructor|]].
      * by apply no_blank_line_check.
      * split; [whole_millis 0 | whole_millis 1000].
    + intros H. apply sameLyric_texts in H. rewrite Hcrlf in H.
      discriminate H.
  - split; [|split; [|split; [exact Htimed|split; [exact Hlt|]]]].
    + split; [|by repeat constructor].
      split; [discriminate|]. split; [reflexivity|]. split; [reflexivity|].
      split; [by apply no_blank_line_check|].
      split; [whole_millis 1118 | whole_millis 2000].
    + vm_compute. reflexivity.
    + intros H. apply sameLyric_startTimes in H. rewrite Htimed in H.
      apply Forall2_cons_1 in H as [H _].
      apply (Qlt_not_eq _ _ Hlt). exact H.
Qed.

End srt_roundtrip.

(** *** The range and the order of the lyric index *)

Section index_range.
Import VideoPlayer.

Lemma lyricsToRender_length tl :
  tl ≠ [] → length (lyricsToRender tl) = (length tl + 4)%nat.
Proof.
  destruct tl as [|a tl]; [done|]. intros _. unfold lyricsToRender.
  rewrite !length_app. simpl. lia.
Qed.

Lemma findIndex_bounds {A} (p : A → bool) (l : list A) :
  -1 ≤ Js.findIndex p l < Z.of_nat (length l).
Proof.
  unfold Js.findIndex.
  destruct (findIndex_from_range p l 0) as [[-> _] | (i & x & -> & Hi & _)]; [lia | lia |].
  apply lookup_lt_Some in Hi. lia.
Qed.

Lemma lastPassedLoop_bounds t l :
  -1 ≤ lastPassedLoop t l 0 (-1) < Z.of_nat (length l).
Proof.
  destruct (lastPassedLoop_spec t l 0 (-1)) as [[-> _] | (k & Hk & -> & _)]; lia.
Qed.

Lemma currentIndex_bounds tl t playing :
  1 ≤ currentIndex t playing tl ≤ Z.of_nat (length tl) + 2.
Proof.
  unfold currentIndex. destruct (Qeq_bool t 0 && negb playing); [lia|].
  pose proof (findIndex_bounds (isActive t) tl).
  pose proof (lastPassedLoop_bounds t tl).
  destruct (Z.eqb_spec (Js.findIndex (isActive t) tl) (-1)); simpl; [|lia].
  destruct (afterLast t tl); [lia|].
  destruct (Z.eqb_spec (lastPassedLoop t tl 0 (-1)) (-1)); simpl; lia.
Qed.

Lemma canvasCurrentIndex_bounds tl t :
  1 ≤ canvasCurrentIndex t tl ≤ Z.of_nat (length tl) + 2.
Proof.
  unfold canvasCurrentIndex.
  pose proof (findIndex_bounds (isActive t) tl).
  destruct (Z.eqb_spec (Js.findIndex (isActive t) tl) (-1)); simpl; [|lia].
  destruct (afterLast t tl); lia.
Qed.

(** X1: with at least one lyric the rendered list has four entries more
    than the lyrics, and the index of the preview ([currentIndex]) and
    the one of the export loop ([canvasCurrentIndex]) lie between [1] and
    the number of lyrics plus [2], at every time: they name an entry of
    the rendered list, never its first or its last dummy line. *)
Theorem currentIndex_in_render_list (tl : list TimedLyric) (t : Q)
    (playing : bool) :
  tl ≠ [] →
  length (lyricsToRender tl) = (length tl + 4)%nat ∧
  (1 ≤ currentIndex t playing tl ≤ Z.of_nat (length tl) + 2 ∧
   is_Some (Js.at_ (lyricsToRender tl) (currentIndex t playing tl))) ∧
  (1 ≤ canvasCurrentIndex t tl ≤ Z.of_nat (length tl) + 2 ∧
   is_Some (Js.at_ (lyricsToRender tl) (canvasCurrentIndex t tl))).
Proof.
  intros Hne. pose proof (lyricsToRender_length tl Hne) as Hlen.
  pose proof (currentIndex_bounds tl t playing) as H1.
  pose proof (canvasCurrentIndex_bounds tl t) as H2.
  split; [done|]. split; (split; [done|]); unfold Js.at_;
    rewrite decide_True by lia; apply lookup_lt_is_Some; lia.
Qed.

Lemma currentIndex_in_render_list_witness :
  let tl := [mkLyric (Js.lit "a") 0 1; mkLyric (Js.lit "b") 2 3] in
  is_Some (Js.at_ (lyricsToRender tl) (currentIndex 7 true tl)) ∧
  is_Some (Js.at_ (lyricsToRender tl) (canvasCurrentIndex (3 # 2) tl)).
Proof.
  intros tl.
  destruct (currentIndex_in_render_list tl 7 true) as (_ & [_ H1] & _); [discriminate|].
  destruct (currentIndex_in_render_list tl (3 # 2) true) as (_ & _ & [_ H2]); [discriminate|].
  split; [exact H1 | exact H2].
Defined.

Lemma lastPassedLoop_ended t l i acc (k : nat) :
  acc < i → lastPassedLoop t l i acc = i + Z.of_nat k →
  ∀ (j : nat) y, (j ≤ k)%nat → l !! j = Some y → Js.ge t (endTime y) = true.
Proof.
  revert i acc k. induction l as [|a l IH]; intros i acc k Hacc Hres j y Hj Hy;
    [done|].
  simpl in Hres. destruct (Js.ge t (endTime a)) eqn:Ha; [|lia].
  destruct j as [|j]; [by simplify_eq/=|]. simpl in Hy.
  destruct (lastPassedLoop_spec t l (i + 1) i) as [[Heq _] | (k' & _ & Heq & _)].
  - rewrite Heq in Hres. lia.
  - rewrite Heq in Hres. apply (IH (i + 1) i k' ltac:(lia) Heq j y); [lia|done].
Qed.

(** A lyric that has ended pushes the index past its line. *)
Lemma currentIndex_after_ended tl t playing (j : nat) y :
  wellTimed tl → ¬ (t == 0 ∧ playing = false) →
  tl !! j = Some y → (endTime y <= t)%Q →
  Z.of_nat j + 3 ≤ currentIndex t playing tl.
Proof.
  intros [Hpos Hord] Hstart Hj Hend.
  assert (∀ i x, (i ≤ j)%nat → tl !! i = Some x → (endTime x <= t)%Q) as Hended.
  { intros i x Hi Hx. destruct (decide (i = j)) as [->|Hne]; [by simplify_eq|].
    eapply Qle_trans; [|exact Hend].
    eapply Qle_trans; [apply (Hord i j x y); [lia|done|done] | by eapply Hpos]. }
  pose proof (lookup_lt_Some _ _ _ Hj) as Hlen.
  unfold currentIndex.
  destruct (Qeq_bool t 0 && negb playing) eqn:Hguard.
  { apply andb_true_iff in Hguard as [Ht Hp].
    apply Qeq_bool_iff in Ht. apply negb_true_iff in Hp. tauto. }
  unfold Js.findIndex.
  destruct (findIndex_from_range (isActive t) tl 0)
    as [[-> _] | (i & x & -> & Hi & Hx)]; [lia | |]; simpl.
  - destruct (afterLast t tl); [lia|].
    destruct (lastPassedLoop_spec t tl 0 (-1)) as [[-> Hhd] | (k & Hk & -> & Hnext)].
    + simpl. destruct tl as [|a tl]; [done|].
      specialize (Hhd a eq_refl). apply not_true_iff_false in Hhd.
      destruct Hhd. apply ge_spec. apply (Hended 0%nat a); [lia|done].
    + destruct (Z.eqb_spec (0 + Z.of_nat k) (-1)); simpl; [lia|].
      destruct (decide (j ≤ k)%nat); [lia|].
      destruct (lookup_lt_is_Some_2 tl (S k)) as [z Hz]; [lia|].
      specialize (Hnext z Hz). apply not_true_iff_false in Hnext.
      destruct Hnext. apply ge_spec. apply (Hended (S k) z); [lia|done].
  - destruct (Z.eqb_spec (0 + Z.of_nat i) (-1)); simpl; [lia|].
    destruct (decide (i ≤ j)%nat) as [Hij|]; [|lia].
    apply isActive_spec in Hx as [_ Hlt].
    pose proof (Hended i x Hij Hi) as Hle.
    exfalso. eapply Qlt_not_le; eauto.
Qed.

(** X2: for lyrics that follow one another in time the index of the
    preview never goes back while the playback time advances. *)
Theorem currentIndex_monotone (tl : list TimedLyric) (t t' : Q)
    (playing : bool) :
  wellTimed tl → (0 <= t)%Q → (t <= t')%Q →
  currentIndex t playing tl ≤ currentIndex t' playing tl.
Proof.
  intros Hwt Ht Htt'.
  destruct (Qeq_bool t' 0 && negb playing) eqn:Hguard'.
  { apply andb_true_iff in Hguard' as [Ht'0 Hp].
    assert (t == 0) as Ht0.
    { apply Qeq_bool_iff in Ht'0. apply Qle_antisym; [by rewrite <- Ht'0 | done]. }
    unfold currentIndex. apply Qeq_bool_iff in Ht0.
    rewrite Ht0, Ht'0, Hp. simpl. lia. }
  assert (¬ (t' == 0 ∧ playing = false)) as Hstart'.
  { intros [H1 H2]. apply Qeq_bool_iff in H1. by rewrite H1, H2 in Hguard'. }
  pose proof (currentIndex_bounds tl t' playing) as Hb'.
  unfold currentIndex at 1.
  destruct (Qeq_bool t 0 && negb playing) eqn:Hguard; [lia|].
  assert (¬ (t == 0 ∧ playing = false)) as Hstart.
  { intros [H1 H2]. apply Qeq_bool_iff in H1. by rewrite H1, H2 in Hguard. }
  unfold Js.findIndex.
  destruct (findIndex_from_range (isActive t) tl 0)
    as [[-> _] | (i & x & -> & Hi & Hx)]; [lia | |]; simpl.
  - unfold afterLast. destruct (last tl) as [z|] eqn:Hlast.
    + destruct (Js.ge t (endTime z)) eqn:Hz.
      * apply ge_spec in Hz.
        assert (tl !! (length tl - 1)%nat = Some z) as Hl.
        { rewrite last_lookup in Hlast.
          replace (length tl - 1)%nat with (pred (length tl)) by lia. done. }
        pose proof (lookup_lt_Some _ _ _ Hl).
        pose proof (currentIndex_after_ended tl t' playing _ z Hwt Hstart' Hl
                      ltac:(by eapply Qle_trans)).
        lia.
      * destruct (lastPassedLoop_spec t tl 0 (-1)) as [[-> _] | (k & Hk & Hres & _)];
          [simpl; lia|].
        rewrite Hres.
        destruct (Z.eqb_spec (0 + Z.of_nat k) (-1)); simpl; [lia|].
        assert (∃ y, tl !! k = Some y ∧ (endTime y <= t)%Q) as (y & Hy & Hey).
        { destruct (lookup_lt_is_Some_2 tl k Hk) as [y Hy]. exists y.
          split; [done|]. apply ge_spec.
          by apply (lastPassedLoop_ended t tl 0 (-1) k ltac:(lia) Hres k y). }
        pose proof (currentIndex_after_ended tl t' playing k y Hwt Hstart' Hy
                      ltac:(by eapply Qle_trans)).
        lia.
    + apply last_None in Hlast. subst. simpl. lia.
  - destruct (Z.eqb_spec (0 + Z.of_nat i) (-1)); simpl; [lia|].
    apply isActive_spec in Hx as [Hs He].
    destruct (Qlt_le_dec t' (endTime x)) as [Hlt|Hge].
    + unfold currentIndex. rewrite Hguard'.
      unfold Js.findIndex.
      rewrite (findIndex_from_first _ tl 0 i x); [| done | |].
      * destruct (Z.eqb_spec (0 + Z.of_nat i) (-1)); simpl; lia.
      * apply isActive_spec. split; [by eapply Qle_trans | done].
      * intros j y Hj Hy. apply isActive_false. intros [_ Hact].
        destruct Hwt as [_ Hord].
        pose proof (Hord j i y x Hj Hy Hi) as Hle.
        eapply Qlt_not_le; [exact Hact|].
        eapply Qle_trans; [exact Hle|]. by eapply Qle_trans.
    + pose proof (currentIndex_after_ended tl t' playing i x Hwt Hstart' Hi Hge).
      lia.
Qed.

Lemma currentIndex_monotone_witness :
  let tl := [mkLyric (Js.lit "a") 0 1; mkLyric (Js.lit "b") 2 3] in
  currentIndex (1 # 2) true tl ≤ currentIndex (5 # 2) true tl.
Proof.
  intros tl. apply currentIndex_monotone; [|q_cmp|q_cmp].
  split.
  - intros [|[|i]] x Hx; simpl in Hx; [| |done];
      injection Hx as <-; q_cmp.
  - intros [|[|i]] [|[|j]] x y Hij Hx Hy; simpl in Hx, Hy; try lia; try done.
    injection Hx as <-. injection Hy as <-. q_cmp.
Defined.
End index_range.

(** *** The styles of the lyric lines *)

Section lyric_style.
Import VideoPlayer.




End lyric_style.

(** *** The frames of an export *)

Section export_session.
Import VideoPlayer.

Lemma reached_false t d : (t < d)%Q → reached t (Some d) = false.
Proof.
  intros H. unfold reached. apply not_true_iff_false. rewrite ge_spec.
  by apply Qlt_not_le.
Qed.

Lemma reached_true t d : (d <= t)%Q → reached t (Some d) = true.
Proof. intros H. unfold reached. by rewrite ge_spec. Qed.

(** What [drawFrame] does when it draws. *)
Lemma frameAt_draws p x d t :
  recording p x d → (t < d)%Q →
  let idx := canvasCurrentIndex t (timedLyrics (props p)) in
  let y := (currentCanvasTranslateY x
            + (targetTranslateY p x idx - currentCanvasTranslateY x) * (1 # 10))%Q in
  let f := mkFrame (currentBgIndex t (Some d) (length (imageUrls (props p))))
             idx y (text <$> lyricsToRender (timedLyrics (props p))) in
  run (frameAt t) p
  = set_session (Some (add_frame y f x))
      (set_exportProgress (Some (RecordingVideo, Some (t / d * 100)%Q))
         (set_audio (set_audioTime t (audio p)) p)).
Proof.
  intros (Hx & Hreq & Hrec & Hc & Hd & Hp) Ht. simpl.
  rewrite Hp. unfold drawFrame. simpl.
  rewrite Hx, Hreq, Hrec, Hc, Hd, (reached_false _ _ Ht).
  simpl. unfold targetTranslateY. by destruct (aspectRatio p).
Qed.

Lemma frameAt_step p x d t :
  recording p x d → (t < d)%Q →
  ∃ y f, session (run (frameAt t) p) = Some (add_frame y f x) ∧
         recording (run (frameAt t) p) (add_frame y f x) d ∧
         props (run (frameAt t) p) = props p ∧
         exportProgress (run (frameAt t) p)
         = Some (RecordingVideo, Some (t / d * 100)%Q) ∧
         frameBg f = currentBgIndex t (Some d) (length (imageUrls (props p))) ∧
         frameIndex f = canvasCurrentIndex t (timedLyrics (props p)) ∧
         frameLines f = text <$> lyricsToRender (timedLyrics (props p)).
Proof.
  intros Hrec Ht. rewrite (frameAt_draws p x d t Hrec Ht).
  destruct Hrec as (Hx & Hreq & Hrec & Hc & Hd & Hp).
  eexists _, _. split; [done|]. split; [by repeat split|].
  repeat split.
Qed.

(** X6: every frame of an export is drawn from what exists.  With at
    least one image, the frames drawn at times from [0] to below the
    duration show an image of the list and have a current line within
    the lines drawn; the progress reported after a frame is a percentage
    from [0] to below [100]; the export is still recording. *)
Theorem export_frames_in_range (p : Player) (x : Session) (d : Q)
    (ts : list Q) :
  recording p x d →
  imageUrls (props p) ≠ [] →
  Forall (λ t, (0 <= t)%Q ∧ (t < d)%Q) ts →
  let q := run (ts ≫= frameAt) p in
  ∃ x' fs, recording q x' d ∧
           frames x' = frames x ++ fs ∧
           length fs = length ts ∧
           Forall (frameInRange p) fs ∧
           (ts ≠ [] → progressInRange q).
Proof.
  intros Hrec Hne Hts. simpl. revert p x Hrec Hne Hts.
  induction ts as [|t ts IH] using rev_ind; intros p x Hrec Hne Hts.
  - exists x, []. rewrite app_nil_r.
    split; [done|]. split; [done|]. split; [done|]. split; [done|].
    by intros [].
  - apply Forall_app in Hts as [Hts Ht].
    apply Forall_cons in Ht as [[Ht0 Ht] _].
    destruct (IH p x Hrec Hne Hts) as (x1 & fs & Hrec1 & Hfr & Hlen & Hfs & _).
    rewrite bind_app, run_app.
    change ([t] ≫= frameAt) with (frameAt t).
    set (p1 := run (ts ≫= frameAt) p) in *.
    assert (props p1 = props p) as Hp1.
    { subst p1. unfold run. clear. revert p.
      induction (ts ≫= frameAt) as [|e es IHes]; intros p; [done|].
      simpl. rewrite IHes. apply handle_props. }
    destruct (frameAt_step p1 x1 d t Hrec1 Ht)
      as (y & f & Hx2 & Hrec2 & Hp2 & Hpr & Hbg & Hidx & Hlines).
    exists (add_frame y f x1), (fs ++ [f]).
    split; [done|]. split; [cbn [add_frame frames]; by rewrite Hfr, app_assoc|].
    split; [rewrite !length_app; simpl; lia|].
    split.
    + apply Forall_app. split; [done|]. apply Forall_cons_2; [|done].
      rewrite Hp1 in Hbg, Hidx, Hlines.
      unfold frameInRange. rewrite Hbg, Hidx, Hlines.
      assert (0 < length (imageUrls (props p)))%nat as Hn
        by (destruct (imageUrls (props p)); [done | simpl; lia]).
      assert (0 < d)%Q as Hd by (by eapply Qle_lt_trans).
      pose proof (bgIndexAt_bounds t d _ Hn Ht0 Hd).
      pose proof (canvasCurrentIndex_bounds (timedLyrics (props p)) t).
      unfold currentBgIndex.
      split; [lia|]. split; [lia|]. intros Htl.
      apply lookup_lt_is_Some_2.
      rewrite length_fmap, lyricsToRender_length by done. lia.
    + intros _. exists (t / d * 100)%Q. split; [done|].
      assert (0 < d)%Q as Hd by (by eapply Qle_lt_trans).
      split.
      * apply Qmult_le_0_compat; [|done].
        apply Qle_shift_div_l; [done|]. by rewrite Qmult_0_l.
      * assert (t / d < 1)%Q as H1.
        { apply Qlt_shift_div_r; [done|]. by rewrite Qmult_1_l. }
        apply Qlt_le_trans with (1 * 100)%Q; [|q_cmp].
        by apply Qmult_lt_compat_r.
Qed.

Lemma export_frames_in_range_witness :
  let lyrics := [mkLyric (Js.lit "la") 0 2] in
  let p0 := mkPlayer (mkProps lyrics [Js.lit "a.png"] (Js.lit "S") (Js.lit "A"))
              false 0 None 0 48 R16_9 P720 false (mkAudio 0 true (Some 9%Q))
              None [] [] in
  let p := run [ExportVideo true true true Started] p0 in
  ∃ x' fs, session (run ([1%Q; (3 # 2)%Q] ≫= frameAt) p) = Some x' ∧
           frames x' = fs ∧ Forall (frameInRange p) fs.
Proof.
  intros lyrics p0 p.
  assert (∃ x, recording p x 9 ∧ frames x = []) as (x & Hrec & Hfr).
  { eexists.
    split; [split; [vm_compute; reflexivity|] | vm_compute; reflexivity].
    repeat split; vm_compute; reflexivity. }
  destruct (export_frames_in_range p x 9 [1%Q; (3 # 2)%Q] Hrec)
    as (x' & fs & H1 & H2 & _ & H3 & _).
  - vm_compute. discriminate.
  - repeat constructor; vm_compute; (reflexivity || discriminate).
  - exists x', fs. split; [apply H1|]. split; [by rewrite H2, Hfr | exact H3].
Defined.

(** X7: the start of a video export.  Without images nothing happens.
    When the canvas gives no context or an image fails to load, one alert
    is shown, the progress display is cleared and the audio, the play
    state, the session and the downloads are as before.  When setting
    the recorder up or starting it throws, the failure alert is shown and
    the progress display is cleared with the session and the downloads
    as before, but the preview is marked as not playing and the audio
    element is no longer as it was: paused if the preview was playing
    when the set-up throws, playing from [0] when [recorder.start()]
    throws.  Otherwise a session records: the audio plays from [0], the
    preview is marked as not playing, the session remembers whether it
    was, no chunk and no frame exist yet, and the canvas has the chosen
    dimensions. *)
Theorem handleExportVideo_start (haveContext imagesLoad mp4Supported : bool)
    (setup : recorderSetup) (p : Player) :
  let q := handleExportVideo haveContext imagesLoad mp4Supported setup p in
  (imageUrls (props p) = [] → q = p) ∧
  (imageUrls (props p) ≠ [] → haveContext && imagesLoad = false →
     exportProgress q = None ∧
     alerts q = alerts p ++ [if haveContext then ExportFailed
                             else CanvasUnavailable] ∧
     session q = session p ∧ audio q = audio p ∧
     isPlaying q = isPlaying p ∧ downloads q = downloads p) ∧
  (imageUrls (props p) ≠ [] → haveContext && imagesLoad = true →
     setup ≠ Started →
     exportProgress q = None ∧ alerts q = alerts p ++ [ExportFailed] ∧
     session q = session p ∧ downloads q = downloads p ∧
     isPlaying q = false ∧
     audio q = match setup with
               | StartThrows => set_paused false (set_audioTime 0 (audio p))
               | _ => if isPlaying p then set_paused true (audio p)
                      else audio p
               end) ∧
  (imageUrls (props p) ≠ [] → haveContext && imagesLoad = true →
     setup = Started →
     ∀ d, duration (audio p) = Some d →
     ∃ x, recording q x d ∧
          audioTime (audio q) = 0%Q ∧ isPlaying q = false ∧
          wasPlaying x = isPlaying p ∧ mp4 x = mp4Supported ∧
          (canvasWidth x, canvasHeight x) = getCanvasDimensions p ∧
          recordedChunks x = [] ∧ frames x = [] ∧
          alerts q = alerts p ∧ downloads q = downloads p).
Proof.
  simpl. unfold handleExportVideo, exportFailed. split; [|split; [|split]].
  - intros H. by rewrite bool_decide_eq_true_2.
  - intros H Hb. rewrite bool_decide_eq_false_2 by done.
    destruct (getCanvasDimensions _) as [w h] eqn:Hdim.
    destruct haveContext; [destruct imagesLoad; [done|]|]; by simpl.
  - intros H Hb Hs. rewrite bool_decide_eq_false_2 by done.
    apply andb_true_iff in Hb as [-> ->].
    destruct (getCanvasDimensions _) as [w h] eqn:Hdim.
    cbn [negb].
    change (isPlaying (set_exportProgress (Some (ResourcesLoaded, Some 10%Q))
              (set_exportProgress (Some (LoadingResources, Some 5%Q))
                 (set_exportProgress (Some (Initializing, Some 0%Q))
                    (set_isExportCancelled false p)))))
      with (isPlaying p).
    destruct setup; [done|..]; destruct (isPlaying p) eqn:E; simpl;
      rewrite ?E; by destruct (audio p).
  - intros H Hb -> d Hd. rewrite bool_decide_eq_false_2 by done.
    apply andb_true_iff in Hb as [-> ->].
    assert (∀ v w, getCanvasDimensions
              (set_exportProgress v (set_isExportCancelled w p))
            = getCanvasDimensions p) as -> by done.
    destruct (getCanvasDimensions p) as [w h] eqn:Hdim.
    cbn [negb].
    change (isPlaying (set_exportProgress (Some (ResourcesLoaded, Some 10%Q))
              (set_exportProgress (Some (LoadingResources, Some 5%Q))
                 (set_exportProgress (Some (Initializing, Some 0%Q))
                    (set_isExportCancelled false p)))))
      with (isPlaying p).
    unfold recording.
    destruct (isPlaying p) eqn:E; eexists;
      (split; [split; [reflexivity|]|]); simpl; rewrite ?Hd, ?E; done.
Qed.

Lemma handleExportVideo_start_witness :
  let lyrics := [mkLyric (Js.lit "la") 0 2] in
  let p0 := mkPlayer (mkProps lyrics [Js.lit "a.png"] (Js.lit "S") (Js.lit "A"))
              true 0 None 0 48 R9_16 P1080 false (mkAudio 4 false (Some 9%Q))
              None [] [] in
  (alerts (handleExportVideo true false true Started p0) = [ExportFailed]) ∧
  (isPlaying (handleExportVideo true true true SetupThrows p0) = false ∧
   audio (handleExportVideo true true true StartThrows p0)
   = mkAudio 0 false (Some 9%Q)) ∧
  (∃ x, recording (handleExportVideo true true false Started p0) x 9 ∧
        wasPlaying x = true ∧ canvasWidth x = 1080%Q).
Proof.
  intros lyrics p0.
  destruct (handleExportVideo_start true false true Started p0)
    as (_ & Hfail & _).
  destruct (handleExportVideo_start true true true SetupThrows p0)
    as (_ & _ & Hsetup & _).
  destruct (handleExportVideo_start true true true StartThrows p0)
    as (_ & _ & Hstart & _).
  destruct (handleExportVideo_start true true false Started p0)
    as (_ & _ & _ & Hok).
  split; [|split; [split|]].
  - destruct Hfail as (_ & Ha & _); [vm_compute; discriminate | reflexivity |].
    exact Ha.
  - destruct Hsetup as (_ & _ & _ & _ & Hp & _);
      [vm_compute; discriminate | reflexivity | discriminate |].
    exact Hp.
  - destruct Hstart as (_ & _ & _ & _ & _ & Ha);
      [vm_compute; discriminate | reflexivity | discriminate |].
    exact Ha.
  - destruct (Hok ltac:(vm_compute; discriminate) eq_refl eq_refl 9%Q eq_refl)
      as (x & Hrec & _ & _ & Hw & _ & Hdim & _).
    exists x. split; [exact Hrec|]. split; [exact Hw|].
    by injection Hdim.
Defined.

Lemma run_dataAvailable ds p x :
  session p = Some x →
  run (DataAvailable <$> ds) p
  = set_session
      (Some (set_recordedChunks
               (recordedChunks x ++ filter (λ d, d ≠ []) ds) x)) p.
Proof.
  revert p x. induction ds as [|d ds IH]; intros p x Hx.
  - destruct p, x. simpl in *. subst. by rewrite app_nil_r.
  - cbn [fmap list_fmap]. unfold run. cbn [fold_left handle].
    fold (run (DataAvailable <$> ds) (ondataavailable d p)).
    unfold ondataavailable. rewrite Hx.
    rewrite filter_cons. case_bool_decide as Hd.
    + rewrite decide_True by done.
      erewrite IH by done. cbn [set_recordedChunks recordedChunks].
      by rewrite <- app_assoc.
    + rewrite decide_False by (by intros []). by apply IH.
Qed.

(** X8: a completed export.  When the audio has reached its end, the
    next frame callback stops the recorder without drawing; after the
    remaining data events and the stop event exactly one video file has
    been added to the downloads, named after the song and the artist,
    with the chunks that are not empty in their order of arrival; the
    progress display is cleared, every track is stopped, the audio
    context is closed, and the audio, rewound to [0], plays again exactly
    when it played before the export. *)
Theorem completed_export_downloads_recording (p : Player) (x : Session)
    (d t : Q) (ds : list Js.str) :
  recording p x d → (d <= t)%Q →
  let q := run (frameAt t ++ (DataAvailable <$> ds) ++ [RecorderStopped]) p in
  downloads q
  = downloads p
    ++ [VideoFile (fileName p (videoExtension x))
          (recordedChunks x ++ filter (λ d, d ≠ []) ds)] ∧
  exportProgress q = None ∧
  alerts q = alerts p ∧
  audioTime (audio q) = 0%Q ∧
  paused (audio q) = negb (wasPlaying x) ∧
  isPlaying q = isPlaying p ∧
  ∃ x', session q = Some x' ∧ recorder x' = Inactive ∧
        frameRequested x' = false ∧ audioContextClosed x' = true ∧
        Forall (λ live, live = false) (tracksLive x') ∧
        frames x' = frames x.
Proof.
  intros (Hx & Hreq & Hrec & Hc & Hd & Hp) Ht q. subst q.
  rewrite !run_app.
  assert (run (frameAt t) p
          = set_session
              (Some (set_frameRequested false
                       (set_stopEventPending true (set_recorder Inactive x))))
              (set_audio (set_audioTime 0 (set_paused true
                            (set_audioTime t (audio p)))) p)) as ->.
  { simpl. rewrite Hp. unfold drawFrame. simpl.
    by rewrite Hx, Hreq, Hrec, Hc, Hd, (reached_true _ _ Ht). }
  erewrite run_dataAvailable by done.
  unfold run, fold_left, handle. cbn [session set_session stopEventPending
    set_recordedChunks set_frameRequested set_stopEventPending].
  unfold onstop. cbn [session set_session isExportCancelled set_audio].
  rewrite Hc. cbn [negb].
  unfold videoExtension.
  destruct (wasPlaying x) eqn:Hw; simpl; rewrite ?Hw; simpl;
    (repeat split; try done;
     eexists; (split; [done|]); simpl; repeat split; try done;
     apply Forall_fmap, Forall_true; done).
Qed.

Lemma completed_export_downloads_recording_witness :
  let lyrics := [mkLyric (Js.lit "la") 0 2] in
  let p0 := mkPlayer (mkProps lyrics [Js.lit "a.png"] (Js.lit "S") (Js.lit "A"))
              false 0 None 0 48 R16_9 P720 false (mkAudio 0 true (Some 9%Q))
              None [] [] in
  let p := run (ExportVideo true true true Started :: frameAt 1
                ++ [DataAvailable (Js.lit "c1")]) p0 in
  let q := run (frameAt 9 ++ (DataAvailable <$> [[]; Js.lit "c2"])
                ++ [RecorderStopped]) p in
  ∃ x, recording p x 9 ∧
       downloads q
       = downloads p
         ++ [VideoFile (fileName p (videoExtension x))
               (recordedChunks x ++ [Js.lit "c2"])].
Proof.
  intros lyrics p0 p q.
  assert (∃ x, recording p x 9) as (x & Hrec).
  { eexists. split; [vm_compute; reflexivity|].
    repeat split; vm_compute; reflexivity. }
  exists x. split; [exact Hrec|].
  refine (proj1 (completed_export_downloads_recording p x 9 9
                   [[]; Js.lit "c2"] Hrec _)).
  vm_compute. discriminate.
Defined.
End export_session.

(** *** The clock *)

Section clock.
Import Js VideoPlayer.

Lemma Qfloor_div_pos (x : Q) (n : positive) :
  Qfloor (x / (Zpos n # 1)) = Qfloor x / Zpos n.
Proof.
  destruct x as [a b]. unfold Qdiv, Qinv, Qmult, Qfloor. simpl.
  rewrite Z.mul_1_r, Pos2Z.inj_mul. by rewrite Z.div_div by lia.
Qed.

Lemma Qfloor_minus_Z (x : Q) (c : Z) :
  Qfloor (x - inject_Z c) = Qfloor x - c.
Proof.
  destruct x as [a b]. unfold Qminus, Qplus, Qopp, inject_Z, Qfloor. simpl.
  rewrite Pos.mul_1_r, Z.mul_1_r.
  replace (a + - c * Z.pos b) with (a + (- c) * Z.pos b) by lia.
  rewrite Z.div_add by lia. lia.
Qed.

(** The whole seconds of [x % m] for a non-negative [x]. *)
Lemma Qfloor_rem (x : Q) (m : positive) :
  (0 <= x)%Q → Qfloor (rem x (Zpos m # 1)) = Qfloor x mod Zpos m.
Proof.
  intros Hx. unfold rem.
  assert (0 <= x / (Zpos m # 1))%Q as Hq.
  { apply Qle_shift_div_l; [done|]. by rewrite Qmult_0_l. }
  apply Qle_bool_iff in Hq as ->.
  rewrite Qfloor_div_pos.
  assert ((Zpos m # 1) * inject_Z (Qfloor x / Zpos m)
          == inject_Z (Zpos m * (Qfloor x / Zpos m)))%Q as Heq.
  { rewrite inject_Z_mult. done. }
  assert (Qfloor (x - (Zpos m # 1) * inject_Z (Qfloor x / Zpos m))
          = Qfloor (x - inject_Z (Zpos m * (Qfloor x / Zpos m)))) as ->.
  { apply Qfloor_comp. by rewrite Heq. }
  rewrite Qfloor_minus_Z. rewrite Z.mod_eq by lia. done.
Qed.

(** X9: the clock of the player.  For a time of at least [0],
    [formatTime] writes the whole minutes, a colon and the remaining
    whole seconds, from [00] to [59], with two digits. *)
Theorem formatTime_minutes_seconds (x : Q) :
  (0 <= x)%Q →
  formatTime (Some x)
  = natToString (Z.to_N (Qfloor x / 60)) ++ colon :: two (Qfloor x mod 60).
Proof.
  intros Hx. unfold formatTime.
  change 60%Q with (60 # 1)%Q.
  rewrite Qfloor_div_pos, Qfloor_rem by done.
  assert (0 ≤ Qfloor x) as Hfl.
  { change 0 with (Qfloor 0). by apply Qfloor_resp_le. }
  pose proof (Z.mod_pos_bound (Qfloor x) 60 ltac:(lia)) as Hmod.
  rewrite padStart2_intToString by lia.
  unfold intToString.
  rewrite (proj2 (Z.ltb_ge _ _)) by (apply Z.div_pos; lia). done.
Qed.

Lemma formatTime_minutes_seconds_witness :
  formatTime (Some (7321 # 100)%Q) = lit "1:13".
Proof.
  rewrite formatTime_minutes_seconds by q_cmp. vm_compute. reflexivity.
Defined.
End clock.

(** *** More on the SRT parser *)

Section srt_more.
Import Js Srt.

Lemma toCrlf_cons c s :
  toCrlf (c :: s) = (if (c =? LF)%N then [CR; LF] else [c]) ++ toCrlf s.
Proof. reflexivity. Qed.

Lemma toCrlf_head s : startsWith [LF] (toCrlf s) = false.
Proof.
  destruct s as [|c s]; [done|]. rewrite toCrlf_cons.
  destruct (N.eqb_spec c LF) as [->|Hc]; [done|].
  cbn [app startsWith]. rewrite andb_true_r. apply N.eqb_neq. congruence.
Qed.

Lemma replaceCrLf_toCrlf s : replaceCrLf (toCrlf s) = s.
Proof.
  induction s as [|c s IH]; [done|]. rewrite toCrlf_cons.
  destruct (N.eqb_spec c LF) as [->|Hc].
  - cbn [app]. change (replaceCrLf (CR :: LF :: toCrlf s))
      with (replaceCrLf (LF :: toCrlf s)).
    change (replaceCrLf (LF :: toCrlf s)) with (LF :: replaceCrLf (toCrlf s)).
    by rewrite IH.
  - cbn [app replaceCrLf]. rewrite toCrlf_head, andb_false_r. by rewrite IH.
Qed.

(** X10: the line ends do not matter.  A text without CR LF pairs and
    the same text with CR LF for every LF parse to the same lyrics. *)
Theorem parseSrt_line_ends (s : str) :
  includes [CR; LF] s = false →
  parseSrt (toCrlf s) = parseSrt s.
Proof.
  intros H. unfold parseSrt, blocks.
  by rewrite replaceCrLf_toCrlf, (replaceCrLf_id s H).
Qed.

Lemma parseSrt_line_ends_witness :
  let s := lit "1" ++ LF :: lit "00:00:01,000 --> 00:00:02,500" ++ LF :: lit "la" in
  parseSrt (toCrlf s)
  = [mkLyric (lit "la") (add 1 (div 0 1000)) (add 2 (div 500 1000))].
Proof.
  intros s. rewrite parseSrt_line_ends by reflexivity.
  vm_compute. reflexivity.
Defined.

Lemma splitOn_join sep (ls : list str) :
  ls ≠ [] → Forall (Forall (λ c, c ≠ sep)) ls →
  splitOn sep (join sep ls) = ls.
Proof.
  induction ls as [|l ls IH]; [done|]. intros _ Hls.
  apply Forall_cons in Hls as [Hl Hls].
  destruct ls as [|l' ls].
  - by apply splitOn_nosep.
  - change (join sep (l :: l' :: ls)) with (l ++ sep :: join sep (l' :: ls)).
    rewrite splitOn_app_sep, splitOn_nosep, IH by done. done.
Qed.

Lemma findIndex_from_shift {A} (p : A → bool) l k d :
  0 ≤ k →
  findIndex_from p l (k + d)
  = if findIndex_from p l k =? -1 then -1 else findIndex_from p l k + d.
Proof.
  revert k. induction l as [|x l IH]; intros k Hk; [done|].
  cbn [findIndex_from]. destruct (p x).
  - by rewrite (proj2 (Z.eqb_neq k (-1))) by lia.
  - replace (k + d + 1) with (k + 1 + d) by lia. apply IH. lia.
Qed.

Lemma findIndex_nonneg {A} (p : A → bool) l :
  findIndex p l = -1 ∨ 0 ≤ findIndex p l.
Proof.
  unfold findIndex.
  destruct (findIndex_from_range p l 0) as [[H _]|(i & x & H & _)]; lia.
Qed.

(** A line without the arrow in front of the lines of a block does not
    change what the block gives. *)
Lemma parseBlock_skips_line (l : str) (rest : list str) :
  includes (lit "-->") l = false →
  Forall (Forall (λ c, c ≠ LF)) (l :: rest) →
  parseBlock (join LF (l :: rest)) = parseBlock (join LF rest).
Proof.
  intros Hl Hlf. pose proof Hlf as Hlf'.
  apply Forall_cons in Hlf' as [_ Hrest].
  unfold parseBlock.
  rewrite (splitOn_join LF (l :: rest)) by done.
  destruct rest as [|r1 [|r2 rs]].
  - done.
  - cbn [join]. rewrite splitOn_nosep by (by apply Forall_cons in Hrest as [? _]).
    cbn [length]. rewrite bool_decide_eq_true_2 by lia.
    rewrite (bool_decide_eq_false_2 (2 ≤ 1)%nat) by lia.
    unfold findIndex. cbn [findIndex_from]. rewrite Hl.
    destruct (includes (lit "-->") r1); [|done].
    cbn [Z.add Z.eqb negb at_]. simpl.
    destruct (timeMatch r1) as [[g1 g2]|]; [|done]. simpl.
    destruct (parseSrtTime g1); [|done]. simpl.
    by destruct (parseSrtTime g2).
  - rewrite (splitOn_join LF (r1 :: r2 :: rs)) by done.
    rewrite (bool_decide_eq_true_2 (2 ≤ length (l :: r1 :: r2 :: rs))%nat)
      by (simpl; lia).
    rewrite (bool_decide_eq_true_2 (2 ≤ length (r1 :: r2 :: rs))%nat)
      by (simpl; lia).
    set (lines := r1 :: r2 :: rs) in *.
    assert (findIndex (includes (lit "-->")) (l :: lines)
            = if findIndex (includes (lit "-->")) lines =? -1 then -1
              else findIndex (includes (lit "-->")) lines + 1) as ->.
    { unfold findIndex. cbn [findIndex_from]. rewrite Hl.
      by apply (findIndex_from_shift _ _ 0 1). }
    destruct (findIndex_nonneg (includes (lit "-->")) lines) as [->|Hi]; [done|].
    set (i := findIndex (includes (lit "-->")) lines) in *.
    rewrite (proj2 (Z.eqb_neq i (-1))) by lia. cbv iota.
    rewrite (proj2 (Z.eqb_neq (i + 1) (-1))) by lia. cbn [negb].
    assert (at_ (l :: lines) (i + 1) = at_ lines i) as ->.
    { unfold at_. rewrite !decide_True by lia.
      by replace (Z.to_nat (i + 1)) with (S (Z.to_nat i)) by lia. }
    by replace (Z.to_nat (i + 1 + 1)) with (S (Z.to_nat (i + 1))) by lia.
Qed.

(** X11: the index line of a block is optional.  Lines without the
    arrow in front of a block, however many, do not change what
    [parseBlock] returns for it. *)
Theorem parseBlock_skips_header (pre rest : list str) :
  Forall (λ l, includes (lit "-->") l = false) pre →
  Forall (Forall (λ c, c ≠ LF)) (pre ++ rest) →
  parseBlock (join LF (pre ++ rest)) = parseBlock (join LF rest).
Proof.
  induction pre as [|l pre IH]; intros Hpre Hlf; [done|].
  apply Forall_cons in Hpre as [Hl Hpre].
  change ((l :: pre) ++ rest) with (l :: (pre ++ rest)) in *.
  rewrite parseBlock_skips_line by done.
  apply IH; [done|]. by apply Forall_cons in Hlf as [_ ?].
Qed.

Lemma parseBlock_skips_header_witness :
  let time := lit "00:00:01,000 --> 00:00:02,500" in
  parseBlock (join LF [lit "7"; lit "note"; time; lit "la"])
  = parseBlock (join LF [time; lit "la"]).
Proof.
  intros time.
  apply (parseBlock_skips_header [lit "7"; lit "note"] [time; lit "la"]).
  - by repeat constructor.
  - repeat constructor; by vm_compute.
Defined.

Lemma timeMatch_stamps s g1 g2 :
  timeMatch s = Some (g1, g2) →
  ∃ s1 r1 s2 r2, matchAtoms stamp s1 = Some (g1, r1) ∧
                 matchAtoms stamp s2 = Some (g2, r2).
Proof.
  induction s as [|c s IH]; cbn [timeMatch].
  - destruct (timeMatchAt []) as [m|] eqn:E; [|done]. done.
  - destruct (timeMatchAt (c :: s)) as [m|] eqn:E; [|exact IH].
    intros [= ->]. unfold timeMatchAt in E.
    destruct (matchAtoms stamp (c :: s)) as [[h1 r1]|] eqn:E1; [|done].
    cbn [mbind option_bind] in E.
    destruct (stripPrefix _ _) as [r2|]; [|done].
    cbn [mbind option_bind] in E.
    destruct (matchAtoms stamp (dropWhile isWhiteSpace r2)) as [[h2 r3]|] eqn:E2;
      [|done].
    cbn [mbind option_bind] in E. injection E as <- <-.
    eauto 10.
Qed.

Lemma parseSrtTime_stampValue s g r q :
  matchAtoms stamp s = Some (g, r) → parseSrtTime g = Some q → stampValue q.
Proof.
  intros H Hq. apply matchAtoms_stamp_inv in H
    as (a & b & c & d & e & f & g' & h & i & -> & Hd).
  repeat (apply Forall_cons in Hd as [? Hd]).
  rewrite parseSrtTime_stamp in Hq by done. injection Hq as <-.
  repeat match goal with
         | H : isDigit _ = true |- _ => apply isDigit_spec in H
         end.
  exists (pair10 a b * 3600000 + pair10 c d * 60000 + pair10 e f * 1000
          + triple10 g' h i).
  split; [unfold pair10, triple10; lia|].
  destruct (stampNumber_near (pair10 a b) (pair10 c d) (pair10 e f)
              (triple10 g' h i)) as [Hnear _];
    [unfold pair10, triple10; lia..|].
  eapply Qle_trans; [exact Hnear | by apply pow2_le].
Qed.

Lemma parseBlock_stampValue (block : str) (lyric : TimedLyric) :
  parseBlock block = Some lyric →
  stampValue (startTime lyric) ∧ stampValue (endTime lyric).
Proof.
  intros Hb. unfold parseBlock in Hb.
  destruct (bool_decide (2 ≤ length (splitOn LF block))%nat); [|done].
  destruct (negb _); [|done].
  destruct (at_ _ _) as [timeLine|]; [|done]. cbn [mbind option_bind] in Hb.
  destruct (timeMatch timeLine) as [[g1 g2]|] eqn:Hm; [|done].
  cbn [mbind option_bind] in Hb.
  destruct (parseSrtTime g1) as [q1|] eqn:H1; [|done].
  cbn [mbind option_bind] in Hb.
  destruct (parseSrtTime g2) as [q2|] eqn:H2; [|done].
  cbn [mbind option_bind] in Hb.
  destruct (bool_decide _); [|done]. injection Hb as <-.
  apply timeMatch_stamps in Hm as (s1 & r1 & s2 & r2 & Hs1 & Hs2).
  split.
  - exact (parseSrtTime_stampValue s1 g1 r1 q1 Hs1 H1).
  - exact (parseSrtTime_stampValue s2 g2 r2 q2 Hs2 H2).
Qed.

(** X12: the times of every lyric returned by [parseSrt] are within
    [2^-33] second of a whole number of milliseconds, from [0] to the
    value of [99:99:99,999]. *)
Theorem parseSrt_times_whole_millis (srtContent : str) (lyric : TimedLyric) :
  lyric ∈ parseSrt srtContent →
  stampValue (startTime lyric) ∧ stampValue (endTime lyric).
Proof.
  intros Hin. apply list_elem_of_omap in Hin as (block & Hblock & Hb).
  exact (parseBlock_stampValue block lyric Hb).
Qed.

Lemma parseSrt_times_whole_millis_witness :
  stampValue (add 1 (div 118 1000)) ∧ stampValue (add 2 (div 500 1000)).
Proof.
  apply (parseSrt_times_whole_millis
           (lit "1" ++ LF :: lit "00:00:01,118 --> 00:00:02,500" ++ LF :: lit "la")
           (mkLyric (lit "la") (add 1 (div 118 1000)) (add 2 (div 500 1000)))).
  vm_compute. apply list_elem_of_here.
Defined.

Lemma replaceCrLf_blank s :
  Forall (λ c, isWhiteSpace c = true) s →
  Forall (λ c, isWhiteSpace c = true) (replaceCrLf s).
Proof.
  induction 1 as [|c s Hc _ IH]; [done|]. cbn [replaceCrLf].
  destruct ((c =? CR)%N && startsWith [LF] s); [done|]. by constructor.
Qed.

(** X18: a text made of white space only, the empty text included,
    has no lyric: [parseSrt] returns the empty list. *)
Theorem parseSrt_blank (srtContent : str) :
  blank srtContent → parseSrt srtContent = [].
Proof.
  intros Hb. unfold parseSrt, blocks.
  by rewrite trim_blank by (by apply replaceCrLf_blank).
Qed.

Lemma parseSrt_blank_witness :
  parseSrt [] = [] ∧ parseSrt (lit " " ++ [CR; LF; LF]) = [].
Proof.
  split; apply parseSrt_blank; unfold blank; by repeat constructor.
Defined.

Lemma digit_of_code (a : N) :
  isDigit a = true → digit (Z.of_N a - 48) = a.
Proof. rewrite isDigit_spec. unfold digit, zero. lia. Qed.

(** X19: writing a parsed time stamp gives the same characters again.
    For a time stamp whose minutes and seconds are below [60],
    [formatSrtTime] applied to what [parseSrtTime] returns is the time
    stamp itself. *)
Theorem formatSrtTime_parseSrtTime (a b c d e f g h i : N) (q : Q) :
  Forall (λ x, isDigit x = true) [a; b; c; d; e; f; g; h; i] →
  pair10 c d < 60 → pair10 e f < 60 →
  parseSrtTime (stampChars a b c d e f g h i) = Some q →
  VideoPlayer.formatSrtTime q = stampChars a b c d e f g h i.
Proof.
  intros Hd Hm Hs Hq.
  repeat (apply Forall_cons in Hd as [? Hd]).
  rewrite parseSrtTime_stamp in Hq by done. injection Hq as <-.
  pose proof (digit_of_code a ltac:(done)) as Ea. pose proof (digit_of_code b ltac:(done)) as Eb.
  pose proof (digit_of_code c ltac:(done)) as Ec. pose proof (digit_of_code d ltac:(done)) as Ed.
  pose proof (digit_of_code e ltac:(done)) as Ee. pose proof (digit_of_code f ltac:(done)) as Ef.
  pose proof (digit_of_code g ltac:(done)) as Eg. pose proof (digit_of_code h ltac:(done)) as Eh.
  pose proof (digit_of_code i ltac:(done)) as Ei.
  repeat match goal with
         | H : isDigit _ = true |- _ => apply isDigit_spec in H
         end.
  unfold pair10, triple10 in *.
  set (A := Z.of_N a - 48) in *. set (B := Z.of_N b - 48) in *.
  set (C := Z.of_N c - 48) in *. set (D := Z.of_N d - 48) in *.
  set (E := Z.of_N e - 48) in *. set (F := Z.of_N f - 48) in *.
  set (G := Z.of_N g - 48) in *. set (H' := Z.of_N h - 48) in *.
  set (I := Z.of_N i - 48) in *.
  assert (0 ≤ A ≤ 9 ∧ 0 ≤ B ≤ 9 ∧ 0 ≤ C ≤ 9 ∧ 0 ≤ D ≤ 9 ∧ 0 ≤ E ≤ 9 ∧
          0 ≤ F ≤ 9 ∧ 0 ≤ G ≤ 9 ∧ 0 ≤ H' ≤ 9 ∧ 0 ≤ I ≤ 9) as Hr
    by (subst A B C D E F G H' I; lia).
  clearbody A B C D E F G H' I.
  set (k := (A * 10 + B) * 3600000 + (C * 10 + D) * 60000
            + (E * 10 + F) * 1000 + ((G * 10 + H') * 10 + I)).
  destruct (stampNumber_near (A * 10 + B) (C * 10 + D) (E * 10 + F)
              ((G * 10 + H') * 10 + I)) as [Hnear Hwhole]; [lia..|].
  rewrite (formatSrtTime_near _ k).
  - rewrite stampOf_chars.
    assert (k / 3600000 = A * 10 + B) as -> by (subst k; Z.to_euclidean_division_equations; lia).
    assert (k mod 3600000 / 60000 = C * 10 + D) as ->
      by (subst k; Z.to_euclidean_division_equations; lia).
    assert (k mod 60000 / 1000 = E * 10 + F) as ->
      by (subst k; Z.to_euclidean_division_equations; lia).
    assert (k mod 1000 = (G * 10 + H') * 10 + I) as ->
      by (subst k; Z.to_euclidean_division_equations; lia).
    assert (∀ X Y, 0 ≤ X ≤ 9 → 0 ≤ Y ≤ 9 →
              (X * 10 + Y) / 10 = X ∧ (X * 10 + Y) mod 10 = Y) as Hpair
      by (intros; Z.to_euclidean_division_equations; lia).
    destruct (Hpair A B) as [-> ->]; [lia..|].
    destruct (Hpair C D) as [-> ->]; [lia..|].
    destruct (Hpair E F) as [-> ->]; [lia..|].
    assert (((G * 10 + H') * 10 + I) / 100 = G) as ->
      by (Z.to_euclidean_division_equations; lia).
    assert (((G * 10 + H') * 10 + I) / 10 mod 10 = H') as ->
      by (Z.to_euclidean_division_equations; lia).
    assert (((G * 10 + H') * 10 + I) mod 10 = I) as ->
      by (Z.to_euclidean_division_equations; lia).
    by rewrite Ea, Eb, Ec, Ed, Ee, Ef, Eg, Eh, Ei.
  - subst k. lia.
  - by apply (nearMillis_weaken _ k (-34)).
Qed.

Lemma formatSrtTime_parseSrtTime_witness :
  ∃ q, parseSrtTime (lit "01:02:03,456") = Some q ∧
       VideoPlayer.formatSrtTime q = lit "01:02:03,456".
Proof.
  eexists. split; [vm_compute; reflexivity|].
  apply (formatSrtTime_parseSrtTime 48 49 48 50 48 51 52 53 54)%N.
  - by repeat constructor.
  - vm_compute. reflexivity.
  - vm_compute. reflexivity.
  - vm_compute. reflexivity.
Defined.
End srt_more.

(** *** The form, the timing screen and the preview *)

Section app_flow.
Import App.

Ltac flow_get := cbv beta iota zeta delta [mbind M_bind get].
Ltac flow_all :=
  cbv beta iota zeta delta
    [mbind M_bind mret M_ret get modify emit call setAppState setTimedLyrics
     setBackgroundImages setIsLoading setIsAiUnlocked setTimedLyricsFromSrt
     setLyricsText setSongTitle setArtistName setAudioFile]; simpl.

Lemma parseSrt_parsed (srtContent : Js.str) :
  Forall parsedLyric (Srt.parseSrt srtContent).
Proof.
  apply Forall_forall. intros x Hx.
  apply list_elem_of_omap in Hx as (block & _ & Hb).
  destruct (parseBlock_text block x Hb) as [H3 H4].
  by split.
Qed.

Lemma join_nonempty sep (l : Js.str) (ls : list Js.str) :
  l ≠ [] → Js.join sep (l :: ls) ≠ [].
Proof. intros Hl. destruct l; [done|]. by destruct ls. Qed.

Lemma length_pos_nonempty {A} (l : list A) :
  (0 <? length l)%nat = true ↔ l ≠ [].
Proof. destruct l; simpl; split; intros; done. Qed.

(** X13: uploading an SRT file and starting.  When the file has at least
    one lyric, [handleSrtUpload] keeps the parsed lyrics and replaces the
    lyrics text by their texts, one per line, which is not empty, and
    shows nothing; with audio, title and artist chosen, [handleStart]
    then goes to the preview with exactly the parsed lyrics, without an
    alert.  When the file has no lyric the state is unchanged, the alert
    is shown and the file input is reset. *)
Theorem srt_upload_then_start (content : Js.str) (s : state) :
  let up := handleSrtUpload (Content content) s in
  (Srt.parseSrt content ≠ [] →
     up.2 = [] ∧
     timedLyricsFromSrt up.1 = Some (Srt.parseSrt content) ∧
     lyricsText up.1 = Js.join Js.LF (text <$> Srt.parseSrt content) ∧
     lyricsText up.1 ≠ [] ∧
     (songChosen s →
        appState (finalState (handleStart up.1)) = PREVIEW ∧
        timedLyrics (finalState (handleStart up.1)) = Srt.parseSrt content ∧
        effects (handleStart up.1) = [])) ∧
  (Srt.parseSrt content = [] →
     up = (s, [SrtUnparsable; ResetFileInput])).
Proof.
  intros up. subst up. unfold handleSrtUpload. split.
  - intros Hne. rewrite (proj2 (length_pos_nonempty _) Hne).
    assert (Js.join Js.LF (text <$> Srt.parseSrt content) ≠ []) as Hjoin.
    { pose proof (parseSrt_parsed content) as Hp.
      destruct (Srt.parseSrt content) as [|x l]; [done|].
      apply Forall_cons in Hp as [(Hx & _) _]. by apply join_nonempty. }
    split; [done|]. split; [done|]. split; [done|]. split; [done|].
    intros (Ha & Ht & Hn).
    unfold handleStart. flow_get.
    cbn [finalState fst snd setTimedLyricsFromSrt setLyricsText modify
         lyricsText audioFile songTitle artistName timedLyricsFromSrt].
    unfold falsy. rewrite !bool_decide_eq_false_2 by done.
    by flow_all.
  - intros ->. done.
Qed.

Lemma srt_upload_then_start_witness :
  let s := mkState FORM [] (Js.lit "Song") (Js.lit "Artist")
             (Some (Js.lit "a.mp3")) [] [] None (false, []) false in
  let content := Js.lit "1" ++ Js.LF :: Js.lit "00:00:01,000 --> 00:00:02,500"
                 ++ Js.LF :: Js.lit "la" in
  appState (finalState (handleStart (handleSrtUpload (Content content) s).1))
  = PREVIEW.
Proof.
  intros s content.
  destruct (srt_upload_then_start content s) as [H _].
  destruct H as (_ & _ & _ & _ & H).
  - vm_compute. discriminate.
  - destruct H as (H & _); [|exact H]. repeat split; discriminate.
Defined.

Lemma handleAiRequest_fromSrt action answer s :
  (∀ s', timedLyricsFromSrt (finalState (action s')) = timedLyricsFromSrt s') →
  timedLyricsFromSrt (finalState (handleAiRequest action answer s))
  = timedLyricsFromSrt s.
Proof.
  intros Ha. unfold handleAiRequest. flow_get.
  destruct (isAiUnlocked s).
  - unfold call. specialize (Ha s). destruct (action s) as [[[] s'] sub]. done.
  - case_bool_decide.
    + cbv beta iota zeta delta [mbind M_bind emit setIsAiUnlocked modify call].
      match goal with
      | |- context [action ?s1] =>
          specialize (Ha s1); destruct (action s1) as [[[] s'] sub]
      end. done.
    + by case_bool_decide.
Qed.

Lemma runAiImageGeneration_fromSrt ai msg s :
  timedLyricsFromSrt (finalState (runAiImageGeneration ai msg s))
  = timedLyricsFromSrt s.
Proof.
  unfold runAiImageGeneration. flow_get.
  destruct (falsy _ || falsy _ || falsy _); [done|].
  flow_all. by destruct (Gemini.generateImagesForLyrics _ _ _ _ _).
Qed.

(** One handler of the form. *)
Lemma handle_fromSrt e s :
  (timedLyricsFromSrt (handle e s) = timedLyricsFromSrt s) ∨
  (∃ srtContent, Srt.parseSrt srtContent ≠ [] ∧
     timedLyricsFromSrt (handle e s) = Some (Srt.parseSrt srtContent)).
Proof.
  destruct e; cbn [handle]; try (by left).
  - destruct file as [| |content]; [by left | by left|].
    unfold handleSrtUpload.
    destruct (0 <? length (Srt.parseSrt content))%nat eqn:E; [|by left].
    right. exists content. by apply length_pos_nonempty in E.
  - left. by destruct files.
  - left. apply handleAiRequest_fromSrt. apply runAiImageGeneration_fromSrt.
  - unfold runAiLyricTiming.
    destruct (_ || _); [by left|].
    destruct (generateSrtFromLyrics _ _ _ _) as [err|srtContent]; [by left|].
    destruct (0 <? length (Srt.parseSrt srtContent))%nat eqn:E; [|by left].
    right. exists srtContent. by apply length_pos_nonempty in E.
  - left. unfold handleStart. flow_get.
    destruct (_ || _); [done|].
    destruct (timedLyricsFromSrt s) eqn:E; flow_all; by rewrite ?E.
  - left. unfold previewOnBack. flow_get.
    destruct (timedLyricsFromSrt s) eqn:E; flow_all; by rewrite ?E.
Qed.

(** X14: whatever happens on the form, the timing screen and the
    preview, the lyrics kept from an SRT file or from the timing service
    are, when present, at least one lyric, each with a trimmed text that
    is not empty; and once they are present, no handler clears them. *)
Theorem fromSrt_always_parsed (es : list event) (s : state) :
  fromSrtParsed s →
  fromSrtParsed (run es s) ∧
  (is_Some (timedLyricsFromSrt s) → is_Some (timedLyricsFromSrt (run es s))).
Proof.
  revert s. induction es as [|e es IH]; intros s Hs; [done|].
  change (run (e :: es) s) with (run es (handle e s)).
  assert (fromSrtParsed (handle e s) ∧
          (is_Some (timedLyricsFromSrt s) →
           is_Some (timedLyricsFromSrt (handle e s)))) as [H1 H2].
  { unfold fromSrtParsed.
    destruct (handle_fromSrt e s) as [Heq|(c & Hc & Heq)]; rewrite Heq; [done|].
    split; [|done]. intros l [= <-]. split; [done | apply parseSrt_parsed]. }
  destruct (IH _ H1) as [H3 H4]. split; [done|]. intros H. by apply H4, H2.
Qed.

Lemma fromSrt_always_parsed_witness :
  let s := mkState FORM [] [] [] None [] [] None (false, []) false in
  let content := Js.lit "1" ++ Js.LF :: Js.lit "00:00:01,000 --> 00:00:02,500"
                 ++ Js.LF :: Js.lit "la" in
  fromSrtParsed
    (run [SrtUpload (Content content); TypeLyrics (Js.lit "x");
          SrtUpload (Content (Js.lit "no lyric")); Start] s).
Proof.
  intros s content. apply fromSrt_always_parsed. intros l H. discriminate H.
Defined.

Lemma filterIndex_above {A} (index i : nat) (prev : list A) :
  (index < i)%nat → filterIndex index i prev = prev.
Proof.
  revert i. induction prev as [|x prev IH]; intros i Hi; [done|].
  cbn [filterIndex]. rewrite (proj2 (Nat.eqb_neq i index)) by lia.
  cbn [negb]. f_equal. apply IH. lia.
Qed.

Lemma filterIndex_delete {A} (index i : nat) (prev : list A) :
  filterIndex (i + index) i prev = delete index prev.
Proof.
  revert index i. induction prev as [|x prev IH]; intros index i; [done|].
  cbn [filterIndex]. destruct index as [|index].
  - rewrite Nat.add_0_r, Nat.eqb_refl. cbn [negb].
    apply filterIndex_above. lia.
  - rewrite (proj2 (Nat.eqb_neq i (i + S index))) by lia. cbn [negb].
    replace (i + S index)%nat with (S i + index)%nat by lia.
    by rewrite IH.
Qed.

(** X15: removing a background image.  [removeImage] deletes the image
    at the index and keeps the others in order (nothing when the index
    is out of range).  The list of URLs shown is never empty: with two
    images or more it loses the same entry, and when the last image is
    removed, or there was none, it is the default image alone. *)
Theorem removeImage_backgroundUrls (createObjectURL : File → Js.str)
    (index : nat) (s : state) :
  let s' := finalState (removeImage index s) in
  backgroundImages s' = delete index (backgroundImages s) ∧
  backgroundUrls createObjectURL (backgroundImages s') ≠ [] ∧
  ((1 < length (backgroundImages s))%nat →
     backgroundUrls createObjectURL (backgroundImages s')
     = delete index (backgroundUrls createObjectURL (backgroundImages s))) ∧
  ((length (backgroundImages s) ≤ 1)%nat →
     (index = 0)%nat ∨ backgroundImages s = [] →
     backgroundUrls createObjectURL (backgroundImages s') = [DEFAULT_BG_IMAGE]).
Proof.
  intros s'.
  assert (backgroundImages s' = delete index (backgroundImages s)) as Hs'.
  { subst s'. unfold removeImage. flow_all. apply (filterIndex_delete index 0). }
  rewrite Hs'. clear s' Hs'. set (imgs := backgroundImages s). clearbody imgs.
  split; [done|]. split; [|split].
  - unfold backgroundUrls. destruct (delete index imgs); [done|]. done.
  - intros Hlen. unfold backgroundUrls.
    destruct imgs as [|a [|b imgs]]; [simpl in Hlen; lia..|].
    destruct index as [|[|index]]; cbn [delete list_delete length Nat.eqb];
      try done.
    by rewrite <- list_fmap_delete.
  - intros Hlen Hidx. destruct imgs as [|a [|b imgs]]; [done| |simpl in Hlen; lia].
    destruct Hidx as [->|]; done.
Qed.

Lemma removeImage_backgroundUrls_witness :
  let s := mkState FORM [] [] [] None
             [ImgFile (Js.lit "a.png"); ImgUrl (Js.lit "data:x")] [] None
             (false, []) false in
  backgroundUrls (λ f, Js.lit "blob:" ++ f)
    (backgroundImages (finalState (removeImage 0 s)))
  = [Js.lit "data:x"] ∧
  backgroundUrls (λ f, Js.lit "blob:" ++ f)
    (backgroundImages (finalState (removeImage 0 (finalState (removeImage 0 s)))))
  = [DEFAULT_BG_IMAGE].
Proof.
  intros s. split.
  - destruct (removeImage_backgroundUrls (λ f, Js.lit "blob:" ++ f) 0 s)
      as (_ & _ & H & _).
    rewrite H; [reflexivity | simpl; lia].
  - destruct (removeImage_backgroundUrls (λ f, Js.lit "blob:" ++ f) 0
                (finalState (removeImage 0 s))) as (_ & _ & _ & H).
    apply H; [simpl; lia | by left].
Defined.
End app_flow.

(** *** The image service *)

Section gemini.
Import Gemini.

Lemma promiseAll_images ai prompts images :
  promiseAll (imagePromise ai <$> prompts) = inr images
  ↔ Forall2 (imageOf ai) prompts images.
Proof.
  revert images. induction prompts as [|p prompts IH]; intros images.
  - simpl. split.
    + intros [= <-]. constructor.
    + intros H. by apply Forall2_nil_inv_l in H as ->.
  - cbn [fmap list_fmap promiseAll]. unfold imagePromise at 1.
    split.
    + destruct (askImage ai p) as [e|[[mime data]|]] eqn:Hp; [done| |done].
      destruct (promiseAll _) as [e|l] eqn:Hl; [done|].
      intros [= <-]. constructor; [by exists mime, data|]. by apply IH.
    + intros H. apply Forall2_cons_inv_l in H
        as (image & images' & (mime & data & Hp & ->) & Hrest & ->).
      rewrite Hp. apply IH in Hrest.
      change (list_fmap _ _ (imagePromise ai) prompts)
        with (imagePromise ai <$> prompts).
      by rewrite Hrest.
Qed.

(** X16: [generateImagesForLyrics] succeeds exactly when the vendor
    returns a list of prompts that is not empty and an image for every
    prompt; the result is then one data URL per prompt, in the order of
    the prompts, and is not empty. *)
Theorem generateImagesForLyrics_success (ai : Vendor)
    (lyrics songTitle artistName : Js.str) (imageCount : nat)
    (images : list Js.str) :
  generateImagesForLyrics ai lyrics songTitle artistName imageCount
  = inr images
  ↔ ∃ prompts,
      askPrompts ai lyrics songTitle artistName imageCount
      = inr (Some prompts) ∧
      prompts ≠ [] ∧ images ≠ [] ∧ Forall2 (imageOf ai) prompts images.
Proof.
  unfold generateImagesForLyrics. split.
  - destruct (askPrompts _ _ _ _ _) as [e|[[|p prompts]|]]; [done|done| |done].
    intros H. apply promiseAll_images in H.
    exists (p :: prompts). split; [done|]. split; [done|]. split; [|done].
    intros ->. by apply Forall2_nil_inv_r in H.
  - intros (prompts & -> & Hne & _ & H).
    destruct prompts as [|p prompts]; [done|]. by apply promiseAll_images.
Qed.

Lemma generateImagesForLyrics_success_witness :
  ∃ prompts, Forall2 (imageOf vendorUp) prompts
               [Js.lit "data:image/png;base64,rain";
                Js.lit "data:image/png;base64,sun"].
Proof.
  destruct (generateImagesForLyrics_success vendorUp [] [] [] 4
              [Js.lit "data:image/png;base64,rain";
               Js.lit "data:image/png;base64,sun"]) as [H _].
  destruct (H eq_refl) as (prompts & _ & _ & _ & Hall).
  by exists prompts.
Defined.
End gemini.

(** *** From the player back to the form *)

Section export_import.
Import Js Srt App.



End export_import.

(** *** The model on sample inputs *)

Section samples.
Import Js Srt VideoPlayer.

Example currentIndex_paused : currentIndex 0 false [mkLyric (lit "a") 0 5] = 1.
Proof. reflexivity. Qed.

Example currentIndex_playing : currentIndex 0 true [mkLyric (lit "a") 0 5] = 2.
Proof. reflexivity. Qed.

Example natToString_sample : natToString 1204 = lit "1204".
Proof. reflexivity. Qed.

Example formatSrtTime_sample :
  formatSrtTime (fl (3723456 # 1000)) = lit "01:02:03,456".
Proof. vm_compute. reflexivity. Qed.

(** Not a whole number of milliseconds: [toFixed(3)] rounds the fraction
    up to ["1.000"] and the seconds are not carried. *)
Example formatSrtTime_rounding :
  formatSrtTime (fl (19995 # 10000)) = lit "00:00:01,000".
Proof. vm_compute. reflexivity. Qed.

Example splitSep_sample :
  splitSep (lit "a" ++ [LF; LF; 32; LF]%N ++ lit "b" ++ [LF; 32]%N ++ lit "c")
  = [lit "a"; lit "b" ++ [LF; 32]%N ++ lit "c"].
Proof. vm_compute. reflexivity. Qed.

Example generateSrtContent_sample :
  generateSrtContent [mkLyric (lit "hello") 0 (3 # 2)]
  = lit "1" ++ LF :: lit "00:00:00,000 --> 00:00:01,500" ++ LF ::
    lit "hello" ++ [LF; LF].
Proof. vm_compute. reflexivity. Qed.

Example parseSrt_sample :
  text <$> parseSrt (lit "7" ++ [CR; LF] ++ lit "00:00:01,000 --> 00:00:02,500"
                     ++ [CR; LF] ++ lit "  hi  " ++ [CR; LF; CR; LF]
                     ++ lit "no time line here")
  = [lit "hi"].
Proof. vm_compute. reflexivity. Qed.

End samples.
